(** * pykafka: the balanced consumer ([pykafka/balancedconsumer.py])

    A shallow embedding of [BalancedConsumer]: the partition assignment
    function, the ZooKeeper ownership registry, the rebalance loop and the
    start/stop/consume facade, followed by the properties checked against
    the specification. *)

From Stdlib Require Import ZArith String Ascii List Lia DecimalString DecimalZ DecimalPos.
From stdpp Require Import base option gmap sets list strings sorting.

Open Scope Z_scope.

(** ** Python built-ins used by the module *)

Module Py.

  (** [str(i)] on an [int]: decimal digits with a leading minus sign. *)
Definition str (z : Z) : string := NilZero.string_of_int (Z.to_int z).

  (** [int(s)] on a string, [None] standing for [ValueError].  Only signed
      decimal numerals are accepted; surrounding blanks, a leading plus and
      digit separators, which Python tolerates, never occur in the slugs
      this module writes. *)
Definition int (s : string) : option Z := Z.of_int <$> NilZero.int_of_string s.

  (** [sep.join(l)]. *)
Definition join (sep : string) (l : list string) : string := String.concat sep l.

  (** [s.split(c)] for a one-character separator. *)
Fixpoint split (c : ascii) (s : string) : list string :=
    match s with
    | EmptyString => [EmptyString]
    | String a s' =>
        if Ascii.eqb a c then EmptyString :: split c s'
        else match split c s' with
             | [] => [String a EmptyString]
             | w :: ws => String a w :: ws
             end
    end.

  (** [len(l)]. *)
Definition len {A} (l : list A) : Z := Z.of_nat (length l).

  (** [range(n)]: empty when [n <= 0]. *)
Definition range (n : Z) : list Z := Z.of_nat <$> seq 0 (Z.to_nat n).

  (** The order [<=] on [str]: lexicographic on character codes. *)
Definition str_le (a b : string) : Prop := String.leb a b = true.

  (** [sorted(l, key=key)]: a stable sort on string keys.  Python's sort is
      stable, so any stable sort produces the same list; the model inserts
      each element before the keys that are not smaller. *)
Fixpoint insort {A} (key : A → string) (x : A) (l : list A) : list A :=
    match l with
    | [] => [x]
    | y :: l' =>
        if String.leb (key x) (key y) then x :: y :: l'
        else y :: insort key x l'
    end.

Definition sorted {A} (key : A → string) (l : list A) : list A :=
    foldr (insort key) [] l.

  (** [l.index(x)], [None] standing for [ValueError]. *)
Fixpoint index (x : string) (l : list string) : option nat :=
    match l with
    | [] => None
    | y :: l' => if String.eqb y x then Some 0%nat else S <$> index x l'
    end.

  (** [itertools.islice(l, start, stop)] for non-negative bounds. *)
Definition islice {A} (l : list A) (start stop : Z) : list A :=
    take (Z.to_nat stop - Z.to_nat start)%nat (drop (Z.to_nat start) l).

End Py.

(** ** Brokers, partitions and topics

    The fields read by the balanced consumer: [p.topic.name],
    [p.leader.id] and [p.id]; [topic.partitions] is a dict from partition
    id to partition. *)

Module Broker.
Record t := mk { id : Z }.
End Broker.

Module Partition.
Record t := mk { topic_name : string; leader : Broker.t; id : Z }.
End Partition.

Module Topic.
Record t := mk { name : string; partitions : gmap Z Partition.t }.

  (** The invariant [Topic] maintains: the partition stored under key [k]
      is the partition of this topic with id [k], led by a broker of the
      cluster; Kafka ids are non-negative. *)
Definition wf (tp : t) : Prop :=
    map_Forall (λ k p, Partition.id p = k ∧ 0 ≤ k ∧
                       0 ≤ Broker.id (Partition.leader p) ∧
                       Partition.topic_name p = name tp) (partitions tp).
End Topic.

Global Instance broker_eq_dec : EqDecision Broker.t.
Proof. solve_decision. Defined.

Global Instance partition_eq_dec : EqDecision Partition.t.
Proof. solve_decision. Defined.

Global Instance partition_countable : Countable Partition.t.
Proof.
  refine (inj_countable'
    (λ p, (Partition.topic_name p, Broker.id (Partition.leader p), Partition.id p))
    (λ '(n, l, i), Partition.mk n (Broker.mk l) i) _).
  by intros [? [?] ?].
Defined.

(** [dict.values()]. *)
Definition values {K V} `{Countable K} (d : gmap K V) : list V := (map_to_list d).*2.

(** ** Exceptions and outcomes *)

Inductive Exn :=
  | ValueError
  | IndexError
  | KeyError
  | AttributeError
  | ZeroDivisionError
  | NoNodeException
  | NodeExistsError
  | KafkaException (msg : string)
  | PartitionOwnedError (partition : Partition.t)
  | ConsumerStoppedException
  | NoPartitionsForConsumerException
  | Exception (msg : string).

Global Instance exn_eq_dec : EqDecision Exn.
Proof. solve_decision. Defined.

(** What a call does: return a value, raise, or never return because it
    waits for a lock its own thread holds ([Blocked]) or because the
    iteration bound of the model ran out ([OutOfFuel]). *)
Inductive Outcome (A : Type) :=
  | Return (a : A)
  | Raise (e : Exn)
  | Blocked
  | OutOfFuel.
Arguments Return {A} a.
Arguments Raise {A} e.
Arguments Blocked {A}.
Arguments OutOfFuel {A}.

(** ** The inner consumer *)

Module Message.
Record t := mk { partition_id : Z; offset : Z; value : string }.
End Message.

Module OwnedPartition.
Record t := mk { partition : Partition.t; last_offset_consumed : Z }.
End OwnedPartition.

(** Modelled from the spec: the inner consumer ([pykafka/simpleconsumer.py])
    is not in this module.  The interface the balanced consumer drives is a
    constructor over a partition list, [stop], [commit_offsets],
    [reset_offsets], [consume] and the table [_partitions_by_id] from
    partition id to the partition and its last consumed offset.  What the
    three remote operations answer is left to the environment ([Env]
    below). *)
Module SimpleConsumer.
Record t := mk {
    _partitions_by_id : gmap Z OwnedPartition.t;
    _running : bool;
    reset_offset_on_start : bool
  }.

  (** The [partitions] property: partition id to partition. *)
Definition partitions (c : t) : gmap Z Partition.t :=
    OwnedPartition.partition <$> _partitions_by_id c.

Definition new (initial_offset : Partition.t → Z) (partitions : list Partition.t)
      (reset_offset_on_start auto_start : bool) : t :=
    mk (list_to_map
          ((λ p, (Partition.id p, OwnedPartition.mk p (initial_offset p))) <$> partitions))
       auto_start reset_offset_on_start.

Definition stop (c : t) : t :=
    mk (_partitions_by_id c) false (reset_offset_on_start c).
End SimpleConsumer.

(** ** The coordinator *)

(** A ZooKeeper path is the list of its node names:
    ['/consumers/g/ids'] is [["consumers"; "g"; "ids"]]; formatting
    ['%s/%s' % (path, name)] appends one name.  Group, topic and member
    names hold no slash. *)
Abbreviation path := (list string) (only parsing).

(** Modelled from the spec: the coordinator client ([kazoo.client]) is not
    in this module.  A node holds a value and, when ephemeral, the session
    that owns it; [create] fails with [NodeExistsError] on an existing
    path, [get], [get_children] and [delete] fail with [NoNodeException] on
    a missing one, [ensure_path] creates the missing persistent ancestors,
    and closing a session removes its ephemeral nodes. *)
Module ZooKeeper.
Record node := mk { data : string; ephemeral_owner : option nat }.

Abbreviation store := (gmap path node) (only parsing).

  (** [child_of parent k] is [Some c] when [k = parent ++ [c]]. *)
Fixpoint child_of (parent k : path) : option string :=
    match parent, k with
    | [], [c] => Some c
    | a :: parent', b :: k' => if decide (a = b) then child_of parent' k' else None
    | _, _ => None
    end.

Definition children (st : store) (p : path) : list string :=
    omap (child_of p) (map_to_list st).*1.

Definition get_children (p : path) (st : store) : Outcome (list string) :=
    match st !! p with
    | Some _ => Return (children st p)
    | None => Raise NoNodeException
    end.

Definition get (p : path) (st : store) : Outcome string :=
    match st !! p with
    | Some n => Return (data n)
    | None => Raise NoNodeException
    end.

  (** The non-empty prefixes of a path, shortest first. *)
Definition prefixes (p : path) : list path :=
    (λ n, take n p) <$> seq 1 (length p).

Definition ensure_path (p : path) (st : store) : store :=
    foldr (λ q st', match st' !! q with
                    | Some _ => st'
                    | None => <[q := mk "" None]> st'
                    end) st (prefixes p).

Definition create (session : nat) (p : path) (value : string)
      (ephemeral makepath : bool) (st : store) : Outcome unit * store :=
    match st !! p with
    | Some _ => (Raise NodeExistsError, st)
    | None =>
        let st := if makepath then ensure_path (removelast p) st else st in
        (Return tt,
         <[p := mk value (if ephemeral then Some session else None)]> st)
    end.

Definition delete (p : path) (st : store) : Outcome unit * store :=
    match st !! p with
    | Some _ => (Return tt, base.delete p st)
    | None => (Raise NoNodeException, st)
    end.

  (** End of a session: its ephemeral nodes vanish. *)
Definition close (session : nat) (st : store) : store :=
    filter (λ kn, ephemeral_owner kn.2 ≠ Some session) st.
End ZooKeeper.

Module KazooClient.
Record t := mk { session : nat }.
End KazooClient.

(** ** Environment

    Everything the module does not decide: what the other members of the
    group do to the coordinator while this member sleeps, whether the
    coordinator session opens, what the inner consumer's remote operations
    answer, whether the checker thread can be spawned, and the wall
    clock.  Clock readings are milliseconds as integers, an abstraction of
    the floating-point seconds of [time.time()]. *)
Record Env := {
  peers : Z → ZooKeeper.store → ZooKeeper.store;
  kazoo_session : nat;
  kazoo_start_error : option Exn;
  initial_offset : Partition.t → Z;
  inner_commit_offsets : SimpleConsumer.t → option Exn;
  inner_reset_offsets : SimpleConsumer.t → option Exn;
  inner_consume : SimpleConsumer.t → bool → nat → Outcome (option Message.t);
  spawn_error : option Exn;
  clock : nat → Z
}.

(** ** State of one balanced consumer *)

(** Attributes set by [__init__] and never assigned again. *)
Record Config := {
  _topic : Topic.t;
  _consumer_group : string;
  _consumer_id : string;
  _rebalance_max_retries : Z;
  _rebalance_backoff_ms : Z;
  _consumer_timeout_ms : Z;
  _reset_offset_on_start : bool;
  _owns_zookeeper : bool
}.

Definition _topic_path (cfg : Config) : path :=
  ["consumers"; _consumer_group cfg; "owners"; Topic.name (_topic cfg)]%string.

Definition _consumer_id_path (cfg : Config) : path :=
  ["consumers"; _consumer_group cfg; "ids"]%string.

Inductive Level := DEBUG | INFO | WARNING | ERROR.

(** Observable actions, in the order they happen. *)
Inductive Event :=
  | Log (level : Level) (msg : string)
  | Sleep (ms : Z)
  | LockAcquired
  | LockReleased
  | StopCalled
  | RemovePartition (p : Partition.t)
  | AddPartition (p : Partition.t)
  | InnerStopped
  | InnerCreated (partitions : list Partition.t) (reset_offset_on_start : bool)
  | InnerCommit
  | CheckerSpawned.

Global Instance level_eq_dec : EqDecision Level.
Proof. solve_decision. Defined.

Global Instance event_eq_dec : EqDecision Event.
Proof. solve_decision. Defined.

(** The mutable attributes of the object, the coordinator it talks to and
    the trace of what it has done.  [_rebalancing_lock] is [true] while the
    (non-reentrant) lock is held. *)
Record State := {
  config : Config;
  _running : bool;
  _worker_exception : option Exn;
  _worker_trace_logged : bool;
  _rebalancing_lock : bool;
  _consumer : option SimpleConsumer.t;
  _setting_watches : bool;
  _zookeeper : option KazooClient.t;
  _last_message_time : Z;
  watches : list path;
  zk : ZooKeeper.store;
  ticks : nat;
  trace : list Event
}.

Definition set_running (v : bool) (s : State) : State :=
  {| config := config s; _running := v; _worker_exception := _worker_exception s;
     _worker_trace_logged := _worker_trace_logged s;
     _rebalancing_lock := _rebalancing_lock s; _consumer := _consumer s;
     _setting_watches := _setting_watches s; _zookeeper := _zookeeper s;
     _last_message_time := _last_message_time s; watches := watches s;
     zk := zk s; ticks := ticks s; trace := trace s |}.

Definition set_worker_exception (v : option Exn) (s : State) : State :=
  {| config := config s; _running := _running s; _worker_exception := v;
     _worker_trace_logged := _worker_trace_logged s;
     _rebalancing_lock := _rebalancing_lock s; _consumer := _consumer s;
     _setting_watches := _setting_watches s; _zookeeper := _zookeeper s;
     _last_message_time := _last_message_time s; watches := watches s;
     zk := zk s; ticks := ticks s; trace := trace s |}.

Definition set_worker_trace_logged (v : bool) (s : State) : State :=
  {| config := config s; _running := _running s;
     _worker_exception := _worker_exception s; _worker_trace_logged := v;
     _rebalancing_lock := _rebalancing_lock s; _consumer := _consumer s;
     _setting_watches := _setting_watches s; _zookeeper := _zookeeper s;
     _last_message_time := _last_message_time s; watches := watches s;
     zk := zk s; ticks := ticks s; trace := trace s |}.

Definition set_rebalancing_lock (v : bool) (s : State) : State :=
  {| config := config s; _running := _running s;
     _worker_exception := _worker_exception s;
     _worker_trace_logged := _worker_trace_logged s;
     _rebalancing_lock := v; _consumer := _consumer s;
     _setting_watches := _setting_watches s; _zookeeper := _zookeeper s;
     _last_message_time := _last_message_time s; watches := watches s;
     zk := zk s; ticks := ticks s; trace := trace s |}.

Definition set_consumer (v : option SimpleConsumer.t) (s : State) : State :=
  {| config := config s; _running := _running s;
     _worker_exception := _worker_exception s;
     _worker_trace_logged := _worker_trace_logged s;
     _rebalancing_lock := _rebalancing_lock s; _consumer := v;
     _setting_watches := _setting_watches s; _zookeeper := _zookeeper s;
     _last_message_time := _last_message_time s; watches := watches s;
     zk := zk s; ticks := ticks s; trace := trace s |}.

Definition set_setting_watches (v : bool) (s : State) : State :=
  {| config := config s; _running := _running s;
     _worker_exception := _worker_exception s;
     _worker_trace_logged := _worker_trace_logged s;
     _rebalancing_lock := _rebalancing_lock s; _consumer := _consumer s;
     _setting_watches := v; _zookeeper := _zookeeper s;
     _last_message_time := _last_message_time s; watches := watches s;
     zk := zk s; ticks := ticks s; trace := trace s |}.

Definition set_zookeeper (v : option KazooClient.t) (s : State) : State :=
  {| config := config s; _running := _running s;
     _worker_exception := _worker_exception s;
     _worker_trace_logged := _worker_trace_logged s;
     _rebalancing_lock := _rebalancing_lock s; _consumer := _consumer s;
     _setting_watches := _setting_watches s; _zookeeper := v;
     _last_message_time := _last_message_time s; watches := watches s;
     zk := zk s; ticks := ticks s; trace := trace s |}.

Definition set_last_message_time (v : Z) (s : State) : State :=
  {| config := config s; _running := _running s;
     _worker_exception := _worker_exception s;
     _worker_trace_logged := _worker_trace_logged s;
     _rebalancing_lock := _rebalancing_lock s; _consumer := _consumer s;
     _setting_watches := _setting_watches s; _zookeeper := _zookeeper s;
     _last_message_time := v; watches := watches s;
     zk := zk s; ticks := ticks s; trace := trace s |}.

Definition set_watches (v : list path) (s : State) : State :=
  {| config := config s; _running := _running s;
     _worker_exception := _worker_exception s;
     _worker_trace_logged := _worker_trace_logged s;
     _rebalancing_lock := _rebalancing_lock s; _consumer := _consumer s;
     _setting_watches := _setting_watches s; _zookeeper := _zookeeper s;
     _last_message_time := _last_message_time s; watches := v;
     zk := zk s; ticks := ticks s; trace := trace s |}.

Definition set_zk (v : ZooKeeper.store) (s : State) : State :=
  {| config := config s; _running := _running s;
     _worker_exception := _worker_exception s;
     _worker_trace_logged := _worker_trace_logged s;
     _rebalancing_lock := _rebalancing_lock s; _consumer := _consumer s;
     _setting_watches := _setting_watches s; _zookeeper := _zookeeper s;
     _last_message_time := _last_message_time s; watches := watches s;
     zk := v; ticks := ticks s; trace := trace s |}.

Definition set_ticks (v : nat) (s : State) : State :=
  {| config := config s; _running := _running s;
     _worker_exception := _worker_exception s;
     _worker_trace_logged := _worker_trace_logged s;
     _rebalancing_lock := _rebalancing_lock s; _consumer := _consumer s;
     _setting_watches := _setting_watches s; _zookeeper := _zookeeper s;
     _last_message_time := _last_message_time s; watches := watches s;
     zk := zk s; ticks := v; trace := trace s |}.

Definition set_trace (v : list Event) (s : State) : State :=
  {| config := config s; _running := _running s;
     _worker_exception := _worker_exception s;
     _worker_trace_logged := _worker_trace_logged s;
     _rebalancing_lock := _rebalancing_lock s; _consumer := _consumer s;
     _setting_watches := _setting_watches s; _zookeeper := _zookeeper s;
     _last_message_time := _last_message_time s; watches := watches s;
     zk := zk s; ticks := ticks s; trace := v |}.

(** ** A state-and-exception monad for the methods *)

Definition M (A : Type) : Type := State → Outcome A * State.

Definition ret {A} (a : A) : M A := λ s, (Return a, s).

Definition raise {A} (e : Exn) : M A := λ s, (Raise e, s).

Definition bind {A B} (m : M A) (f : A → M B) : M B := λ s,
  match m s with
  | (Return a, s') => f a s'
  | (Raise e, s') => (Raise e, s')
  | (Blocked, s') => (Blocked, s')
  | (OutOfFuel, s') => (OutOfFuel, s')
  end.

Declare Scope py_scope.
Delimit Scope py_scope with py.
Notation "x <- m ;; k" := (bind m (λ x, k))
  (at level 100, m at next level, k at level 200, right associativity) : py_scope.
Notation "m ;;; k" := (bind m (λ _, k))
  (at level 100, k at level 200, right associativity) : py_scope.
Open Scope py_scope.

Definition gets {A} (f : State → A) : M A := λ s, (Return (f s), s).

Definition modify (f : State → State) : M unit := λ s, (Return tt, f s).

Definition emit (e : Event) : M unit := modify (λ s, set_trace (trace s ++ [e]) s).

Definition lift {A} (o : Outcome A) : M A := λ s, (o, s).

(** [try: body except ...: handler]; [handler e] is [None] when no clause
    matches [e]. *)
Definition try_except {A} (body : M A) (handler : Exn → option (M A)) : M A := λ s,
  match body s with
  | (Raise e, s') =>
      match handler e with
      | Some h => h s'
      | None => (Raise e, s')
      end
  | r => r
  end.

(** [for x in l: body], threading the local variables [acc]. *)
Fixpoint for_ {A B} (l : list A) (acc : B) (body : A → B → M B) : M B :=
  match l with
  | [] => ret acc
  | x :: l' => acc' <- body x acc ;; for_ l' acc' body
  end.

(** [with self._rebalancing_lock: body].  The lock is not reentrant: a
    thread that already holds it waits forever. *)
Definition with_lock {A} (body : M A) : M A := λ s,
  if _rebalancing_lock s then (Blocked, s)
  else
    match (emit LockAcquired ;;; body) (set_rebalancing_lock true s) with
    | (Return a, s') => (emit LockReleased ;;; ret a) (set_rebalancing_lock false s')
    | (Raise e, s') => (emit LockReleased ;;; raise e) (set_rebalancing_lock false s')
    | r => r
    end.

(** ** The assignment function *)

(** [p_to_str], the sort key of [_decide_partitions]. *)
Definition p_to_str (p : Partition.t) : string :=
  Py.join "-" [Partition.topic_name p;
               Py.str (Broker.id (Partition.leader p));
               Py.str (Partition.id p)].

(** [_decide_partitions(self, participants)].  It reads [self._topic] and
    [self._consumer_id] only and changes nothing, so it is a function of
    the configuration; the two log lines are left out.  [index] raises
    before the division can meet an empty participant list. *)
Definition _decide_partitions (self : Config) (participants : list string)
    : Outcome (gset Partition.t) :=
  let all_parts := values (Topic.partitions (_topic self)) in
  let all_parts := Py.sorted p_to_str all_parts in
  let participants := Py.sorted id participants in
  match Py.index (_consumer_id self) participants with
  | None => Raise ValueError
  | Some idx =>
      let idx := Z.of_nat idx in
      if Py.len participants =? 0 then Raise ZeroDivisionError
      else
        let parts_per_consumer := Py.len all_parts `div` Py.len participants in
        let remainder_ppc := Py.len all_parts `mod` Py.len participants in
        let start := parts_per_consumer * idx + Z.min idx remainder_ppc in
        let num_parts :=
          parts_per_consumer + (if idx + 1 >? remainder_ppc then 0 else 1) in
        let new_partitions := Py.islice all_parts start (start + num_parts) in
        Return (list_to_set new_partitions)
  end.

(** ** Methods of [BalancedConsumer] *)

Section methods.
Variable env : Env.

  (** The client behind [self._zookeeper]; calling a method on [None]
      raises [AttributeError]. *)
Definition zookeeper : M KazooClient.t := λ s,
    match _zookeeper s with
    | Some c => (Return c, s)
    | None => (Raise AttributeError, s)
    end.

Definition zk_get_children (p : path) : M (list string) :=
    _ <- zookeeper ;; λ s, (ZooKeeper.get_children p (zk s), s).

Definition zk_get (p : path) : M string :=
    _ <- zookeeper ;; λ s, (ZooKeeper.get p (zk s), s).

Definition zk_ensure_path (p : path) : M unit :=
    _ <- zookeeper ;; modify (λ s, set_zk (ZooKeeper.ensure_path p (zk s)) s).

Definition zk_create (p : path) (value : string) (ephemeral makepath : bool)
      : M unit :=
    c <- zookeeper ;;
    λ s, let '(r, st) := ZooKeeper.create (KazooClient.session c) p value
                           ephemeral makepath (zk s) in
         (r, set_zk st s).

Definition zk_delete (p : path) : M unit :=
    _ <- zookeeper ;;
    λ s, let '(r, st) := ZooKeeper.delete p (zk s) in (r, set_zk st s).

Definition zk_stop : M unit :=
    c <- zookeeper ;;
    modify (λ s, set_zk (ZooKeeper.close (KazooClient.session c) (zk s)) s).

  (** [ChildrenWatch(zk, p, callback)]: fails on a missing path.  The
      callback runs once on installation; every installation happens
      while [_setting_watches] is set and the member runs, where the three
      callbacks return without action, so that first call is left out. *)
Definition zk_children_watch (p : path) : M unit :=
    _ <- zk_get_children p ;;
    modify (λ s, set_watches (watches s ++ [p]) s).

  (** [time.sleep]: a negative duration is refused with [ValueError]
      (on Python 2 with [IOError], which is not told apart here: no
      handler of this module names either); during any other the rest of
      the group acts on the coordinator. *)
Definition sleep (ms : Z) : M unit :=
    if ms <? 0 then raise ValueError
    else
      emit (Sleep ms) ;;;
      modify (λ s, set_zk (peers env ms (zk s)) s).

  (** [time.time()] in milliseconds. *)
Definition time : M Z := λ s,
    (Return (clock env (ticks s)), set_ticks (S (ticks s)) s).

Definition _raise_worker_exceptions : M unit :=
    we <- gets _worker_exception ;;
    match we with
    | Some ex =>
        logged <- gets _worker_trace_logged ;;
        (if negb logged then
           modify (set_worker_trace_logged true) ;;;
           emit (Log ERROR "Exception encountered in worker thread")
         else ret tt) ;;;
        raise ex
    | None => ret tt
    end.

  (** The [partitions] property; [None] is Python's [None]. *)
Definition partitions (s : State) : option (gmap Z Partition.t) :=
    match _consumer s with
    | Some c => Some (SimpleConsumer.partitions c)
    | None => None
    end.

  (** The [_partitions] property. *)
Definition _partitions (s : State) : gset Partition.t :=
    list_to_set (match partitions s with
                 | None => []
                 | Some d => values d
                 end).

  (** The [held_offsets] property. *)
Definition held_offsets (s : State) : option (gmap Z Z) :=
    match _consumer s with
    | None => None
    | Some c =>
        Some (list_to_map
                ((λ p, (Partition.id (OwnedPartition.partition p),
                        OwnedPartition.last_offset_consumed p))
                   <$> values (SimpleConsumer._partitions_by_id c)))
    end.

Definition _path_self (cfg : Config) : path :=
    _consumer_id_path cfg ++ [_consumer_id cfg].

Definition _path_from_partition (cfg : Config) (p : Partition.t) : path :=
    _topic_path cfg ++
      [(Py.str (Broker.id (Partition.leader p)) ++ "-" ++ Py.str (Partition.id p))%string].

Definition _setup_zookeeper : M unit :=
    modify (set_zookeeper (Some (KazooClient.mk (kazoo_session env)))) ;;;
    match kazoo_start_error env with
    | Some e => raise e
    | None => ret tt
    end.

Definition _setup_internal_consumer (partitions : list Partition.t) (start : bool)
      : M unit :=
    cfg <- gets config ;;
    old <- gets _consumer ;;
    reset_offset_on_start <-
      match old with
      | Some c =>
          modify (set_consumer (Some (SimpleConsumer.stop c))) ;;;
          emit InnerStopped ;;;
          ret false
      | None => ret (_reset_offset_on_start cfg)
      end ;;
    modify (set_consumer
              (Some (SimpleConsumer.new (initial_offset env) partitions
                       reset_offset_on_start start))) ;;;
    emit (InnerCreated partitions reset_offset_on_start).

Definition _get_participants : M (list string) :=
    cfg <- gets config ;;
    found <-
      try_except
        (consumer_ids <- zk_get_children (_consumer_id_path cfg) ;;
         ret (Some consumer_ids))
        (λ e, match e with
              | NoNodeException => Some (ret None)
              | _ => None
              end) ;;
    match found with
    | None => ret []
    | Some consumer_ids =>
        participants <-
          for_ consumer_ids [] (λ id_ participants,
            try_except
              (topic <- zk_get (_consumer_id_path cfg ++ [id_]) ;;
               if String.eqb topic (Topic.name (_topic cfg))
               then ret (participants ++ [id_])
               else ret participants)
              (λ e, match e with
                    | NoNodeException => Some (ret participants)
                    | _ => None
                    end)) ;;
        ret (Py.sorted id participants)
    end.

Definition _add_self : M unit :=
    cfg <- gets config ;;
    participants <- _get_participants ;;
    if Z.of_nat (size (Topic.partitions (_topic cfg))) <=? Py.len participants
    then raise (KafkaException "Cannot add consumer: more consumers than partitions")
    else zk_create (_path_self cfg) (Topic.name (_topic cfg)) true true.

  (** [ChildrenWatch] on the three paths; a missing broker path is reported
      as a plain [Exception]. *)
Definition _set_watches : M unit :=
    cfg <- gets config ;;
    modify (set_setting_watches true) ;;;
    try_except (zk_children_watch ["brokers"; "ids"]%string)
      (λ e, match e with
            | NoNodeException =>
                Some (raise (Exception "The broker_path does not exist in your ZooKeeper cluster"))
            | _ => None
            end) ;;;
    zk_children_watch ["brokers"; "topics"]%string ;;;
    zk_children_watch (_consumer_id_path cfg) ;;;
    modify (set_setting_watches false).

Definition _remove_partitions (partitions : list Partition.t) : M unit :=
    cfg <- gets config ;;
    for_ partitions tt (λ p _,
      emit (RemovePartition p) ;;;
      zk_delete (_path_from_partition cfg p)).

Definition _add_partitions (partitions : list Partition.t) : M unit :=
    cfg <- gets config ;;
    for_ partitions tt (λ p _,
      emit (AddPartition p) ;;;
      try_except
        (zk_create (_path_from_partition cfg p) (_consumer_id cfg) true false)
        (λ e, match e with
              | NodeExistsError => Some (raise (PartitionOwnedError p))
              | _ => None
              end)).

  (** [int(partition_slug.split('-')[1])]. *)
Definition slug_partition_id (partition_slug : string) : Outcome Z :=
    match Py.split "-" partition_slug !! 1%nat with
    | None => Raise IndexError
    | Some w =>
        match Py.int w with
        | None => Raise ValueError
        | Some i => Return i
        end
    end.

Definition _get_held_partitions : M (gset Partition.t) :=
    cfg <- gets config ;;
    all_partitions <- zk_get_children (_topic_path cfg) ;;
    zk_partition_ids <-
      for_ all_partitions (∅ : gset Z) (λ partition_slug zk_partition_ids,
        try_except
          (owner_id <- zk_get (_topic_path cfg ++ [partition_slug]) ;;
           if String.eqb owner_id (_consumer_id cfg)
           then i <- lift (slug_partition_id partition_slug) ;;
                ret (zk_partition_ids ∪ {[i]})
           else ret zk_partition_ids)
          (λ e, match e with
                | NoNodeException => Some (ret zk_partition_ids)
                | _ => None
                end)) ;;
    for_ (elements zk_partition_ids) (∅ : gset Partition.t) (λ _id held,
      match Topic.partitions (_topic cfg) !! _id with
      | Some p => ret (held ∪ {[p]})
      | None => raise KeyError
      end).

Definition _check_held_partitions : M bool :=
    emit (Log INFO "Checking held partitions against ZooKeeper") ;;;
    zk_partitions <- _get_held_partitions ;;
    mine <- gets _partitions ;;
    if decide (zk_partitions ≠ mine)
    then emit (Log WARNING "Internal partition registry doesn't match ZooKeeper!") ;;;
         ret false
    else ret true.

Definition commit_offsets : M unit :=
    _raise_worker_exceptions ;;;
    c <- gets _consumer ;;
    match c with
    | None => raise AttributeError
    | Some c =>
        emit InnerCommit ;;;
        match inner_commit_offsets env c with
        | Some e => raise e
        | None => ret tt
        end
    end.

Definition stop : M unit :=
    emit StopCalled ;;;
    with_lock (modify (set_running false)) ;;;
    c <- gets _consumer ;;
    match c with
    | Some c => modify (set_consumer (Some (SimpleConsumer.stop c))) ;;; emit InnerStopped
    | None => ret tt
    end ;;;
    cfg <- gets config ;;
    if _owns_zookeeper cfg then zk_stop
    else
      held <- _get_held_partitions ;;
      _remove_partitions (elements held) ;;;
      try_except (zk_delete (_path_self cfg))
        (λ e, match e with
              | NoNodeException => Some (ret tt)
              | _ => None
              end).

  (** One pass through the [try] block of the retry loop.  Both ways out
      are a [break]; the value is the local [should_stop]. *)
Definition rebalance_attempt : M bool :=
    cfg <- gets config ;;
    participants <- _get_participants ;;
    participants <-
      (if bool_decide (_consumer_id cfg ∈ participants) then ret participants
       else _add_self ;;; ret (participants ++ [_consumer_id cfg])) ;;
    new_partitions <- lift (_decide_partitions cfg participants) ;;
    if decide (new_partitions = ∅) then
      emit (Log WARNING "No partitions assigned to consumer - stopping") ;;;
      ret true
    else
      current_zk_parts <- _get_held_partitions ;;
      _remove_partitions (elements (current_zk_parts ∖ new_partitions)) ;;;
      _add_partitions (elements (new_partitions ∖ current_zk_parts)) ;;;
      mine <- gets _partitions ;;
      (if decide (new_partitions ≠ mine)
       then _setup_internal_consumer (elements new_partitions) true
       else ret tt) ;;;
      emit (Log INFO "Rebalancing Complete.") ;;;
      ret false.

  (** [for i in range(self._rebalance_max_retries)] with its [except
      PartitionOwnedError] clause; [retries] are the values of [i] still to
      run.  A loop that runs out leaves [should_stop] at [False]. *)
Fixpoint rebalance_loop (retries : list Z) : M bool :=
    match retries with
    | [] => ret false
    | i :: retries' =>
        cfg <- gets config ;;
        try_except rebalance_attempt
          (λ ex, match ex with
                 | PartitionOwnedError p =>
                     Some (if i =? _rebalance_max_retries cfg - 1 then
                             emit (Log WARNING "Failed to acquire partition after retries.") ;;;
                             raise ex
                           else
                             emit (Log INFO "Unable to acquire partition. Retrying") ;;;
                             sleep (i * _rebalance_backoff_ms cfg) ;;;
                             rebalance_loop retries')
                 | _ => None
                 end)
    end.

(** The [with self._rebalancing_lock:] block of [_rebalance]; its value is
      the local [should_stop] on leaving the block. *)
Definition rebalance_locked : M bool :=
    cfg <- gets config ;;
    with_lock
      (running <- gets _running ;;
       if negb running then raise ConsumerStoppedException
       else
         emit (Log INFO "Rebalancing consumer") ;;;
         rebalance_loop (Py.range (_rebalance_max_retries cfg))).

Definition _rebalance : M unit :=
    c <- gets _consumer ;;
    (if c is Some _ then commit_offsets else ret tt) ;;;
    should_stop <- rebalance_locked ;;
    if (should_stop : bool) then stop else ret tt.

  (** The decorator [_catch_thread_exception]: an exception of [fn] is
      stored in [_worker_exception] and the call returns [None]. *)
Definition _catch_thread_exception {A} (fn : M (option A)) : M (option A) :=
    try_except fn
      (λ e, Some (modify (set_worker_exception (Some e)) ;;; ret None)).

  (** The body shared by [_brokers_changed], [_consumers_changed] and
      [_topics_changed]; [Some false] disarms the watch. *)
Definition watch_changed (why : string) : M (option bool) :=
    _catch_thread_exception
      (running <- gets _running ;;
       if negb running then ret (Some false)
       else
         setting <- gets _setting_watches ;;
         if (setting : bool) then ret None
         else emit (Log DEBUG why) ;;; _rebalance ;;; ret None).

Definition _brokers_changed : M (option bool) :=
    watch_changed "Rebalance triggered by broker change".

Definition _consumers_changed : M (option bool) :=
    watch_changed "Rebalance triggered by consumer change".

Definition _topics_changed : M (option bool) :=
    watch_changed "Rebalance triggered by topic change".

  (** One turn of the loop of the checker thread; [true] when the loop
      goes on.  The weak reference to [self] is taken to be alive. *)
Definition checker_turn : M bool :=
    try_except
      (running <- gets _running ;;
       if negb running then ret false
       else
         sleep 120000 ;;;
         ok <- _check_held_partitions ;;
         (if (ok : bool) then ret tt else _rebalance) ;;;
         ret true)
      (λ e, Some (modify (set_worker_exception (Some e)) ;;; ret false)).

Definition _setup_checker_worker : M unit :=
    emit (Log DEBUG "Starting checker thread") ;;;
    match spawn_error env with
    | Some e => raise e
    | None => emit CheckerSpawned
    end.

  (** The [try] block of [start]. *)
Definition start_body : M unit :=
    cfg <- gets config ;;
    z <- gets _zookeeper ;;
    (if z is None then _setup_zookeeper else ret tt) ;;;
    zk_ensure_path (_topic_path cfg) ;;;
    _add_self ;;;
    modify (set_running true) ;;;
    _set_watches ;;;
    _rebalance ;;;
    _setup_checker_worker.

Definition start : M unit :=
    try_except start_body
      (λ _, Some (emit (Log ERROR "Stopping consumer in response to error") ;;;
                  stop)).

Definition reset_offsets : M unit :=
    _raise_worker_exceptions ;;;
    c <- gets _consumer ;;
    match c with
    | None => raise ConsumerStoppedException
    | Some c =>
        match inner_reset_offsets env c with
        | Some e => raise e
        | None => ret tt
        end
    end.

  (** The local function [consumer_timed_out] of [consume]. *)
Definition consumer_timed_out : M bool :=
    cfg <- gets config ;;
    if _consumer_timeout_ms cfg =? -1 then ret false
    else
      now <- time ;;
      last <- gets _last_message_time ;;
      ret (now - last >? _consumer_timeout_ms cfg).

  (** The [while] loop of [consume], entered with [message is None];
      [fuel] bounds the number of turns. *)
Fixpoint consume_loop (fuel : nat) (block : bool) : M (option Message.t) :=
    match fuel with
    | O => lift OutOfFuel
    | S fuel' =>
        timed_out <- consumer_timed_out ;;
        if (timed_out : bool) then ret None
        else
          _raise_worker_exceptions ;;;
          c <- gets _consumer ;;
          match c with
          | None => raise AttributeError
          | Some c =>
              n <- gets ticks ;;
              modify (set_ticks (S n)) ;;;
              got <-
                try_except
                  (message <- lift (inner_consume env c block n) ;; ret (Some message))
                  (λ e, match e with
                        | ConsumerStoppedException => Some (ret None)
                        | _ => None
                        end) ;;
              match got with
              | None =>
                  running <- gets _running ;;
                  if negb running then ret None else consume_loop fuel' block
              | Some message =>
                  (if message is Some _
                   then now <- time ;; modify (set_last_message_time now)
                   else ret tt) ;;;
                  if negb block then ret message
                  else if message is Some _ then ret message
                       else consume_loop fuel' block
              end
          end
    end.

Definition consume (fuel : nat) (block : bool) : M (option Message.t) :=
    mine <- gets _partitions ;;
    if decide (mine = ∅) then raise NoPartitionsForConsumerException
    else
      now <- time ;;
      modify (set_last_message_time now) ;;;
      consume_loop fuel block.

End methods.

(** [__init__] without its final [if auto_start: self.start()]: the
    attributes of a fresh object.  [consumer_id] is the
    ["{hostname}:{uuid}"] drawn at construction, [zookeeper] the injected
    client if any, [coordinator] what ZooKeeper holds at that time. *)
Definition __init__ (topic : Topic.t) (consumer_group consumer_id : string)
    (consumer_timeout_ms rebalance_max_retries rebalance_backoff_ms : Z)
    (zookeeper : option KazooClient.t) (reset_offset_on_start : bool)
    (coordinator : ZooKeeper.store) : State :=
  {| config := {| _topic := topic; _consumer_group := consumer_group;
                  _consumer_id := consumer_id;
                  _rebalance_max_retries := rebalance_max_retries;
                  _rebalance_backoff_ms := rebalance_backoff_ms;
                  _consumer_timeout_ms := consumer_timeout_ms;
                  _reset_offset_on_start := reset_offset_on_start;
                  _owns_zookeeper := bool_decide (zookeeper = None) |};
     _running := false; _worker_exception := None; _worker_trace_logged := false;
     _rebalancing_lock := false; _consumer := None; _setting_watches := true;
     _zookeeper := zookeeper; _last_message_time := 0; watches := [];
     zk := coordinator; ticks := 0; trace := [] |}.

(** The same object seen by the member [m] of the group: every member runs
    this code with its own [_consumer_id] on the same topic. *)
Definition member (cfg : Config) (m : string) : Config :=
  {| _topic := _topic cfg; _consumer_group := _consumer_group cfg; _consumer_id := m;
     _rebalance_max_retries := _rebalance_max_retries cfg;
     _rebalance_backoff_ms := _rebalance_backoff_ms cfg;
     _consumer_timeout_ms := _consumer_timeout_ms cfg;
     _reset_offset_on_start := _reset_offset_on_start cfg;
     _owns_zookeeper := _owns_zookeeper cfg |}.

(** ** The assignment as the specification words it

    [slice_start] and [slice_count] follow section 4.B of the
    specification: [start = base*idx + min(idx, rem)] and
    [count = base + (1 if idx < rem else 0)], for [n] partitions and [k]
    participants. *)
Definition slice_start (n k idx : Z) : Z :=
  (n `div` k) * idx + Z.min idx (n `mod` k).

Definition slice_count (n k idx : Z) : Z :=
  (n `div` k) + (if idx <? n `mod` k then 1 else 0).

(** [T[start : start+count]]. *)
Definition slice {A} (l : list A) (start count : Z) : list A :=
  take (Z.to_nat count) (drop (Z.to_nat start) l).

(** The partitions of the topic in canonical order. *)
Definition sorted_partitions (cfg : Config) : list Partition.t :=
  Py.sorted p_to_str (values (Topic.partitions (_topic cfg))).

(** What [_decide_partitions] gives member [m]; the empty set stands in
    when the call raises. *)
Definition assigned (cfg : Config) (P : list string) (m : string) : gset Partition.t :=
  match _decide_partitions (member cfg m) P with
  | Return A => A
  | _ => ∅
  end.

(** ** Facts about the built-ins *)

Section py_facts.

Lemma ascii_compare_refl a : Ascii.compare a a = Eq.
  Proof. unfold Ascii.compare. apply N.compare_refl. Qed.

Lemma string_compare_refl s : String.compare s s = Eq.
  Proof. induction s as [|a s IH]; simpl; [done|]. by rewrite ascii_compare_refl. Qed.

Lemma string_compare_lt_trans s1 s2 s3 :
    String.compare s1 s2 = Lt → String.compare s2 s3 = Lt → String.compare s1 s3 = Lt.
  Proof.
    revert s2 s3. induction s1 as [|a s1 IH]; intros [|b s2] [|c s3]; simpl; try done.
    unfold Ascii.compare.
    destruct (N.compare_spec (N_of_ascii a) (N_of_ascii b)) as [Hab|Hab|Hab];
      destruct (N.compare_spec (N_of_ascii b) (N_of_ascii c)) as [Hbc|Hbc|Hbc];
      try done; intros H1 H2.
    - rewrite Hab, Hbc, N.compare_refl. eauto.
    - rewrite Hab. by apply N.compare_lt_iff in Hbc as ->.
    - rewrite <- Hbc. by apply N.compare_lt_iff in Hab as ->.
    - assert (N_of_ascii a < N_of_ascii c)%N as Hac by lia.
      by apply N.compare_lt_iff in Hac as ->.
  Qed.

Lemma str_le_refl s : Py.str_le s s.
  Proof. unfold Py.str_le, String.leb. by rewrite string_compare_refl. Qed.

Lemma str_le_antisym a b : Py.str_le a b → Py.str_le b a → a = b.
  Proof. apply String.leb_antisym. Qed.

Lemma str_le_total a b : Py.str_le a b ∨ Py.str_le b a.
  Proof. apply String.leb_total. Qed.

Lemma str_le_trans a b c : Py.str_le a b → Py.str_le b c → Py.str_le a c.
  Proof.
    unfold Py.str_le, String.leb.
    destruct (String.compare a b) eqn:Hab; [|destruct (String.compare b c) eqn:Hbc|]; try done.
    - apply String.compare_eq_iff in Hab as ->. done.
    - apply String.compare_eq_iff in Hbc as ->. by rewrite Hab.
    - by rewrite (string_compare_lt_trans _ _ _ Hab Hbc).
  Qed.

Lemma string_eqb_decide (a b : string) : String.eqb a b = bool_decide (a = b).
  Proof.
    destruct (String.eqb_spec a b); [by rewrite bool_decide_eq_true_2
                                    |by rewrite bool_decide_eq_false_2].
  Qed.

Context {A : Type} (key : A → string).

Lemma insort_Permutation x l : Py.insort key x l ≡ₚ x :: l.
  Proof.
    induction l as [|y l IH]; simpl; [done|].
    destruct (String.leb _ _); [done|]. rewrite IH. apply perm_swap.
  Qed.

Lemma sorted_Permutation l : Py.sorted key l ≡ₚ l.
  Proof.
    induction l as [|x l IH]; simpl; [done|].
    fold (Py.sorted key l). by rewrite insort_Permutation, IH.
  Qed.

Lemma sorted_length l : length (Py.sorted key l) = length l.
  Proof. by rewrite sorted_Permutation. Qed.

Lemma elem_of_sorted x l : x ∈ Py.sorted key l ↔ x ∈ l.
  Proof. by rewrite sorted_Permutation. Qed.

Lemma sorted_NoDup l : NoDup l → NoDup (Py.sorted key l).
  Proof. by rewrite sorted_Permutation. Qed.

Definition key_le (a b : A) : Prop := Py.str_le (key a) (key b).

Lemma insort_StronglySorted x l :
    StronglySorted key_le l → StronglySorted key_le (Py.insort key x l).
  Proof.
    induction 1 as [|y l Hl IH Hy]; simpl.
    - repeat constructor.
    - destruct (String.leb (key x) (key y)) eqn:Hxy.
      + constructor; [by constructor|].
        constructor; [done|].
        eapply Forall_impl; [exact Hy|].
        intros z Hz. eapply str_le_trans; [exact Hxy|exact Hz].
      + constructor; [done|].
        rewrite insort_Permutation. constructor; [|done].
        destruct (str_le_total (key x) (key y)) as [H|H]; [|done].
        unfold Py.str_le in H. congruence.
  Qed.

Lemma sorted_StronglySorted l : StronglySorted key_le (Py.sorted key l).
  Proof.
    induction l as [|x l IH]; simpl; [constructor|].
    by apply insort_StronglySorted.
  Qed.

End py_facts.

Global Instance str_le_antisymm : AntiSymm (=) Py.str_le.
Proof. intros a b. apply str_le_antisym. Qed.

(** Sorting forgets the order of the input: strings that compare equal are
    equal. *)
Lemma sorted_id_perm (l l' : list string) :
  l ≡ₚ l' → Py.sorted id l = Py.sorted id l'.
Proof.
  intros Hp.
  apply (StronglySorted_unique Py.str_le).
  - apply (sorted_StronglySorted id).
  - apply (sorted_StronglySorted id).
  - by rewrite !sorted_Permutation.
Qed.

Lemma index_lookup x l i : Py.index x l = Some i → l !! i = Some x.
Proof.
  revert i. induction l as [|y l IH]; intros i; simpl; [done|].
  rewrite string_eqb_decide. case_bool_decide as Hy.
  - intros [= <-]. by subst.
  - destruct (Py.index x l) as [j|]; simpl; [|done].
    intros [= <-]. by apply IH.
Qed.

Lemma index_is_Some x l : x ∈ l → is_Some (Py.index x l).
Proof.
  induction l as [|y l IH]; [by intros ?%elem_of_nil|].
  intros Hx. simpl. rewrite string_eqb_decide. case_bool_decide as Hy; [by eexists|].
  apply elem_of_cons in Hx as [->|Hx]; [done|].
  destruct (IH Hx) as [j ->]. by eexists.
Qed.

Lemma index_None x l : Py.index x l = None → x ∉ l.
Proof.
  intros Hn Hx. apply index_is_Some in Hx as [i Hi]. congruence.
Qed.

Lemma lookup_islice {A} (l : list A) (start stop : Z) x :
  0 ≤ start →
  x ∈ Py.islice l start stop ↔
  ∃ j : nat, start ≤ Z.of_nat j < stop ∧ l !! j = Some x.
Proof.
  intros Hs. unfold Py.islice. rewrite list_elem_of_lookup. split.
  - intros [i Hi]. apply lookup_take_Some in Hi as [Hi Hlt].
    rewrite lookup_drop in Hi. exists (Z.to_nat start + i)%nat. split; [lia|done].
  - intros (j & Hj & Hx). exists (j - Z.to_nat start)%nat.
    apply lookup_take_Some. split; [|lia].
    rewrite lookup_drop. by replace (Z.to_nat start + (j - Z.to_nat start))%nat with j by lia.
Qed.

(** ** Arithmetic of the slices *)

Section slices.
Variables n k : Z.
Hypothesis Hn : 0 ≤ n.
Hypothesis Hk : 0 < k.

Lemma slice_start_0 : slice_start n k 0 = 0.
  Proof.
    unfold slice_start. pose proof (Z.mod_pos_bound n k Hk). lia.
  Qed.

Lemma slice_count_nonneg i : 0 ≤ slice_count n k i.
  Proof.
    unfold slice_count. pose proof (Z.div_pos n k Hn Hk).
    destruct (i <? n `mod` k); lia.
  Qed.

Lemma slice_start_succ i :
    0 ≤ i → slice_start n k (i + 1) = slice_start n k i + slice_count n k i.
  Proof.
    intros Hi. unfold slice_start, slice_count.
    destruct (Z.ltb_spec i (n `mod` k)); lia.
  Qed.

Lemma slice_start_mono i j :
    0 ≤ i → i ≤ j → slice_start n k i ≤ slice_start n k j.
  Proof.
    intros Hi Hij. unfold slice_start.
    pose proof (Z.div_pos n k Hn Hk). nia.
  Qed.

Lemma slice_start_nonneg i : 0 ≤ i → 0 ≤ slice_start n k i.
  Proof.
    intros Hi. rewrite <- slice_start_0. by apply slice_start_mono.
  Qed.

Lemma slice_start_last : slice_start n k k = n.
  Proof.
    unfold slice_start. pose proof (Z.mod_pos_bound n k Hk).
    pose proof (Z.div_mod n k). lia.
  Qed.

  (** Every position below [n] lies in the slice of some index below [k]. *)
Lemma slice_cover (j : Z) :
    0 ≤ j < n →
    ∃ i : nat, Z.of_nat i < k ∧
      slice_start n k (Z.of_nat i) ≤ j < slice_start n k (Z.of_nat i) + slice_count n k (Z.of_nat i).
  Proof.
    intros Hj.
    assert (∀ m : nat, Z.of_nat m ≤ k → j < slice_start n k (Z.of_nat m) →
              ∃ i : nat, Z.of_nat i < k ∧
                slice_start n k (Z.of_nat i) ≤ j
                  < slice_start n k (Z.of_nat i) + slice_count n k (Z.of_nat i)) as H.
    { induction m as [|m IH]; intros Hm Hlt.
      - change (Z.of_nat 0) with 0 in Hlt. rewrite slice_start_0 in Hlt. lia.
      - replace (Z.of_nat (S m)) with (Z.of_nat m + 1) in Hlt by lia.
        rewrite slice_start_succ in Hlt by lia.
        destruct (Z.le_gt_cases (slice_start n k (Z.of_nat m)) j).
        + exists m. lia.
        + apply IH; lia. }
    apply (H (Z.to_nat k)); [lia|].
    rewrite Z2Nat.id by lia. rewrite slice_start_last. lia.
  Qed.

  (** The slices of two different indices share no position. *)
Lemma slice_disjoint (i i' j : Z) :
    0 ≤ i → 0 ≤ i' → i ≠ i' →
    slice_start n k i ≤ j < slice_start n k i + slice_count n k i →
    slice_start n k i' ≤ j < slice_start n k i' + slice_count n k i' →
    False.
  Proof.
    intros Hi Hi' Hne H1 H2.
    rewrite <- slice_start_succ in H1, H2 by done.
    destruct (Z.lt_total i i') as [Hlt|[->|Hlt]]; [|done|].
    - pose proof (slice_start_mono (i + 1) i'). lia.
    - pose proof (slice_start_mono (i' + 1) i). lia.
  Qed.

End slices.

(** ** The assignment function: basic facts *)

Lemma index_NoDup x l i : NoDup l → l !! i = Some x → Py.index x l = Some i.
Proof.
  intros Hnd Hi.
  destruct (index_is_Some x l) as [j Hj]; [by eapply list_elem_of_lookup_2|].
  rewrite Hj. f_equal. apply index_lookup in Hj.
  by eapply NoDup_lookup.
Qed.

Lemma islice_slice {A} (l : list A) (start count : Z) :
  0 ≤ start → 0 ≤ count → Py.islice l start (start + count) = slice l start count.
Proof.
  intros Hs Hc. unfold Py.islice, slice. f_equal. lia.
Qed.

Lemma elem_of_slice {A} (l : list A) (start count : Z) x :
  0 ≤ start → 0 ≤ count →
  x ∈ slice l start count ↔
  ∃ j : nat, start ≤ Z.of_nat j < start + count ∧ l !! j = Some x.
Proof.
  intros Hs Hc. rewrite <- islice_slice by done. by apply lookup_islice.
Qed.

Lemma sorted_partitions_member cfg m :
  sorted_partitions (member cfg m) = sorted_partitions cfg.
Proof. done. Qed.

Lemma elem_of_sorted_partitions cfg p :
  p ∈ sorted_partitions cfg ↔ p ∈ values (Topic.partitions (_topic cfg)).
Proof. apply elem_of_sorted. Qed.

Lemma elem_of_values {K V} `{Countable K} (d : gmap K V) v :
  v ∈ values d ↔ ∃ k, d !! k = Some v.
Proof.
  unfold values. rewrite list_elem_of_fmap. split.
  - intros ([k v'] & -> & Hkv). exists k. by apply elem_of_map_to_list.
  - intros [k Hk]. exists (k, v). split; [done|]. by apply elem_of_map_to_list.
Qed.

(** The partitions of a well-formed topic are pairwise different. *)
Lemma values_NoDup (tp : Topic.t) : Topic.wf tp → NoDup (values (Topic.partitions tp)).
Proof.
  intros Hwf. unfold values. apply NoDup_fmap_2_strong; [|apply NoDup_map_to_list].
  intros [k1 p1] [k2 p2] H1%elem_of_map_to_list H2%elem_of_map_to_list Heq.
  simpl in Heq. subst p2.
  apply Hwf in H1 as [? _], H2 as [? _]. congruence.
Qed.

(** [_decide_partitions] returns the slice the specification describes. *)
Lemma decide_partitions_index (cfg : Config) (P : list string) (idx : nat) :
  Py.index (_consumer_id cfg) (Py.sorted id P) = Some idx →
  _decide_partitions cfg P =
    Return (list_to_set
              (slice (sorted_partitions cfg)
                 (slice_start (Py.len (sorted_partitions cfg)) (Py.len P) (Z.of_nat idx))
                 (slice_count (Py.len (sorted_partitions cfg)) (Py.len P) (Z.of_nat idx)))).
Proof.
  intros Hidx. unfold _decide_partitions. rewrite Hidx.
  fold (sorted_partitions cfg).
  assert (Py.len (Py.sorted id P) = Py.len P) as ->
    by (unfold Py.len; by rewrite sorted_length).
  pose proof (index_lookup _ _ _ Hidx) as Hlt%lookup_lt_Some.
  rewrite sorted_length in Hlt.
  assert (0 < Py.len P) as Hk by (unfold Py.len; lia).
  assert (0 ≤ Py.len (sorted_partitions cfg)) as Hn by (unfold Py.len; lia).
  destruct (Z.eqb_spec (Py.len P) 0) as [?|_]; [lia|].
  assert ((if Z.of_nat idx + 1 >? Py.len (sorted_partitions cfg) `mod` Py.len P
           then 0 else 1)
          = (if Z.of_nat idx <? Py.len (sorted_partitions cfg) `mod` Py.len P
             then 1 else 0)) as Hif.
  { rewrite Z.gtb_ltb.
    destruct (Z.ltb_spec (Py.len (sorted_partitions cfg) `mod` Py.len P) (Z.of_nat idx + 1));
      destruct (Z.ltb_spec (Z.of_nat idx) (Py.len (sorted_partitions cfg) `mod` Py.len P));
      lia. }
  rewrite Hif.
  change (Py.len (sorted_partitions cfg) `div` Py.len P * Z.of_nat idx
          + Z.min (Z.of_nat idx) (Py.len (sorted_partitions cfg) `mod` Py.len P))
    with (slice_start (Py.len (sorted_partitions cfg)) (Py.len P) (Z.of_nat idx)).
  change (Py.len (sorted_partitions cfg) `div` Py.len P
          + (if Z.of_nat idx <? Py.len (sorted_partitions cfg) `mod` Py.len P
             then 1 else 0))
    with (slice_count (Py.len (sorted_partitions cfg)) (Py.len P) (Z.of_nat idx)).
  rewrite islice_slice; [done| |].
  - apply slice_start_nonneg; lia.
  - apply slice_count_nonneg; lia.
Qed.

Lemma decide_partitions_not_member (cfg : Config) (P : list string) :
  _consumer_id cfg ∉ P → _decide_partitions cfg P = Raise ValueError.
Proof.
  intros Hn. unfold _decide_partitions.
  destruct (Py.index _ _) as [i|] eqn:Hi; [|done].
  apply index_lookup, list_elem_of_lookup_2, elem_of_sorted in Hi. done.
Qed.

(** The position of a member in the sorted participant list. *)
Lemma member_index (P : list string) (m : string) :
  m ∈ P → ∃ idx : nat, Py.index m (Py.sorted id P) = Some idx ∧
                        Py.sorted id P !! idx = Some m ∧ (idx < length P)%nat.
Proof.
  intros Hm.
  destruct (index_is_Some m (Py.sorted id P)) as [idx Hidx]; [by apply elem_of_sorted|].
  exists idx. split; [done|]. pose proof (index_lookup _ _ _ Hidx) as Hl.
  split; [done|]. apply lookup_lt_Some in Hl. by rewrite sorted_length in Hl.
Qed.

Lemma assigned_index (cfg : Config) (P : list string) (m : string) (idx : nat) :
  Py.index m (Py.sorted id P) = Some idx →
  assigned cfg P m =
    list_to_set
      (slice (sorted_partitions cfg)
         (slice_start (Py.len (sorted_partitions cfg)) (Py.len P) (Z.of_nat idx))
         (slice_count (Py.len (sorted_partitions cfg)) (Py.len P) (Z.of_nat idx))).
Proof.
  intros Hidx. unfold assigned.
  by rewrite (decide_partitions_index (member cfg m) P idx Hidx).
Qed.

Lemma elem_of_assigned (cfg : Config) (P : list string) (m : string) (idx : nat) p :
  Py.index m (Py.sorted id P) = Some idx →
  p ∈ assigned cfg P m ↔
  ∃ j : nat,
    slice_start (Py.len (sorted_partitions cfg)) (Py.len P) (Z.of_nat idx) ≤ Z.of_nat j
      < slice_start (Py.len (sorted_partitions cfg)) (Py.len P) (Z.of_nat idx)
        + slice_count (Py.len (sorted_partitions cfg)) (Py.len P) (Z.of_nat idx)
    ∧ sorted_partitions cfg !! j = Some p.
Proof.
  intros Hidx. rewrite (assigned_index _ _ _ _ Hidx), elem_of_list_to_set.
  pose proof (index_lookup _ _ _ Hidx) as Hlt%lookup_lt_Some.
  rewrite sorted_length in Hlt.
  apply elem_of_slice.
  - apply slice_start_nonneg; unfold Py.len; lia.
  - apply slice_count_nonneg; unfold Py.len; lia.
Qed.

(** ** A group of three members on a topic of five partitions

    Scenario 2 of the specification: [P = ["a"; "b"; "c"]] and
    [T = [p0 .. p4]]. *)
Module Scenario.
Definition p (i : Z) : Partition.t := Partition.mk "t" (Broker.mk 0) i.

Definition topic : Topic.t :=
  Topic.mk "t" (list_to_map ((λ i, (i, p i)) <$> [0; 1; 2; 3; 4])).

Definition cfg (m : string) : Config :=
  {| _topic := topic; _consumer_group := "g"; _consumer_id := m;
     _rebalance_max_retries := 5; _rebalance_backoff_ms := 2000;
     _consumer_timeout_ms := -1; _reset_offset_on_start := false;
     _owns_zookeeper := false |}.

Definition P : list string := ["a"; "b"; "c"]%string.

(** An environment in which nothing fails and the peers stay quiet. *)
Definition env : Env :=
  {| peers := λ _ st, st; kazoo_session := 1; kazoo_start_error := None;
     initial_offset := λ _, 0; inner_commit_offsets := λ _, None;
     inner_reset_offsets := λ _, None; inner_consume := λ _ _ _, Return None;
     spawn_error := None; clock := λ n, Z.of_nat n |}.

(** The same, with an inner consumer whose offset commit fails. *)
Definition env_commit_fails : Env :=
  {| peers := λ _ st, st; kazoo_session := 1; kazoo_start_error := None;
     initial_offset := λ _, 0;
     inner_commit_offsets := λ _, Some (KafkaException "offset commit failed");
     inner_reset_offsets := λ _, None; inner_consume := λ _ _ _, Return None;
     spawn_error := None; clock := λ n, Z.of_nat n |}.

(** A coordinator of a running cluster: the broker paths exist. *)
Definition coordinator : gmap (list string) ZooKeeper.node :=
  ZooKeeper.ensure_path ["brokers"; "ids"]%string
    (ZooKeeper.ensure_path ["brokers"; "topics"]%string ∅).

(** Member [a], constructed with an injected client and not yet started. *)
Definition fresh : State :=
  __init__ topic "g" "a" (-1) 5 2000 (Some (KazooClient.mk 7)) false coordinator.

(** Scenario 3 of the specification: three members on a topic of two
    partitions; [crowded] is member [c], running, with all three members
    registered. *)
Definition small_topic : Topic.t :=
  Topic.mk "t" (list_to_map ((λ i, (i, p i)) <$> [0; 1])).

Definition crowded : State :=
  set_running true
    (__init__ small_topic "g" "c" (-1) 5 2000 (Some (KazooClient.mk 9)) false
       (<[_consumer_id_path (cfg "c") ++ ["c"%string] := ZooKeeper.mk "t" (Some 9%nat)]>
          (<[_consumer_id_path (cfg "c") ++ ["b"%string] := ZooKeeper.mk "t" (Some 8%nat)]>
             (<[_consumer_id_path (cfg "c") ++ ["a"%string] := ZooKeeper.mk "t" (Some 7%nat)]>
                (ZooKeeper.ensure_path (_topic_path (cfg "c"))
                   (ZooKeeper.ensure_path (_consumer_id_path (cfg "c")) coordinator)))))).

(** Member [a] constructed against a coordinator without the broker
    paths: the Kafka cluster is not running. *)
Definition isolated : State :=
  __init__ topic "g" "a" (-1) 5 2000 (Some (KazooClient.mk 7)) false ∅.

(** Member [a] after a successful [start]: it consumes the five
    partitions. *)
Definition consuming : State := (start env fresh).2.

(** The same member after a background task has stored an error. *)
Definition failed : State :=
  set_worker_exception (Some (Exception "lost connection")) consuming.

(** Member [a] alone in the group and running, while a peer [b] that has
    left still holds partition 0. *)
Definition contended : State :=
  set_running true
    (set_zk (<[_topic_path (cfg "a") ++ ["0-0"%string] := ZooKeeper.mk "b" (Some 2%nat)]>
               (<[_consumer_id_path (cfg "a") ++ ["a"%string] := ZooKeeper.mk "t" (Some 7%nat)]>
                  (ZooKeeper.ensure_path (_topic_path (cfg "a"))
                     (ZooKeeper.ensure_path (_consumer_id_path (cfg "a")) coordinator))))
       fresh).

(** Member [a], consuming the five partitions, when a member [b] has
    registered for the topic. *)
Definition joined : State :=
  set_zk (<[_consumer_id_path (cfg "a") ++ ["b"%string] := ZooKeeper.mk "t" (Some 8%nat)]>
            (zk consuming)) consuming.

Lemma topic_wf : Topic.wf topic.
Proof. unfold Topic.wf, P. apply (bool_decide_unpack _). vm_compute. exact I. Qed.

Lemma P_NoDup : NoDup P.
Proof. unfold Topic.wf, P. apply (bool_decide_unpack _). vm_compute. exact I. Qed.
End Scenario.

(** ** Properties of the assignment function *)

(** C1. For the partitions of a topic, which are pairwise different, and a
    list [P] of distinct member ids with at least one member, each member
    of [P] is given an assignment by [_decide_partitions], the assignments
    of two different members are disjoint, and the union of the
    assignments over the members of [P] is the set of all partitions of
    the topic. *)
Theorem decide_partitions_disjoint_cover (cfg : Config) (P : list string) :
  Topic.wf (_topic cfg) → NoDup P → P ≠ [] →
  (∀ m, m ∈ P → ∃ A, _decide_partitions (member cfg m) P = Return A) ∧
  (∀ m m', m ∈ P → m' ∈ P → m ≠ m' → assigned cfg P m ## assigned cfg P m') ∧
  ⋃ (assigned cfg P <$> P) = list_to_set (values (Topic.partitions (_topic cfg))).
Proof.
  intros Hwf HP Hne.
  set (T := sorted_partitions cfg).
  assert (NoDup T) as HT by (apply sorted_NoDup, values_NoDup, Hwf).
  assert (0 < Py.len P) as Hk by (unfold Py.len; destruct P; [done|simpl; lia]).
  assert (0 ≤ Py.len T) as Hn by (unfold Py.len; lia).
  split; [|split].
  - intros m Hm. destruct (member_index P m Hm) as (idx & Hidx & _).
    eexists. by apply (decide_partitions_index (member cfg m)).
  - intros m m' Hm Hm' Hmm'.
    destruct (member_index P m Hm) as (i & Hi & Hli & _).
    destruct (member_index P m' Hm') as (i' & Hi' & Hli' & _).
    apply elem_of_disjoint. intros q Hq Hq'.
    apply (elem_of_assigned _ _ _ _ _ Hi) in Hq as (j & Hj & Hjq).
    apply (elem_of_assigned _ _ _ _ _ Hi') in Hq' as (j' & Hj' & Hjq').
    assert (j = j') as <- by (by eapply NoDup_lookup).
    apply (slice_disjoint (Py.len T) (Py.len P) Hn Hk (Z.of_nat i) (Z.of_nat i') (Z.of_nat j));
      [lia|lia| |done|done].
    intros Heq. apply Nat2Z.inj in Heq. subst i'. congruence.
  - apply set_eq. intros q. rewrite elem_of_union_list, elem_of_list_to_set.
    rewrite <- elem_of_sorted_partitions. split.
    + intros (A & HA & Hq). apply list_elem_of_fmap in HA as (m & -> & Hm).
      destruct (member_index P m Hm) as (i & Hi & _).
      destruct (proj1 (elem_of_assigned cfg P m i q Hi) Hq) as (j & Hj & Hjq).
      by eapply list_elem_of_lookup_2.
    + intros Hq. apply list_elem_of_lookup in Hq as [j Hj].
      pose proof (lookup_lt_Some _ _ _ Hj) as Hjlt.
      destruct (slice_cover (Py.len T) (Py.len P) Hk (Z.of_nat j)) as (i & Hik & Hij).
      { unfold Py.len, T. lia. }
      destruct (lookup_lt_is_Some_2 (Py.sorted id P) i) as [m Hm].
      { rewrite sorted_length. unfold Py.len in Hik. lia. }
      assert (Py.index m (Py.sorted id P) = Some i) as Hi
        by (apply index_NoDup; [by apply sorted_NoDup|done]).
      exists (assigned cfg P m). split.
      * apply list_elem_of_fmap. exists m. split; [done|].
        eapply (elem_of_sorted id), list_elem_of_lookup_2, Hm.
      * apply (elem_of_assigned _ _ _ _ _ Hi). by exists j.
Qed.

Lemma decide_partitions_disjoint_cover_witness :
  (∀ m, m ∈ Scenario.P →
        ∃ A, _decide_partitions (member (Scenario.cfg "a") m) Scenario.P = Return A) ∧
  (∀ m m', m ∈ Scenario.P → m' ∈ Scenario.P → m ≠ m' →
           assigned (Scenario.cfg "a") Scenario.P m ## assigned (Scenario.cfg "a") Scenario.P m') ∧
  ⋃ (assigned (Scenario.cfg "a") Scenario.P <$> Scenario.P)
    = list_to_set (values (Topic.partitions Scenario.topic)).
Proof.
  apply (decide_partitions_disjoint_cover (Scenario.cfg "a") Scenario.P).
  - unfold Topic.wf, Scenario.P. apply (bool_decide_unpack _). vm_compute. exact I.
  - unfold Topic.wf, Scenario.P. apply (bool_decide_unpack _). vm_compute. exact I.
  - discriminate.
Defined.

(** C2. For a non-empty participant list [P] containing the member, with
    the partitions sorted by their key and [P] sorted, [idx] the position
    of the member in sorted [P], [_decide_partitions] returns exactly the
    slice [T[start : start+count]] with [start = base*idx + min(idx, rem)]
    and [count = base + (1 if idx < rem else 0)]; for [P = ["a";"b";"c"]]
    and [T = [p0..p4]], [a] gets [{p0,p1}], [b] gets [{p2,p3}] and [c]
    gets [{p4}]. *)
Theorem decide_partitions_contiguous_slice (cfg : Config) (P : list string) :
  P ≠ [] → _consumer_id cfg ∈ P →
  (∃ idx : nat,
     Py.index (_consumer_id cfg) (Py.sorted id P) = Some idx ∧
     Py.sorted id P !! idx = Some (_consumer_id cfg) ∧
     _decide_partitions cfg P =
       Return (list_to_set
                 (slice (sorted_partitions cfg)
                    (slice_start (Py.len (sorted_partitions cfg)) (Py.len P) (Z.of_nat idx))
                    (slice_count (Py.len (sorted_partitions cfg)) (Py.len P) (Z.of_nat idx)))))
  ∧ sorted_partitions (Scenario.cfg "a")
      = [Scenario.p 0; Scenario.p 1; Scenario.p 2; Scenario.p 3; Scenario.p 4]
  ∧ _decide_partitions (Scenario.cfg "a") Scenario.P = Return {[Scenario.p 0; Scenario.p 1]}
  ∧ _decide_partitions (Scenario.cfg "b") Scenario.P = Return {[Scenario.p 2; Scenario.p 3]}
  ∧ _decide_partitions (Scenario.cfg "c") Scenario.P = Return {[Scenario.p 4]}.
Proof.
  intros _ Hself. split.
  - destruct (member_index P _ Hself) as (idx & Hidx & Hl & _).
    exists idx. split; [done|]. split; [done|].
    by apply decide_partitions_index.
  - repeat split; vm_compute; reflexivity.
Qed.

Lemma decide_partitions_contiguous_slice_witness :
  ∃ idx : nat,
    Py.index "b" (Py.sorted id Scenario.P) = Some idx ∧
    _decide_partitions (Scenario.cfg "b") Scenario.P =
      Return (list_to_set
                (slice (sorted_partitions (Scenario.cfg "b"))
                   (slice_start 5 3 (Z.of_nat idx)) (slice_count 5 3 (Z.of_nat idx)))).
Proof.
  destruct (decide_partitions_contiguous_slice (Scenario.cfg "b") Scenario.P)
    as [(idx & Hidx & _ & Hd) _].
  - discriminate.
  - unfold Topic.wf, Scenario.P. apply (bool_decide_unpack _). vm_compute. exact I.
  - exists idx. split; [exact Hidx|exact Hd].
Defined.

(** C9. The result of [_decide_partitions] does not depend on the order
    of the participant list: on any reordering of [P] it returns the same
    partition set, the list being sorted before it is indexed. *)
Theorem decide_partitions_permutation_invariant (cfg : Config) (P P' : list string) :
  P ≡ₚ P' → _decide_partitions cfg P = _decide_partitions cfg P'.
Proof.
  intros HP. unfold _decide_partitions.
  by rewrite (sorted_id_perm P P' HP).
Qed.

Lemma decide_partitions_permutation_invariant_witness :
  _decide_partitions (Scenario.cfg "b") ["c"; "a"; "b"]%string
  = _decide_partitions (Scenario.cfg "b") ["a"; "b"; "c"]%string.
Proof.
  apply decide_partitions_permutation_invariant.
  apply (Permutation_cons_append ["a"; "b"]%string "c"%string).
Defined.

(** With fewer partitions than participants, the members left without
    partitions are those at the positions from [|T|] on. *)
Lemma decide_partitions_empty_iff (cfg : Config) (P : list string) (idx : nat) :
  Py.index (_consumer_id cfg) (Py.sorted id P) = Some idx →
  Py.len (sorted_partitions cfg) < Py.len P →
  _decide_partitions cfg P = Return ∅ ↔ Py.len (sorted_partitions cfg) ≤ Z.of_nat idx.
Proof.
  intros Hidx Hlt. rewrite (decide_partitions_index _ _ _ Hidx).
  assert (0 ≤ Py.len (sorted_partitions cfg)) as Hn by (unfold Py.len; lia).
  unfold slice_start, slice_count.
  rewrite Z.div_small, Z.mod_small by lia.
  destruct (Z.ltb_spec (Z.of_nat idx) (Py.len (sorted_partitions cfg))) as [Hi|Hi].
  - split; [|lia]. intros [= Hempty]. exfalso.
    destruct (lookup_lt_is_Some_2 (sorted_partitions cfg) idx) as [q Hq];
      [unfold Py.len in Hi; lia|].
    assert (q ∈ (∅ : gset Partition.t)) as Hin; [|set_solver].
    rewrite <- Hempty. apply elem_of_list_to_set, elem_of_slice; [lia|lia|].
    exists idx. split; [lia|done].
  - split; [done|]. intros _. f_equal.
Qed.

(** ** What a method leaves unchanged

    [preserves R m]: every run of [m] relates the state before to the
    state after by [R], whatever the outcome. *)

Definition preserves (R : relation State) {A} (m : M A) : Prop :=
  ∀ s r s', m s = (r, s') → R s s'.

(** [same f]: the observation [f] of the state is unchanged. *)
Definition same {B} (f : State → B) : relation State := λ s s', f s' = f s.

(** [extends P]: the trace grew by events that satisfy [P]. *)
Definition extends (P : Event → Prop) : relation State :=
  λ s s', ∃ t, trace s' = trace s ++ t ∧ Forall P t.

(** The events a run added to the trace. *)
Definition events_since (s s' : State) : list Event :=
  drop (length (trace s)) (trace s').

Global Instance same_preorder {B} (f : State → B) : PreOrder (same f).
Proof.
  split; [by intros s|]. intros s1 s2 s3 H1 H2. unfold same in *. congruence.
Qed.

Global Instance extends_preorder (P : Event → Prop) : PreOrder (extends P).
Proof.
  split.
  - intros s. exists []. by rewrite app_nil_r.
  - intros s1 s2 s3 (t1 & H1 & F1) (t2 & H2 & F2). exists (t1 ++ t2).
    rewrite H2, H1, app_assoc. split; [done|]. by apply Forall_app.
Qed.

Lemma extends_events_since P s s' :
  extends P s s' → trace s' = trace s ++ events_since s s' ∧ Forall P (events_since s s').
Proof.
  intros (t & Ht & HP). unfold events_since. rewrite Ht, drop_app_length. done.
Qed.

Lemma events_since_app s s' t : trace s' = trace s ++ t → events_since s s' = t.
Proof. intros Ht. unfold events_since. by rewrite Ht, drop_app_length. Qed.

Section preserves.
Context (R : relation State) `{!PreOrder R}.

Lemma preserves_ret {A} (a : A) : preserves R (ret a).
Proof. by intros s r s' [= <- <-]. Qed.

Lemma preserves_raise {A} e : preserves R (@raise A e).
Proof. by intros s r s' [= <- <-]. Qed.

Lemma preserves_lift {A} (o : Outcome A) : preserves R (lift o).
Proof. by intros s r s' [= <- <-]. Qed.

Lemma preserves_gets {A} (f : State → A) : preserves R (gets f).
Proof. by intros s r s' [= <- <-]. Qed.

Lemma preserves_modify (f : State → State) :
  (∀ s, R s (f s)) → preserves R (modify f).
Proof. intros Hf s r s' [= <- <-]. apply Hf. Qed.

Lemma preserves_bind {A B} (m : M A) (f : A → M B) :
  preserves R m → (∀ a, preserves R (f a)) → preserves R (bind m f).
Proof.
  intros Hm Hf s r s'. unfold bind.
  destruct (m s) as [[a| | |] s1] eqn:Hms; intros Hr;
    pose proof (Hm _ _ _ Hms) as H1.
  - etrans; [exact H1|]. by eapply Hf.
  - by injection Hr as <- <-.
  - by injection Hr as <- <-.
  - by injection Hr as <- <-.
Qed.

Lemma preserves_try_except {A} (body : M A) (handler : Exn → option (M A)) :
  preserves R body →
  (∀ e h, handler e = Some h → preserves R h) →
  preserves R (try_except body handler).
Proof.
  intros Hb Hh s r s'. unfold try_except.
  destruct (body s) as [[a|e| |] s1] eqn:Hbs; intros Hr;
    pose proof (Hb _ _ _ Hbs) as H1; try (by injection Hr as <- <-).
  destruct (handler e) as [h|] eqn:He; [|by injection Hr as <- <-].
  etrans; [exact H1|]. by eapply Hh.
Qed.

Lemma preserves_for {A B} (l : list A) (acc : B) (body : A → B → M B) :
  (∀ x acc, preserves R (body x acc)) → preserves R (for_ l acc body).
Proof.
  intros Hb. revert acc. induction l as [|x l IH]; intros acc; simpl.
  - apply preserves_ret.
  - apply preserves_bind; [apply Hb|]. intros acc'. apply IH.
Qed.

Lemma preserves_with_lock {A} (body : M A) :
  (∀ b s, R s (set_rebalancing_lock b s)) →
  preserves R (emit LockAcquired) →
  preserves R (emit LockReleased) →
  preserves R body →
  preserves R (with_lock body).
Proof.
  intros Hset Hacq Hrel Hb s r s'. unfold with_lock.
  destruct (_rebalancing_lock s); [by intros [= <- <-]|].
  destruct ((emit LockAcquired;;; body) (set_rebalancing_lock true s))
    as [[a|e| |] s1] eqn:Hrun; intros Hr.
  - etrans; [apply (Hset true)|].
    etrans; [eapply (preserves_bind _ _ Hacq (λ _, Hb)), Hrun|].
    etrans; [apply (Hset false)|].
    eapply (preserves_bind _ _ Hrel (λ _, preserves_ret a)), Hr.
  - etrans; [apply (Hset true)|].
    etrans; [eapply (preserves_bind _ _ Hacq (λ _, Hb)), Hrun|].
    etrans; [apply (Hset false)|].
    eapply (preserves_bind _ _ Hrel (λ _, preserves_raise e)), Hr.
  - injection Hr as <- <-. etrans; [apply (Hset true)|].
    eapply (preserves_bind _ _ Hacq (λ _, Hb)), Hrun.
  - injection Hr as <- <-. etrans; [apply (Hset true)|].
    eapply (preserves_bind _ _ Hacq (λ _, Hb)), Hrun.
Qed.

End preserves.

Lemma preserves_emit_same {B} (f : State → B) (e : Event) :
  (∀ s t, f (set_trace t s) = f s) → preserves (same f) (emit e).
Proof. intros Hf. apply preserves_modify. intros s. apply Hf. Qed.

Lemma preserves_emit_extends (P : Event → Prop) (e : Event) :
  P e → preserves (extends P) (emit e).
Proof.
  intros He. apply preserves_modify. intros s. exists [e].
  split; [done|]. by constructor.
Qed.

Lemma preserves_modify_extends (P : Event → Prop) (f : State → State) :
  (∀ s, trace (f s) = trace s) → preserves (extends P) (modify f).
Proof.
  intros Hf. apply preserves_modify. intros s. exists [].
  by rewrite Hf, app_nil_r.
Qed.

Lemma extends_same_trace (P : Event → Prop) (s s' : State) :
  trace s' = trace s → extends P s s'.
Proof. intros H. exists []. by rewrite H, app_nil_r. Qed.

Lemma extends_impl (P Q : Event → Prop) (s s' : State) :
  (∀ e, P e → Q e) → extends P s s' → extends Q s s'.
Proof.
  intros HPQ (t & Ht & HP). exists t. split; [done|]. by eapply Forall_impl.
Qed.

(** ** Frames of the coordinator operations *)

Section frames.
Context (env : Env) (R : relation State) `{!PreOrder R}.

Lemma preserves_zookeeper : preserves R zookeeper.
Proof.
  intros s r s'. unfold zookeeper. destruct (_zookeeper s); by intros [= <- <-].
Qed.

Lemma preserves_zk_get_children p : preserves R (zk_get_children p).
Proof.
  apply (preserves_bind R); [apply preserves_zookeeper|].
  intros _ s r s' [= <- <-]. done.
Qed.

Lemma preserves_zk_get p : preserves R (zk_get p).
Proof.
  apply (preserves_bind R); [apply preserves_zookeeper|].
  intros _ s r s' [= <- <-]. done.
Qed.

Hypothesis R_set_zk : ∀ s st, R s (set_zk st s).

Lemma preserves_zk_ensure_path p : preserves R (zk_ensure_path p).
Proof.
  apply (preserves_bind R); [apply preserves_zookeeper|].
  intros _. by apply (preserves_modify R).
Qed.

Lemma preserves_zk_create p v eph mk : preserves R (zk_create p v eph mk).
Proof.
  apply (preserves_bind R); [apply preserves_zookeeper|].
  intros c s r s'. destruct (ZooKeeper.create _ _ _ _ _ _). intros [= <- <-]. done.
Qed.

Lemma preserves_zk_delete p : preserves R (zk_delete p).
Proof.
  apply (preserves_bind R); [apply preserves_zookeeper|].
  intros c s r s'. destruct (ZooKeeper.delete _ _). intros [= <- <-]. done.
Qed.

Lemma preserves_zk_stop : preserves R zk_stop.
Proof.
  apply (preserves_bind R); [apply preserves_zookeeper|].
  intros c. by apply (preserves_modify R).
Qed.

Lemma preserves_time : (∀ s n, R s (set_ticks n s)) → preserves R (time env).
Proof. intros Ht s r s' [= <- <-]. apply Ht. Qed.

End frames.

Lemma preserves_eq_any (R : relation State) `{!Reflexive R} {A} (m : M A) :
  preserves eq m → preserves R m.
Proof. intros Hm s r s' Hr. by rewrite <- (Hm _ _ _ Hr). Qed.

Create HintDb frames.

(** Steps of a proof that a method built from the combinators preserves a
    relation; [leaf] closes the goals about single assignments. *)
Ltac frame_step leaf :=
  lazymatch goal with
  | |- PreOrder _ => apply _
  | |- preserves _ (bind _ _) => apply preserves_bind
  | |- preserves _ (ret _) => apply preserves_ret
  | |- preserves _ (raise _) => apply preserves_raise
  | |- preserves _ (lift _) => apply preserves_lift
  | |- preserves _ (gets _) => apply preserves_gets
  | |- preserves _ (try_except _ _) => apply preserves_try_except
  | |- preserves _ (for_ _ _ _) => apply preserves_for
  | |- preserves _ (with_lock _) => apply preserves_with_lock
  | |- preserves (same _) (emit _) => apply preserves_emit_same; intros; reflexivity
  | |- preserves (extends _) (emit _) => apply preserves_emit_extends; leaf
  | |- preserves (extends _) (modify _) =>
      apply preserves_modify_extends; intros; reflexivity
  | |- preserves _ (modify _) => apply preserves_modify
  | |- preserves _ (emit _) => unfold emit
  | |- preserves _ zookeeper => apply preserves_zookeeper
  | |- preserves _ (zk_get_children _) => apply preserves_zk_get_children
  | |- preserves _ (zk_get _) => apply preserves_zk_get
  | |- preserves _ (zk_ensure_path _) => apply preserves_zk_ensure_path
  | |- preserves _ (zk_create _ _ _ _) => apply preserves_zk_create
  | |- preserves _ (zk_delete _) => apply preserves_zk_delete
  | |- preserves _ zk_stop => apply preserves_zk_stop
  | |- preserves _ (time _) => apply preserves_time
  | |- preserves _ (match ?x with _ => _ end) => destruct x
  | |- (match ?e with _ => _ end) = Some _ → _ => destruct e; simpl
  | |- Some _ = Some _ → _ => intros [= <-]
  | |- None = Some _ → _ => intros [=]
  | |- ∀ _, _ => intro
  | |- same _ _ _ => leaf
  | |- extends _ _ _ => leaf
  | |- preserves _ _ =>
      first [ solve [eauto with frames]
            | apply preserves_eq_any; first [apply _ | solve [eauto with frames]] ]
  | |- _ => leaf
  end.

Ltac same_leaf := first [reflexivity | by apply extends_same_trace | done].

Ltac frame leaf := repeat (frame_step leaf).

(** ** Classes of events *)

Definition is_lock_or_stop (e : Event) : bool :=
  match e with
  | LockAcquired | LockReleased | StopCalled => true
  | _ => false
  end.

Definition is_sleep (e : Event) : bool :=
  match e with Sleep _ => true | _ => false end.

Definition is_registry (e : Event) : bool :=
  match e with RemovePartition _ | AddPartition _ => true | _ => false end.

Definition is_inner_lifecycle (e : Event) : bool :=
  match e with InnerStopped | InnerCreated _ _ => true | _ => false end.

(** The events of one pass of the retry loop, and of the whole loop. *)
Definition attempt_event (e : Event) : bool :=
  match e with
  | Log _ _ | RemovePartition _ | AddPartition _ | InnerStopped | InnerCreated _ _ => true
  | _ => false
  end.

Definition loop_event (e : Event) : bool := attempt_event e || is_sleep e.

(** The sleeps of a trace, in order. *)
Definition sleeps (t : list Event) : list Z :=
  omap (λ e, match e with Sleep ms => Some ms | _ => None end) t.

(** [lock_free_at_stop held t]: along [t], started with the lock held or
    not, every entry to [stop] happens while the lock is free. *)
Fixpoint lock_free_at_stop (held : bool) (t : list Event) : bool :=
  match t with
  | [] => true
  | LockAcquired :: t' => lock_free_at_stop true t'
  | LockReleased :: t' => lock_free_at_stop false t'
  | StopCalled :: t' => negb held && lock_free_at_stop held t'
  | _ :: t' => lock_free_at_stop held t'
  end.

(** Whether the lock is held after the events [t]. *)
Fixpoint lock_after (held : bool) (t : list Event) : bool :=
  match t with
  | [] => held
  | LockAcquired :: t' => lock_after true t'
  | LockReleased :: t' => lock_after false t'
  | _ :: t' => lock_after held t'
  end.

(** [sync]: the trace grew in step with the lock, and along the new events
    [stop] was entered only while the lock was free. *)
Definition sync : relation State := λ s s',
  ∃ t, trace s' = trace s ++ t ∧
       lock_free_at_stop (_rebalancing_lock s) t = true ∧
       _rebalancing_lock s' = lock_after (_rebalancing_lock s) t.

(** A call that came back: it returned or raised. *)
Definition finished {A} (r : Outcome A) : Prop :=
  match r with
  | Return _ | Raise _ => True
  | Blocked | OutOfFuel => False
  end.

(** [total m]: [m] comes back from every state. *)
Definition total {A} (m : M A) : Prop := ∀ s, finished (m s).1.

(** [inner_frame]: the state changed at most in the coordinator, the
    inner consumer and the trace. *)
Definition inner_frame : relation State := λ s s',
  s' = set_zk (zk s') (set_trace (trace s') (set_consumer (_consumer s') s)).

Global Instance inner_frame_preorder : PreOrder inner_frame.
Proof.
  split.
  - by intros [].
  - intros s1 s2 s3 H12 H23. unfold inner_frame in *.
    rewrite H23 at 1. rewrite H12 at 1. done.
Qed.

Ltac inner_leaf :=
  first [ reflexivity
        | by apply extends_same_trace
        | match goal with |- inner_frame ?s _ => by destruct s end
        | done ].

(** ** Frames of the methods *)

Section method_frames.
Context (env : Env).

Lemma eq_get_participants : preserves eq _get_participants.
Proof. unfold _get_participants. frame idtac. Qed.

Lemma eq_get_held_partitions : preserves eq _get_held_partitions.
Proof. unfold _get_held_partitions. frame idtac. Qed.

Hint Resolve eq_get_participants eq_get_held_partitions : frames.

Lemma frame_add_self : preserves inner_frame _add_self.
Proof. unfold _add_self. frame inner_leaf. Qed.

Lemma frame_remove_partitions ps : preserves inner_frame (_remove_partitions ps).
Proof. unfold _remove_partitions. frame inner_leaf. Qed.

Lemma frame_add_partitions ps : preserves inner_frame (_add_partitions ps).
Proof. unfold _add_partitions. frame inner_leaf. Qed.

Lemma frame_setup_internal_consumer ps b :
  preserves inner_frame (_setup_internal_consumer env ps b).
Proof. unfold _setup_internal_consumer. frame inner_leaf. Qed.

Lemma frame_sleep ms : preserves inner_frame (sleep env ms).
Proof. unfold sleep. frame inner_leaf. Qed.

Hint Resolve frame_add_self frame_remove_partitions frame_add_partitions
  frame_setup_internal_consumer frame_sleep : frames.

Lemma frame_rebalance_attempt : preserves inner_frame (rebalance_attempt env).
Proof. unfold rebalance_attempt. frame inner_leaf. Qed.

Hint Resolve frame_rebalance_attempt : frames.

Lemma frame_rebalance_loop retries : preserves inner_frame (rebalance_loop env retries).
Proof.
  induction retries as [|i retries IH]; simpl; frame inner_leaf.
Qed.

Lemma events_add_self P : preserves (extends P) _add_self.
Proof. unfold _add_self. frame inner_leaf. Qed.

Lemma events_remove_partitions ps :
  preserves (extends attempt_event) (_remove_partitions ps).
Proof. unfold _remove_partitions. frame inner_leaf. Qed.

Lemma events_add_partitions ps :
  preserves (extends attempt_event) (_add_partitions ps).
Proof. unfold _add_partitions. frame inner_leaf. Qed.

Lemma events_setup_internal_consumer ps b :
  preserves (extends attempt_event) (_setup_internal_consumer env ps b).
Proof. unfold _setup_internal_consumer. frame inner_leaf. Qed.

Hint Resolve events_add_self events_remove_partitions events_add_partitions
  events_setup_internal_consumer : frames.

Lemma events_rebalance_attempt :
  preserves (extends attempt_event) (rebalance_attempt env).
Proof. unfold rebalance_attempt. frame inner_leaf. Qed.

Lemma events_sleep ms : preserves (extends loop_event) (sleep env ms).
Proof. unfold sleep. frame inner_leaf. Qed.

Lemma events_rebalance_attempt_loop :
  preserves (extends loop_event) (rebalance_attempt env).
Proof.
  intros s r s' Hr. eapply extends_impl; [|by eapply events_rebalance_attempt].
  intros e He. unfold loop_event. by rewrite (Is_true_true_1 _ He).
Qed.

Hint Resolve events_sleep events_rebalance_attempt_loop : frames.

Lemma events_rebalance_loop retries :
  preserves (extends loop_event) (rebalance_loop env retries).
Proof.
  induction retries as [|i retries IH]; simpl; frame inner_leaf.
Qed.

End method_frames.

(** ** Running a method step by step *)

Lemma bind_Return_eq {A B} (m : M A) (f : A → M B) s a s1 :
  m s = (Return a, s1) → bind m f s = f a s1.
Proof. intros H. unfold bind. by rewrite H. Qed.

Lemma bind_Raise_eq {A B} (m : M A) (f : A → M B) s e s1 :
  m s = (Raise e, s1) → bind m f s = (Raise e, s1).
Proof. intros H. unfold bind. by rewrite H. Qed.

Lemma bind_inv_Return {A B} (m : M A) (f : A → M B) s b s' :
  bind m f s = (Return b, s') →
  ∃ a s1, m s = (Return a, s1) ∧ f a s1 = (Return b, s').
Proof.
  unfold bind. destruct (m s) as [[a| | |] s1]; intros H; try done. by exists a, s1.
Qed.

Lemma bind_inv_Raise {A B} (m : M A) (f : A → M B) s e s' :
  bind m f s = (Raise e, s') →
  m s = (Raise e, s') ∨ ∃ a s1, m s = (Return a, s1) ∧ f a s1 = (Raise e, s').
Proof.
  unfold bind. destruct (m s) as [[a| | |] s1]; intros H; try done.
  - right. by exists a, s1.
  - left. injection H as <- <-. done.
Qed.

Lemma events_since_trans P Q s s' s'' :
  extends P s s' → extends Q s' s'' →
  events_since s s'' = events_since s s' ++ events_since s' s''.
Proof.
  intros (t1 & H1 & _) (t2 & H2 & _).
  rewrite (events_since_app s s' t1 H1), (events_since_app s' s'' t2 H2).
  apply events_since_app. by rewrite H2, H1, app_assoc.
Qed.

Lemma events_since_refl s : events_since s s = [].
Proof. unfold events_since. by rewrite drop_all. Qed.

Lemma sleeps_app t1 t2 : sleeps (t1 ++ t2) = sleeps t1 ++ sleeps t2.
Proof. apply omap_app. Qed.

Lemma sleeps_attempt_events t : Forall attempt_event t → sleeps t = [].
Proof.
  induction 1 as [|e t He _ IH]; [done|].
  destruct e; try done; exact IH.
Qed.

(** ** The retry loop *)

Section retry_loop.
Context (env : Env).

(** The log line and the sleep between two turns: a duration that is not
    negative is slept, and the loop goes on from the state the peers
    left. *)
Lemma retry_sleep_nonneg (ms : Z) (s : State) :
  0 ≤ ms →
  ∃ s2, (∀ A (k : M A),
           (emit (Log INFO "Unable to acquire partition. Retrying") ;;;
            sleep env ms ;;; k) s = k s2) ∧
        (emit (Log INFO "Unable to acquire partition. Retrying") ;;; sleep env ms) s
        = (Return tt, s2) ∧
        trace s2 = trace s ++ [Log INFO "Unable to acquire partition. Retrying"; Sleep ms] ∧
        zk s2 = peers env ms (zk s) ∧
        config s2 = config s ∧
        inner_frame s s2.
Proof.
  intros Hms. unfold sleep. destruct (Z.ltb_spec ms 0) as [?|_]; [lia|].
  eexists. split; [intros A k; reflexivity|]. split; [reflexivity|].
  simpl. rewrite <- app_assoc. repeat split.
Qed.

(** A negative duration is refused: the exception of [time.sleep] leaves
    the handler, and with it the loop. *)
Lemma retry_sleep_neg {A} (ms : Z) (k : M A) (s : State) :
  ms < 0 →
  (emit (Log INFO "Unable to acquire partition. Retrying") ;;; sleep env ms ;;; k) s
  = (Raise ValueError,
     set_trace (trace s ++ [Log INFO "Unable to acquire partition. Retrying"]) s).
Proof.
  intros Hms. unfold sleep. destruct (Z.ltb_spec ms 0) as [_|?]; [|lia]. done.
Qed.

(** An attempt that fails with [PartitionOwnedError] on a turn that is not
    the last is followed by the sleep and the rest of the loop; on the last
    turn the error leaves the loop. *)
Lemma rebalance_loop_partition_owned (s s' : State) (i : Z) (retries : list Z)
    (p : Partition.t) :
  rebalance_attempt env s = (Raise (PartitionOwnedError p), s') →
  rebalance_loop env (i :: retries) s =
    if i =? _rebalance_max_retries (config s) - 1
    then (emit (Log WARNING "Failed to acquire partition after retries.") ;;;
          raise (PartitionOwnedError p)) s'
    else (emit (Log INFO "Unable to acquire partition. Retrying") ;;;
          sleep env (i * _rebalance_backoff_ms (config s)) ;;;
          rebalance_loop env retries) s'.
Proof.
  intros Ha. simpl. unfold bind at 1, gets at 1, try_except. rewrite Ha.
  by destruct (i =? _).
Qed.

(** Any other way out of an attempt is the way out of the loop. *)
Lemma rebalance_loop_attempt_done (s s' : State) (i : Z) (retries : list Z)
    (r : Outcome bool) :
  rebalance_attempt env s = (r, s') →
  (∀ p, r ≠ Raise (PartitionOwnedError p)) →
  rebalance_loop env (i :: retries) s = (r, s').
Proof.
  intros Ha Hr. simpl. unfold bind at 1, gets at 1, try_except. rewrite Ha.
  destruct r as [b|e| |]; try done. destruct e; try done. by destruct (Hr partition).
Qed.

Lemma rebalance_loop_sleeps (a n : nat) (s0 s1 : State) (q : Partition.t) :
  Z.of_nat (a + n) = _rebalance_max_retries (config s0) →
  rebalance_loop env (Z.of_nat <$> seq a n) s0 = (Raise (PartitionOwnedError q), s1) →
  sleeps (events_since s0 s1)
  = (λ j, j * _rebalance_backoff_ms (config s0)) <$> (Z.of_nat <$> seq a (n - 1)).
Proof.
  revert a s0. induction n as [|n IH]; intros a s0 Hmax Hloop; [done|].
  change (seq a (S n)) with (a :: seq (S a) n) in Hloop. rewrite fmap_cons in Hloop.
  destruct (rebalance_attempt env s0) as [r s'] eqn:Ha.
  pose proof (frame_rebalance_attempt env _ _ _ Ha) as Hframe.
  pose proof (events_rebalance_attempt env _ _ _ Ha) as Hev.
  assert (config s' = config s0) as Hcfg by (rewrite Hframe; done).
  destruct r as [b|e| |];
    try (rewrite (rebalance_loop_attempt_done _ _ _ _ _ Ha) in Hloop by done; done).
  destruct e;
    try (rewrite (rebalance_loop_attempt_done _ _ _ _ _ Ha) in Hloop by done; done).
  rewrite (rebalance_loop_partition_owned _ _ _ _ _ Ha) in Hloop.
  destruct (Z.eqb_spec (Z.of_nat a) (_rebalance_max_retries (config s0) - 1)) as [Hlast|Hmore].
  - assert (n = 0%nat) as -> by lia. simpl.
    injection Hloop as _ <-.
    destruct Hev as (t & Ht & HPt).
    erewrite events_since_app; [|simpl; rewrite Ht, <- app_assoc; done].
    rewrite sleeps_app, (sleeps_attempt_events _ HPt). done.
  - destruct n as [|n]; [lia|].
    destruct (Z.lt_ge_cases (Z.of_nat a * _rebalance_backoff_ms (config s0)) 0)
      as [Hneg|Hms]; [by rewrite (retry_sleep_neg _ _ _ Hneg) in Hloop|].
    destruct (retry_sleep_nonneg _ s' Hms) as (s2 & Hk & _ & Htr2 & _ & Hcfg2 & _).
    rewrite Hk in Hloop. rename Hloop into Hrest.
    pose proof (IH (S a) s2) as IH'.
    rewrite Hcfg2, Hcfg in IH'. specialize (IH' ltac:(lia) Hrest).
    pose proof (events_rebalance_loop env _ _ _ _ Hrest) as Hev2.
    destruct Hev as (t & Ht & HPt).
    assert (extends (λ _, True) s0 s2) as H02.
    { exists (t ++ [Log INFO "Unable to acquire partition. Retrying";
                    Sleep (Z.of_nat a * _rebalance_backoff_ms (config s0))]).
      split; [by rewrite Htr2, Ht, app_assoc|]. by apply Forall_true. }
    rewrite (events_since_trans _ _ _ _ _ H02 Hev2), sleeps_app, IH'.
    erewrite (events_since_app s0 s2); [|by rewrite Htr2, Ht, <- app_assoc].
    rewrite sleeps_app, (sleeps_attempt_events _ HPt). simpl.
    replace (n - 0)%nat with n by lia. done.
Qed.

End retry_loop.

(** ** The lock and the calls to [stop] *)

Lemma lock_free_at_stop_app h t1 t2 :
  lock_free_at_stop h (t1 ++ t2)
  = lock_free_at_stop h t1 && lock_free_at_stop (lock_after h t1) t2.
Proof.
  revert h. induction t1 as [|e t1 IH]; intros h; [done|].
  destruct e; simpl; rewrite ?IH; try done. by rewrite andb_assoc.
Qed.

Lemma lock_after_app h t1 t2 : lock_after h (t1 ++ t2) = lock_after (lock_after h t1) t2.
Proof.
  revert h. induction t1 as [|e t1 IH]; intros h; [done|]. by destruct e; simpl.
Qed.

Global Instance sync_preorder : PreOrder sync.
Proof.
  split.
  - intros s. exists []. by rewrite app_nil_r.
  - intros s1 s2 s3 (t1 & H1 & F1 & L1) (t2 & H2 & F2 & L2). exists (t1 ++ t2).
    rewrite H2, H1, app_assoc, lock_free_at_stop_app, lock_after_app, F1, <- L1, F2, L2.
    done.
Qed.

Lemma sync_silent s s' :
  trace s' = trace s → _rebalancing_lock s' = _rebalancing_lock s → sync s s'.
Proof. intros Ht Hl. exists []. by rewrite Ht, Hl, app_nil_r. Qed.

Lemma sync_emit s e :
  is_lock_or_stop e = false → sync s (set_trace (trace s ++ [e]) s).
Proof. intros He. exists [e]. by destruct e. Qed.

Lemma sync_events s s' :
  sync s s' → lock_free_at_stop (_rebalancing_lock s) (events_since s s') = true.
Proof. intros (t & Ht & Hf & _). by rewrite (events_since_app _ _ _ Ht). Qed.

Ltac sync_leaf := first [ by apply sync_silent | by apply sync_emit | done ].

Section totality.

Lemma total_ret {A} (a : A) : total (ret a).
Proof. by intros s. Qed.

Lemma total_raise {A} e : total (@raise A e).
Proof. by intros s. Qed.

Lemma total_gets {A} (f : State → A) : total (gets f).
Proof. by intros s. Qed.

Lemma total_modify f : total (modify f).
Proof. by intros s. Qed.

Lemma total_lift {A} (o : Outcome A) : finished o → total (lift o).
Proof. by intros Ho s. Qed.

Lemma total_bind {A B} (m : M A) (f : A → M B) :
  total m → (∀ a, total (f a)) → total (bind m f).
Proof.
  intros Hm Hf s. unfold bind. specialize (Hm s).
  destruct (m s) as [[a| | |] s1]; try done. apply Hf.
Qed.

Lemma total_try_except {A} (body : M A) (handler : Exn → option (M A)) :
  total body → (∀ e h, handler e = Some h → total h) → total (try_except body handler).
Proof.
  intros Hb Hh s. unfold try_except. specialize (Hb s).
  destruct (body s) as [[a|e| |] s1]; try done.
  destruct (handler e) as [h|] eqn:He; [|done]. by apply (Hh e).
Qed.

Lemma total_for {A B} (l : list A) (acc : B) (body : A → B → M B) :
  (∀ x acc, total (body x acc)) → total (for_ l acc body).
Proof.
  intros Hb. revert acc. induction l as [|x l IH]; intros acc; simpl.
  - apply total_ret.
  - apply total_bind; [apply Hb|]. intros acc'. apply IH.
Qed.

Lemma total_zookeeper : total zookeeper.
Proof. intros s. unfold zookeeper. by destruct (_zookeeper s). Qed.

Lemma total_zk_get_children p : total (zk_get_children p).
Proof.
  apply total_bind; [apply total_zookeeper|]. intros _ s. simpl.
  unfold ZooKeeper.get_children. by destruct (zk s !! p).
Qed.

Lemma total_zk_get p : total (zk_get p).
Proof.
  apply total_bind; [apply total_zookeeper|]. intros _ s. simpl.
  unfold ZooKeeper.get. by destruct (zk s !! p).
Qed.

Lemma total_zk_create p v eph mk : total (zk_create p v eph mk).
Proof.
  apply total_bind; [apply total_zookeeper|]. intros c s.
  unfold ZooKeeper.create. by destruct (zk s !! p).
Qed.

Lemma total_zk_delete p : total (zk_delete p).
Proof.
  apply total_bind; [apply total_zookeeper|]. intros c s.
  unfold ZooKeeper.delete. by destruct (zk s !! p).
Qed.

Lemma total_zk_stop : total zk_stop.
Proof. apply total_bind; [apply total_zookeeper|]. intros c. apply total_modify. Qed.

Lemma finished_decide_partitions cfg P : finished (_decide_partitions cfg P).
Proof.
  unfold _decide_partitions. destruct (Py.index _ _); [|done].
  by destruct (_ =? _).
Qed.

Lemma finished_slug_partition_id slug : finished (slug_partition_id slug).
Proof.
  unfold slug_partition_id. destruct (_ !! _); [|done]. by destruct (Py.int _).
Qed.

End totality.

Create HintDb totals.

Ltac total_step :=
  lazymatch goal with
  | |- total (bind _ _) => apply total_bind
  | |- total (ret _) => apply total_ret
  | |- total (raise _) => apply total_raise
  | |- total (gets _) => apply total_gets
  | |- total (modify _) => apply total_modify
  | |- total (emit _) => apply total_modify
  | |- total (lift _) => apply total_lift
  | |- total (try_except _ _) => apply total_try_except
  | |- total (for_ _ _ _) => apply total_for
  | |- total zookeeper => apply total_zookeeper
  | |- total (zk_get_children _) => apply total_zk_get_children
  | |- total (zk_get _) => apply total_zk_get
  | |- total (zk_create _ _ _ _) => apply total_zk_create
  | |- total (zk_delete _) => apply total_zk_delete
  | |- total zk_stop => apply total_zk_stop
  | |- total (match ?x with _ => _ end) => destruct x
  | |- (match ?e with _ => _ end) = Some _ → _ => destruct e; simpl
  | |- Some _ = Some _ → _ => intros [= <-]
  | |- None = Some _ → _ => intros [=]
  | |- finished (_decide_partitions _ _) => apply finished_decide_partitions
  | |- finished (slug_partition_id _) => apply finished_slug_partition_id
  | |- ∀ _, _ => intro
  | |- total _ => solve [eauto with totals]
  end.

Ltac totality := repeat total_step.

Section stop_and_lock.
Context (env : Env).

Lemma total_get_participants : total _get_participants.
Proof. unfold _get_participants. totality. Qed.

Lemma total_get_held_partitions : total _get_held_partitions.
Proof. unfold _get_held_partitions. totality. Qed.

Hint Resolve total_get_participants total_get_held_partitions : totals.

Lemma total_add_self : total _add_self.
Proof. unfold _add_self. totality. Qed.

Lemma total_remove_partitions ps : total (_remove_partitions ps).
Proof. unfold _remove_partitions. totality. Qed.

Lemma total_add_partitions ps : total (_add_partitions ps).
Proof. unfold _add_partitions. totality. Qed.

Lemma total_setup_internal_consumer ps b : total (_setup_internal_consumer env ps b).
Proof. unfold _setup_internal_consumer. totality. Qed.

Lemma total_raise_worker_exceptions : total _raise_worker_exceptions.
Proof. unfold _raise_worker_exceptions. totality. Qed.

Hint Resolve total_add_self total_remove_partitions total_add_partitions
  total_setup_internal_consumer total_raise_worker_exceptions : totals.

Lemma total_rebalance_attempt : total (rebalance_attempt env).
Proof. unfold rebalance_attempt. totality. Qed.

Lemma total_sleep ms : total (sleep env ms).
Proof. unfold sleep. totality. Qed.

Hint Resolve total_rebalance_attempt total_sleep : totals.

Lemma total_rebalance_loop retries : total (rebalance_loop env retries).
Proof. induction retries as [|i retries IH]; simpl; totality. Qed.

Lemma total_commit_offsets : total (commit_offsets env).
Proof. unfold commit_offsets. totality. Qed.

Lemma sync_get_participants : preserves sync _get_participants.
Proof. apply preserves_eq_any; [apply _|apply eq_get_participants]. Qed.

Lemma sync_get_held_partitions : preserves sync _get_held_partitions.
Proof. apply preserves_eq_any; [apply _|apply eq_get_held_partitions]. Qed.

Hint Resolve sync_get_participants sync_get_held_partitions : frames.

Lemma sync_add_self : preserves sync _add_self.
Proof. unfold _add_self. frame sync_leaf. Qed.

Lemma sync_remove_partitions ps : preserves sync (_remove_partitions ps).
Proof. unfold _remove_partitions. frame sync_leaf. Qed.

Lemma sync_add_partitions ps : preserves sync (_add_partitions ps).
Proof. unfold _add_partitions. frame sync_leaf. Qed.

Lemma sync_setup_internal_consumer ps b :
  preserves sync (_setup_internal_consumer env ps b).
Proof. unfold _setup_internal_consumer. frame sync_leaf. Qed.

Lemma sync_raise_worker_exceptions : preserves sync _raise_worker_exceptions.
Proof. unfold _raise_worker_exceptions. frame sync_leaf. Qed.

Lemma sync_sleep ms : preserves sync (sleep env ms).
Proof. unfold sleep. frame sync_leaf. Qed.

Hint Resolve sync_add_self sync_remove_partitions sync_add_partitions
  sync_setup_internal_consumer sync_raise_worker_exceptions sync_sleep : frames.

Lemma sync_rebalance_attempt : preserves sync (rebalance_attempt env).
Proof. unfold rebalance_attempt. frame sync_leaf. Qed.

Hint Resolve sync_rebalance_attempt : frames.

Lemma sync_rebalance_loop retries : preserves sync (rebalance_loop env retries).
Proof. induction retries as [|i retries IH]; simpl; frame sync_leaf. Qed.

Lemma sync_commit_offsets : preserves sync (commit_offsets env).
Proof. unfold commit_offsets. frame sync_leaf. Qed.

Lemma lock_commit_offsets : preserves (same _rebalancing_lock) (commit_offsets env).
Proof. unfold commit_offsets, _raise_worker_exceptions. frame same_leaf. Qed.

End stop_and_lock.

Section deferred_stop.
Context (env : Env).

(** Leaving the [with] block, by return or by exception, the lock is free
    and the last event is its release. *)
Lemma with_lock_inv {A} (body : M A) s r s' :
  with_lock body s = (r, s') → finished r →
  _rebalancing_lock s = false ∧
  ∃ sb, body (set_trace (trace s ++ [LockAcquired]) (set_rebalancing_lock true s)) = (r, sb) ∧
        s' = set_trace (trace sb ++ [LockReleased]) (set_rebalancing_lock false sb).
Proof.
  unfold with_lock. destruct (_rebalancing_lock s); [by intros [= <- <-]|].
  unfold bind at 1. simpl.
  destruct (body _) as [[a|e| |] sb]; intros [= <- <-] Hf; try done.
  - split; [done|]. by eexists.
  - split; [done|]. by eexists.
Qed.

Lemma with_lock_free {A} (body : M A) s r s' :
  _rebalancing_lock s = false → preserves sync body → total body →
  with_lock body s = (r, s') →
  sync s s' ∧ finished r ∧ _rebalancing_lock s' = false.
Proof.
  intros Hfree Hsync Htotal Hrun.
  assert (finished r) as Hfin.
  { revert Hrun. unfold with_lock. rewrite Hfree. unfold bind at 1. simpl.
    pose proof (Htotal (set_trace (trace s ++ [LockAcquired]) (set_rebalancing_lock true s))) as Ht.
    destruct (body _) as [[a|e| |] sb]; try done; by intros [= <- <-]. }
  destruct (with_lock_inv _ _ _ _ Hrun Hfin) as (_ & sb & Hb & ->).
  split; [|done].
  destruct (Hsync _ _ _ Hb) as (t & Ht & Hf & Hl). simpl in *.
  exists (LockAcquired :: t ++ [LockReleased]). simpl. rewrite Ht.
  split; [by rewrite <- !app_assoc|].
  rewrite lock_free_at_stop_app, lock_after_app, Hf. done.
Qed.

Lemma total_stop_tail :
  total (c <- gets _consumer ;;
         match c with
         | Some c => modify (set_consumer (Some (SimpleConsumer.stop c))) ;;; emit InnerStopped
         | None => ret tt
         end ;;;
         cfg <- gets config ;;
         if _owns_zookeeper cfg then zk_stop
         else
           held <- _get_held_partitions ;;
           _remove_partitions (elements held) ;;;
           try_except (zk_delete (_path_self cfg))
             (λ e, match e with
                   | NoNodeException => Some (ret tt)
                   | _ => None
                   end)).
Proof.
  pose proof total_get_held_partitions. pose proof total_remove_partitions.
  totality; auto.
Qed.

Lemma sync_stop_tail :
  preserves sync
        (c <- gets _consumer ;;
         match c with
         | Some c => modify (set_consumer (Some (SimpleConsumer.stop c))) ;;; emit InnerStopped
         | None => ret tt
         end ;;;
         cfg <- gets config ;;
         if _owns_zookeeper cfg then zk_stop
         else
           held <- _get_held_partitions ;;
           _remove_partitions (elements held) ;;;
           try_except (zk_delete (_path_self cfg))
             (λ e, match e with
                   | NoNodeException => Some (ret tt)
                   | _ => None
                   end)).
Proof.
  pose proof sync_get_held_partitions. pose proof sync_remove_partitions.
  frame sync_leaf; auto.
Qed.

(** The first thing [stop] does is recorded as [StopCalled]. *)
Lemma stop_starts s : ∃ t, trace (stop s).2 = trace s ++ StopCalled :: t.
Proof.
  unfold stop. unfold bind at 1. simpl.
  set (rest := (with_lock _ ;;; _)).
  assert (preserves (extends (λ _, True)) rest) as Hrest.
  { unfold rest. pose proof eq_get_held_partitions.
    pose proof (events_remove_partitions).
    frame inner_leaf.
    intros s0 r0 s0' Hrun. eapply extends_impl; [|by eapply events_remove_partitions].
    done. }
  destruct (rest _) as [r s3] eqn:Hr. apply Hrest in Hr as (t & Ht & _).
  exists t. simpl in *. by rewrite Ht, <- app_assoc.
Qed.

(** [stop], entered with the lock free, comes back and keeps the
    discipline. *)
Lemma stop_sync s r s' :
  _rebalancing_lock s = false → stop s = (r, s') → sync s s' ∧ finished r.
Proof.
  intros Hfree. unfold stop.
  set (tail := (c <- gets _consumer ;; _)).
  assert (∃ s3, (emit StopCalled ;;; with_lock (modify (set_running false)) ;;; tail) s
                = tail s3 ∧
                trace s3 = trace s ++ [StopCalled; LockAcquired; LockReleased] ∧
                _rebalancing_lock s3 = false) as (s3 & -> & Htr & Hl).
  { eexists. split.
    - unfold bind at 1. simpl. unfold bind at 1, with_lock. simpl. rewrite Hfree.
      simpl. reflexivity.
    - simpl. by rewrite <- !app_assoc. }
  intros Htail. split.
  - etrans; [|eapply sync_stop_tail, Htail].
    exists [StopCalled; LockAcquired; LockReleased]. by rewrite Hfree, Htr, Hl.
  - pose proof (total_stop_tail s3) as Hfin. fold tail in Hfin. by rewrite Htail in Hfin.
Qed.

Lemma rebalance_locked_free s r s' :
  _rebalancing_lock s = false → rebalance_locked env s = (r, s') →
  sync s s' ∧ finished r ∧ _rebalancing_lock s' = false.
Proof.
  intros Hfree. unfold rebalance_locked. unfold bind at 1, gets at 1.
  apply with_lock_free; [done| |].
  - pose proof sync_rebalance_loop. frame sync_leaf; auto.
  - pose proof total_rebalance_loop. totality; auto.
Qed.

(** [_rebalance], entered with the lock free, comes back, and along its
    trace [stop] is entered only while the lock is free. *)
Lemma rebalance_sync s r s' :
  _rebalancing_lock s = false → _rebalance env s = (r, s') → sync s s' ∧ finished r.
Proof.
  intros Hfree. unfold _rebalance. unfold bind at 1, gets at 1.
  set (commit := if _consumer s is Some _ then commit_offsets env else ret tt).
  assert (preserves sync commit ∧ preserves (same _rebalancing_lock) commit ∧ total commit)
    as (Hcs & Hcl & Hct).
  { unfold commit. destruct (_consumer s).
    - split; [apply sync_commit_offsets|]. split; [apply lock_commit_offsets|].
      apply total_commit_offsets.
    - split; [apply preserves_ret; apply _|]. split; [apply preserves_ret; apply _|].
      apply total_ret. }
  unfold bind at 1. destruct (commit s) as [r1 s1] eqn:Hc.
  pose proof (Hcs _ _ _ Hc) as Hs1. pose proof (Hcl _ _ _ Hc) as Hl1.
  pose proof (Hct s) as Hf1. rewrite Hc in Hf1. unfold same in Hl1. rewrite Hfree in Hl1.
  destruct r1 as [[]|e1| |]; try done; [|by intros [= <- <-]].
  unfold bind at 1. destruct (rebalance_locked env s1) as [r2 s2] eqn:Hlk.
  destruct (rebalance_locked_free _ _ _ Hl1 Hlk) as (Hs2 & Hf2 & Hl2).
  destruct r2 as [[|]|e2| |]; try done.
  - intros Hstop. destruct (stop_sync _ _ _ Hl2 Hstop) as [Hs3 Hf3].
    split; [|done]. by do 2 (etrans; [eassumption|]).
  - intros [= <- <-]. split; [|done]. by etrans.
  - intros [= <- <-]. split; [|done]. by etrans.
Qed.

End deferred_stop.

(** What member [c] of the crowded group does on a rebalance: it takes
    the lock, finds no partition for itself, releases the lock and only
    then stops. *)
Example crowded_rebalance_trace :
  (_rebalance Scenario.env Scenario.crowded).1 = Return tt ∧
  trace (_rebalance Scenario.env Scenario.crowded).2
  = [LockAcquired; Log INFO "Rebalancing consumer";
     Log WARNING "No partitions assigned to consumer - stopping"; LockReleased;
     StopCalled; LockAcquired; LockReleased] ∧
  _running (_rebalance Scenario.env Scenario.crowded).2 = false.
Proof. repeat split; vm_compute; reflexivity. Qed.

(** ** The way through [_rebalance] *)

(** The state in which the retry loop starts, with the lock taken and the
    opening line logged, and the state in which the [with] block is
    left. *)
Definition entered (s : State) : State :=
  set_trace (trace s ++ [LockAcquired; Log INFO "Rebalancing consumer"])
    (set_rebalancing_lock true s).

Definition released (s : State) : State :=
  set_trace (trace s ++ [LockReleased]) (set_rebalancing_lock false s).

(** The participants a pass of the retry loop decides with, the first
    lines of its [try] block: those read from the coordinator, and the
    member itself, registered and appended, when it is not among them. *)
Definition pass_participants : M (list string) :=
  cfg <- gets config ;;
  participants <- _get_participants ;;
  if bool_decide (_consumer_id cfg ∈ participants) then ret participants
  else _add_self ;;; ret (participants ++ [_consumer_id cfg]).

(** [retried env retries s]: the state in which the retry loop goes on
    after the turns [retries], run from [s], when each of them found a
    partition owned and slept; [None] when one of them ended otherwise. *)
Fixpoint retried (env : Env) (retries : list Z) (s : State) : option State :=
  match retries with
  | [] => Some s
  | i :: retries' =>
      match rebalance_attempt env s with
      | (Raise (PartitionOwnedError _), s') =>
          match (emit (Log INFO "Unable to acquire partition. Retrying") ;;;
                 sleep env (i * _rebalance_backoff_ms (config s))) s' with
          | (Return _, s2) => retried env retries' s2
          | _ => None
          end
      | _ => None
      end
  end.

Section rebalance_path.
Context (env : Env).

Lemma bind_bind_Return {A B C} (m1 : M A) (m2 : M B) (k : M C) s b s2 :
  (m1 ;;; m2) s = (Return b, s2) → (m1 ;;; m2 ;;; k) s = k s2.
Proof.
  unfold bind. destruct (m1 s) as [[a| | |] s1]; try done.
  destruct (m2 s1) as [[b'| | |] s2']; try done. by intros [= _ <-].
Qed.

Lemma range_lt (k i : Z) : i ∈ Py.range k → 0 ≤ i < k.
Proof.
  unfold Py.range. intros (j & -> & Hj)%list_elem_of_fmap.
  apply elem_of_seq in Hj. lia.
Qed.

Lemma range_split (n k : Z) :
  0 ≤ k < n → ∃ rest, Py.range n = Py.range k ++ k :: rest.
Proof.
  intros Hk. unfold Py.range.
  exists (Z.of_nat <$> seq (S (Z.to_nat k)) (Z.to_nat n - S (Z.to_nat k))).
  assert (Z.to_nat n = (Z.to_nat k + S (Z.to_nat n - S (Z.to_nat k)))%nat) as Hn by lia.
  rewrite Hn at 1. rewrite seq_app, fmap_app. simpl. by rewrite Z2Nat.id by lia.
Qed.

Lemma sleeps_no_sleep t : Forall (λ e, is_sleep e = false) t → sleeps t = [].
Proof.
  induction 1 as [|e t He _ IH]; [done|]. destruct e; try done; exact IH.
Qed.

(** The commit that opens [_rebalance] leaves the configuration, the
    running flag and the lock alone, and does not sleep. *)
Lemma entry_commit (s : State) (r : Outcome unit) (sc : State) :
  (if _consumer s is Some _ then commit_offsets env else ret tt) s = (r, sc) →
  config sc = config s ∧ _running sc = _running s ∧
  _rebalancing_lock sc = _rebalancing_lock s ∧
  extends (λ e, is_sleep e = false) s sc.
Proof.
  destruct (_consumer s).
  - intros H.
    assert (preserves (same (λ s, (config s, _running s, _rebalancing_lock s)))
              (commit_offsets env)) as Hsame
      by (unfold commit_offsets, _raise_worker_exceptions; frame same_leaf).
    assert (preserves (extends (λ e, is_sleep e = false)) (commit_offsets env)) as Hext
      by (unfold commit_offsets, _raise_worker_exceptions; frame same_leaf).
    apply Hsame in H as Hs. apply Hext in H as He. unfold same in Hs.
    injection Hs as -> -> ->. done.
  - intros [= _ <-]. repeat split. reflexivity.
Qed.

(** [_rebalance] on a running member, entered with the lock free, once
    the commit has returned: what leaves the retry loop decides what the
    caller gets. *)
Lemma rebalance_enters (s sc : State) :
  _running s = true → _rebalancing_lock s = false →
  (if _consumer s is Some _ then commit_offsets env else ret tt) s = (Return tt, sc) →
  _rebalance env s
  = match rebalance_loop env (Py.range (_rebalance_max_retries (config s))) (entered sc) with
    | (Return b, s1) => (if b then stop else ret tt) (released s1)
    | (Raise e, s1) => (Raise e, released s1)
    | (Blocked, s1) => (Blocked, s1)
    | (OutOfFuel, s1) => (OutOfFuel, s1)
    end.
Proof.
  intros Hr Hfree Hc. destruct (entry_commit _ _ _ Hc) as (Hcfg & Hrc & Hlc & _).
  unfold _rebalance. unfold bind at 1, gets at 1.
  rewrite (bind_Return_eq _ _ _ _ _ Hc).
  unfold bind at 1, rebalance_locked. unfold bind at 1, gets at 1. unfold with_lock.
  rewrite Hlc, Hfree. unfold bind at 1. simpl. unfold bind at 1, gets at 1. simpl.
  rewrite Hrc, Hr. simpl. unfold bind at 1. simpl.
  assert (set_trace ((trace sc ++ [LockAcquired]) ++ [Log INFO "Rebalancing consumer"])
            (set_trace (trace sc ++ [LockAcquired]) (set_rebalancing_lock true sc))
          = entered sc) as -> by (unfold entered; by rewrite <- app_assoc).
  rewrite Hcfg.
  by destruct (rebalance_loop env _ (entered sc)) as [[[|]|e| |] s1].
Qed.

(** The log line and the sleep between two turns, when they come back. *)
Lemma retry_sleep_inv (ms : Z) (s s2 : State) (u : unit) :
  (emit (Log INFO "Unable to acquire partition. Retrying") ;;; sleep env ms) s
  = (Return u, s2) →
  0 ≤ ms ∧
  trace s2 = trace s ++ [Log INFO "Unable to acquire partition. Retrying"; Sleep ms] ∧
  config s2 = config s.
Proof.
  intros H. destruct (Z.lt_ge_cases ms 0) as [Hneg|Hms].
  - exfalso. revert H. unfold sleep. by destruct (Z.ltb_spec ms 0) as [_|?]; [|lia].
  - destruct (retry_sleep_nonneg env ms s Hms) as (s2' & _ & Heq & Htr & _ & Hcfg & _).
    rewrite Heq in H. by injection H as _ <-.
Qed.

(** Turns that found a partition owned and slept are turns of the loop:
    it goes on from the state they reached, and each has slept its
    multiple of the backoff. *)
Lemma retried_loop (pre rest : list Z) (s sa : State) :
  Forall (λ i, i ≠ _rebalance_max_retries (config s) - 1) pre →
  retried env pre s = Some sa →
  rebalance_loop env (pre ++ rest) s = rebalance_loop env rest sa ∧
  config sa = config s ∧
  extends loop_event s sa ∧
  sleeps (events_since s sa) = (λ j, j * _rebalance_backoff_ms (config s)) <$> pre.
Proof.
  revert s. induction pre as [|i pre IH]; intros s Hpre Hret.
  - injection Hret as <-. split; [done|]. split; [done|]. split; [reflexivity|].
    by rewrite events_since_refl.
  - simpl in Hret. destruct (rebalance_attempt env s) as [r s'] eqn:Ha.
    destruct r as [|e| |]; try done. destruct e; try done.
    destruct ((emit _ ;;; sleep env _) s') as [r2 s2] eqn:Hsl.
    destruct r2 as [u| | |]; try done.
    pose proof (frame_rebalance_attempt env _ _ _ Ha) as Hframe.
    pose proof (events_rebalance_attempt env _ _ _ Ha) as (t & Ht & HPt).
    assert (config s' = config s) as Hcfg by (by rewrite Hframe).
    destruct (retry_sleep_inv _ _ _ _ Hsl) as (Hms & Htr2 & Hcfg2).
    apply Forall_cons in Hpre as [Hi Hpre].
    destruct (IH s2) as (Hloop & Hcfga & Heva & Hsla); [by rewrite Hcfg2, Hcfg|done|].
    rewrite Hcfg2, Hcfg in Hcfga, Hsla.
    assert (extends loop_event s s2) as H02.
    { exists (t ++ [Log INFO "Unable to acquire partition. Retrying";
                    Sleep (i * _rebalance_backoff_ms (config s))]).
      split; [by rewrite Htr2, Ht, app_assoc|].
      apply Forall_app. split.
      - eapply Forall_impl; [exact HPt|]. intros e He. unfold loop_event.
        by rewrite (Is_true_true_1 _ He).
      - by repeat constructor. }
    split; [|split; [done|split; [by etrans|]]].
    + rewrite <- app_comm_cons, (rebalance_loop_partition_owned env _ _ _ _ _ Ha).
      destruct (Z.eqb_spec i (_rebalance_max_retries (config s) - 1)) as [?|_]; [done|].
      by rewrite (bind_bind_Return _ _ _ _ _ _ Hsl).
    + rewrite (events_since_trans _ _ _ _ _ H02 Heva), sleeps_app, Hsla.
      erewrite (events_since_app s s2); [|by rewrite Htr2, Ht, <- app_assoc].
      by rewrite sleeps_app, (sleeps_attempt_events _ HPt).
Qed.

(** A [PartitionOwnedError] that leaves the retry loop reaches the caller
    of [_rebalance], once the lock is released; by then the loop has slept
    [0], [backoff], ..., [(max - 2) * backoff]. *)
Lemma rebalance_raises_owned (s sc s1 : State) (q : Partition.t) :
  _running s = true → _rebalancing_lock s = false →
  (if _consumer s is Some _ then commit_offsets env else ret tt) s = (Return tt, sc) →
  rebalance_loop env (Py.range (_rebalance_max_retries (config s))) (entered sc)
    = (Raise (PartitionOwnedError q), s1) →
  _rebalance env s = (Raise (PartitionOwnedError q), released s1) ∧
  sleeps (events_since s (released s1))
  = (λ j, j * _rebalance_backoff_ms (config s))
      <$> Py.range (_rebalance_max_retries (config s) - 1).
Proof.
  intros Hr Hfree Hc Hloop. split; [by rewrite (rebalance_enters _ _ Hr Hfree Hc), Hloop|].
  destruct (entry_commit _ _ _ Hc) as (Hcfg & _ & _ & Hec).
  pose proof (events_rebalance_loop env _ _ _ _ Hloop) as Hel.
  apply extends_events_since in Hec as [Htc Hfc].
  apply extends_events_since in Hel as [Htl _].
  assert (sleeps (events_since (entered sc) s1)
          = (λ j, j * _rebalance_backoff_ms (config s))
              <$> Py.range (_rebalance_max_retries (config s) - 1)) as Hsl.
  { revert Hloop. unfold Py.range.
    destruct (Z.to_nat (_rebalance_max_retries (config s))) as [|n] eqn:Hn; [done|].
    rewrite <- Hn. intros Hloop.
    rewrite (rebalance_loop_sleeps env 0 (Z.to_nat (_rebalance_max_retries (config s)))
               (entered sc) s1 q); [|simpl; rewrite Hcfg; lia|done].
    simpl. rewrite Hcfg.
    by replace (Z.to_nat (_rebalance_max_retries (config s) - 1))
      with (Z.to_nat (_rebalance_max_retries (config s)) - 1)%nat by lia. }
  erewrite (events_since_app s (released s1)
              (events_since s sc ++ [LockAcquired; Log INFO "Rebalancing consumer"]
               ++ events_since (entered sc) s1 ++ [LockReleased])).
  - rewrite !sleeps_app, (sleeps_no_sleep _ Hfc), Hsl. simpl. by rewrite app_nil_r.
  - simpl. rewrite Htl. simpl. rewrite Htc at 1. by rewrite <- !app_assoc.
Qed.

(** A pass whose participants give the member the empty assignment logs
    the warning and leaves the loop with [should_stop] set; it has read
    no record of a partition and has removed or created none. *)
Lemma rebalance_attempt_empty (s0 s0' : State) (P : list string) :
  pass_participants s0 = (Return P, s0') →
  _decide_partitions (config s0) P = Return ∅ →
  rebalance_attempt env s0
  = (Return true,
     set_trace (trace s0' ++ [Log WARNING "No partitions assigned to consumer - stopping"])
       s0') ∧
  trace s0' = trace s0.
Proof.
  intros Hp Hd. unfold pass_participants in Hp. unfold bind at 1, gets at 1 in Hp.
  apply bind_inv_Return in Hp as (P0 & sx & HP0 & Hp).
  pose proof (eq_get_participants _ _ _ HP0) as Heq. subst sx.
  assert (trace s0' = trace s0) as Htr.
  { destruct (bool_decide _).
    - by injection Hp as _ <-.
    - apply bind_inv_Return in Hp as ([] & sb' & Hadd & [= _ <-]).
      destruct (events_add_self (λ _, False) _ _ _ Hadd) as (t & Ht & HF).
      destruct t as [|e t]; [by rewrite app_nil_r in Ht|]. by inversion HF. }
  split; [|done].
  unfold rebalance_attempt. unfold bind at 1, gets at 1.
  rewrite (bind_Return_eq _ _ _ _ _ HP0), (bind_Return_eq _ _ _ _ _ Hp).
  unfold bind at 1, lift at 1. rewrite Hd. by rewrite decide_True.
Qed.

(** Only such a pass sets [should_stop]. *)
Lemma rebalance_attempt_flag (s0 s1 : State) :
  rebalance_attempt env s0 = (Return true, s1) →
  ∃ P s0', pass_participants s0 = (Return P, s0') ∧
           _decide_partitions (config s0) P = Return ∅.
Proof.
  unfold rebalance_attempt. unfold bind at 1, gets at 1.
  intros H. apply bind_inv_Return in H as (P0 & sa & HP0 & H).
  pose proof (eq_get_participants _ _ _ HP0) as Heq. subst sa.
  apply bind_inv_Return in H as (P1 & sb & HP1 & H).
  apply bind_inv_Return in H as (A & sc & HA & H).
  injection HA as HA <-.
  exists P1, sb. split.
  - unfold pass_participants. unfold bind at 1, gets at 1.
    by rewrite (bind_Return_eq _ _ _ _ _ HP0).
  - destruct (decide (A = ∅)) as [->|Hne]; [done|]. exfalso.
    repeat (apply bind_inv_Return in H as (? & ? & _ & H)). done.
Qed.

End rebalance_path.

(** C3. On a running member that enters [_rebalance] with the lock free
    and whose opening commit returned: a pass of the retry loop that
    raises [PartitionOwnedError] on turn [i < rebalance_max_retries - 1] is
    followed by the log line and a sleep of [i * rebalance_backoff_ms],
    after which the loop goes on with its next turn (a negative duration
    is refused by [time.sleep], whose exception ends the rebalance); on
    turn [i = rebalance_max_retries - 1] the error leaves the loop.  When
    every turn finds a partition owned, the caller of [_rebalance] gets
    the [PartitionOwnedError] of the last turn, with the lock released,
    after [rebalance_max_retries] passes and the sleeps [0], [backoff],
    ..., [(max - 2) * backoff]; and whenever this error leaves the loop it
    reaches the caller after exactly these sleeps. *)
Theorem rebalance_partition_owned_retry (env : Env) (s sc : State) :
  _running s = true →
  _rebalancing_lock s = false →
  (if _consumer s is Some _ then commit_offsets env else ret tt) s = (Return tt, sc) →
  (∀ sa s' i retries p,
     rebalance_attempt env sa = (Raise (PartitionOwnedError p), s') →
     (i < _rebalance_max_retries (config sa) - 1 →
      0 ≤ i * _rebalance_backoff_ms (config sa) →
      ∃ s2, trace s2 = trace s' ++ [Log INFO "Unable to acquire partition. Retrying";
                                    Sleep (i * _rebalance_backoff_ms (config sa))] ∧
            zk s2 = peers env (i * _rebalance_backoff_ms (config sa)) (zk s') ∧
            rebalance_loop env (i :: retries) sa = rebalance_loop env retries s2) ∧
     (i < _rebalance_max_retries (config sa) - 1 →
      i * _rebalance_backoff_ms (config sa) < 0 →
      rebalance_loop env (i :: retries) sa
      = (Raise ValueError,
         set_trace (trace s' ++ [Log INFO "Unable to acquire partition. Retrying"]) s')) ∧
     (i = _rebalance_max_retries (config sa) - 1 →
      rebalance_loop env (i :: retries) sa
      = (Raise (PartitionOwnedError p),
         set_trace (trace s' ++ [Log WARNING "Failed to acquire partition after retries."])
           s'))) ∧
  (∀ sa s' p,
     0 < _rebalance_max_retries (config s) →
     retried env (Py.range (_rebalance_max_retries (config s) - 1)) (entered sc) = Some sa →
     rebalance_attempt env sa = (Raise (PartitionOwnedError p), s') →
     _rebalance env s
     = (Raise (PartitionOwnedError p),
        released
          (set_trace (trace s' ++ [Log WARNING "Failed to acquire partition after retries."])
             s')) ∧
     sleeps (events_since s (_rebalance env s).2)
     = (λ j, j * _rebalance_backoff_ms (config s))
         <$> Py.range (_rebalance_max_retries (config s) - 1)) ∧
  (∀ s1 q,
     rebalance_loop env (Py.range (_rebalance_max_retries (config s))) (entered sc)
       = (Raise (PartitionOwnedError q), s1) →
     _rebalance env s = (Raise (PartitionOwnedError q), released s1) ∧
     sleeps (events_since s (released s1))
     = (λ j, j * _rebalance_backoff_ms (config s))
         <$> Py.range (_rebalance_max_retries (config s) - 1)).
Proof.
  intros Hr Hfree Hc. split; [|split].
  - intros sa s' i retries p Ha.
    rewrite (rebalance_loop_partition_owned env _ _ _ _ _ Ha).
    split; [|split].
    + intros Hi Hms.
      destruct (Z.eqb_spec i (_rebalance_max_retries (config sa) - 1)) as [?|_]; [lia|].
      destruct (retry_sleep_nonneg env _ s' Hms) as (s2 & Hk & _ & Htr & Hzk & _).
      exists s2. by rewrite Hk.
    + intros Hi Hms.
      destruct (Z.eqb_spec i (_rebalance_max_retries (config sa) - 1)) as [?|_]; [lia|].
      by apply retry_sleep_neg.
    + intros Hi.
      by destruct (Z.eqb_spec i (_rebalance_max_retries (config sa) - 1)) as [_|?]; [|lia].
  - intros sa s' p Hmax Hret Ha.
    destruct (entry_commit env _ _ _ Hc) as (Hcfg & _).
    destruct (range_split (_rebalance_max_retries (config s))
                (_rebalance_max_retries (config s) - 1)) as [rest Hsplit]; [lia|].
    assert (Forall (λ i, i ≠ _rebalance_max_retries (config (entered sc)) - 1)
              (Py.range (_rebalance_max_retries (config s) - 1))) as Hpre.
    { apply Forall_forall. intros i Hi%range_lt. simpl. rewrite Hcfg. lia. }
    destruct (retried_loop env _ (_rebalance_max_retries (config s) - 1 :: rest) _ _
                Hpre Hret) as (Hloop & Hcfga & _).
    simpl in Hcfga. rewrite Hcfg in Hcfga.
    assert (rebalance_loop env (Py.range (_rebalance_max_retries (config s))) (entered sc)
            = (Raise (PartitionOwnedError p),
               set_trace
                 (trace s' ++ [Log WARNING "Failed to acquire partition after retries."])
                 s')) as Hrun.
    { rewrite Hsplit, Hloop, (rebalance_loop_partition_owned env _ _ _ _ _ Ha), Hcfga.
      by rewrite Z.eqb_refl. }
    destruct (rebalance_raises_owned env _ _ _ _ Hr Hfree Hc Hrun) as [Hcall Hsl].
    split; [done|]. by rewrite Hcall.
  - intros s1 q Hloop. by apply (rebalance_raises_owned env s sc).
Qed.

(** Member [a] of the contended group: every one of its five passes finds
    partition 0 owned by the peer that has left, and the caller gets the
    error after sleeps of 0, 2, 4 and 6 seconds. *)
Lemma rebalance_partition_owned_retry_witness :
  let sa := default Scenario.contended
              (retried Scenario.env
                 (Py.range (_rebalance_max_retries (config Scenario.contended) - 1))
                 (entered Scenario.contended)) in
  _rebalance Scenario.env Scenario.contended
  = (Raise (PartitionOwnedError (Scenario.p 0)),
     released
       (set_trace (trace (rebalance_attempt Scenario.env sa).2
                   ++ [Log WARNING "Failed to acquire partition after retries."])
          (rebalance_attempt Scenario.env sa).2)) ∧
  sleeps (events_since Scenario.contended (_rebalance Scenario.env Scenario.contended).2)
  = (λ j, j * _rebalance_backoff_ms (config Scenario.contended))
      <$> Py.range (_rebalance_max_retries (config Scenario.contended) - 1).
Proof.
  intros sa.
  destruct (rebalance_partition_owned_retry Scenario.env Scenario.contended
              Scenario.contended) as (_ & H & _); [reflexivity..|].
  apply (H sa (rebalance_attempt Scenario.env sa).2 (Scenario.p 0)).
  - simpl. lia.
  - unfold sa.
    assert (is_Some (retried Scenario.env
                       (Py.range (_rebalance_max_retries (config Scenario.contended) - 1))
                       (entered Scenario.contended))) as [x Hx]
      by (apply (bool_decide_unpack _); vm_compute; exact I).
    by rewrite Hx.
  - assert ((rebalance_attempt Scenario.env sa).1
            = Raise (PartitionOwnedError (Scenario.p 0))) as Hrun
      by (vm_compute; reflexivity).
    rewrite <- Hrun. apply surjective_pairing.
Defined.

(** C4. The assignment of a member is empty exactly for the last
    [|P| - |T|] sorted members when [|T| < |P|].  A pass of the retry loop
    whose participants give the member the empty assignment sets
    [should_stop] and adds nothing but the warning to the trace: no
    partition is removed or claimed; and only such a pass sets the flag.
    On a running member whose opening commit returned, when the turns
    before turn [k] found a partition owned and the pass of turn [k]
    computes the empty assignment, [_rebalance] releases the lock and then
    calls [stop], on the state the release left: the trace goes on with
    the warning, the release and the entry to [stop].  Along a rebalance
    entered with the lock free, [stop] is never entered while the lock is
    held, and the rebalance comes back. *)
Theorem rebalance_empty_assignment_deferred_stop (env : Env) (s : State) :
  _rebalancing_lock s = false →
  (∀ (cfg : Config) P idx,
     Py.index (_consumer_id cfg) (Py.sorted id P) = Some idx →
     Py.len (sorted_partitions cfg) < Py.len P →
     _decide_partitions cfg P = Return ∅
     ↔ Py.len (sorted_partitions cfg) ≤ Z.of_nat idx) ∧
  (∀ s0 s0' P,
     pass_participants s0 = (Return P, s0') →
     _decide_partitions (config s0) P = Return ∅ →
     ∃ s1, rebalance_attempt env s0 = (Return true, s1) ∧
           zk s1 = zk s0' ∧
           events_since s0 s1 = [Log WARNING "No partitions assigned to consumer - stopping"]) ∧
  (∀ s0 s1,
     rebalance_attempt env s0 = (Return true, s1) →
     ∃ P s0', pass_participants s0 = (Return P, s0') ∧
              _decide_partitions (config s0) P = Return ∅) ∧
  (∀ sc k sa sa' P,
     _running s = true →
     (if _consumer s is Some _ then commit_offsets env else ret tt) s = (Return tt, sc) →
     0 ≤ k < _rebalance_max_retries (config s) →
     retried env (Py.range k) (entered sc) = Some sa →
     pass_participants sa = (Return P, sa') →
     _decide_partitions (config s) P = Return ∅ →
     let s2 := released
                 (set_trace
                    (trace sa' ++ [Log WARNING "No partitions assigned to consumer - stopping"])
                    sa') in
     _rebalance env s = stop s2 ∧
     _rebalancing_lock s2 = false ∧
     ∃ t, trace (_rebalance env s).2
          = trace sa ++ [Log WARNING "No partitions assigned to consumer - stopping";
                         LockReleased; StopCalled] ++ t) ∧
  (∀ r s',
     _rebalance env s = (r, s') →
     finished r ∧ lock_free_at_stop false (events_since s s') = true).
Proof.
  intros Hfree. split; [|split; [|split; [|split]]].
  - intros cfg P idx Hidx Hlt. by apply decide_partitions_empty_iff.
  - intros s0 s0' P Hp Hd.
    destruct (rebalance_attempt_empty env _ _ _ Hp Hd) as [Ha Htr].
    eexists. split; [exact Ha|]. split; [done|].
    apply events_since_app. simpl. by rewrite Htr.
  - intros s0 s1. apply rebalance_attempt_flag.
  - intros sc k sa sa' P Hr Hc Hk Hret Hp Hd s2.
    destruct (entry_commit env _ _ _ Hc) as (Hcfg & _).
    destruct (range_split (_rebalance_max_retries (config s)) k Hk) as [rest Hsplit].
    assert (Forall (λ i, i ≠ _rebalance_max_retries (config (entered sc)) - 1)
              (Py.range k)) as Hpre.
    { apply Forall_forall. intros i Hi%range_lt. simpl. rewrite Hcfg. lia. }
    destruct (retried_loop env _ (k :: rest) _ _ Hpre Hret) as (Hloop & Hcfga & _).
    simpl in Hcfga. rewrite Hcfg in Hcfga. rewrite <- Hcfga in Hd.
    destruct (rebalance_attempt_empty env _ _ _ Hp Hd) as [Ha Htr].
    assert (_rebalance env s = stop s2) as Hcall.
    { rewrite (rebalance_enters env _ _ Hr Hfree Hc), Hsplit, Hloop.
      by rewrite (rebalance_loop_attempt_done env _ _ _ _ _ Ha). }
    split; [done|]. split; [done|].
    destruct (stop_starts s2) as [t Ht]. exists t.
    rewrite Hcall, Ht. unfold s2. simpl. by rewrite Htr, <- !app_assoc.
  - intros r s' Hrun. destruct (rebalance_sync env _ _ _ Hfree Hrun) as [Hs Hf].
    split; [done|]. rewrite <- Hfree. by apply sync_events.
Qed.

(** Member [c] of the crowded group: its first pass finds three members
    for two partitions and nothing for itself, and the rebalance ends in
    [stop], entered after the release of the lock. *)
Lemma rebalance_empty_assignment_deferred_stop_witness :
  let sa' := (pass_participants (entered Scenario.crowded)).2 in
  let s2 := released
              (set_trace
                 (trace sa' ++ [Log WARNING "No partitions assigned to consumer - stopping"])
                 sa') in
  _rebalance Scenario.env Scenario.crowded = stop s2 ∧
  _rebalancing_lock s2 = false ∧
  ∃ t, trace (_rebalance Scenario.env Scenario.crowded).2
       = trace (entered Scenario.crowded)
         ++ [Log WARNING "No partitions assigned to consumer - stopping";
             LockReleased; StopCalled] ++ t.
Proof.
  intros sa'.
  destruct (rebalance_empty_assignment_deferred_stop Scenario.env Scenario.crowded)
    as (_ & _ & _ & H & _); [reflexivity|].
  apply (H Scenario.crowded 0 (entered Scenario.crowded) sa' ["a"; "b"; "c"]%string).
  - reflexivity.
  - reflexivity.
  - simpl. lia.
  - reflexivity.
  - assert ((pass_participants (entered Scenario.crowded)).1
            = Return ["a"; "b"; "c"]%string) as Hrun by (vm_compute; reflexivity).
    rewrite <- Hrun. apply surjective_pairing.
  - vm_compute. reflexivity.
Defined.

(** ** [start] and its failures *)

(** A successful start: member [a] registers, claims the five partitions
    and builds its inner consumer. *)
Example start_consuming :
  (start Scenario.env Scenario.fresh).1 = Return tt ∧
  _running Scenario.consuming = true ∧
  _partitions Scenario.consuming = list_to_set (Scenario.p <$> [0; 1; 2; 3; 4]).
Proof. repeat split; vm_compute; reflexivity. Qed.

(** The claim that [start] propagates the failure does not hold: against
    a coordinator without [/brokers/ids] the installation of the watches
    fails, [start] calls [stop] and returns normally. *)
Lemma start_failure_propagates_counterexample :
  (start_body Scenario.env Scenario.isolated).1
    = Raise (Exception "The broker_path does not exist in your ZooKeeper cluster") ∧
  (start Scenario.env Scenario.isolated).1 = Return tt ∧
  StopCalled ∈ trace (start Scenario.env Scenario.isolated).2.
Proof.
  split; [vm_compute; reflexivity|]. split; [vm_compute; reflexivity|].
  apply (bool_decide_unpack _). vm_compute. exact I.
Qed.

(** C5, amended. For every failure (raised exception) during [start], in
    the session setup, the path creation, the self-registration, the
    watch installation, the initial rebalance or the checker spawn,
    [start] logs the error and calls [stop]; it does not propagate the
    exception: what [start] returns or raises is what [stop] returns or
    raises. *)
Theorem start_failure_calls_stop (env : Env) (s s' : State) (e : Exn) :
  start_body env s = (Raise e, s') →
  start env s
  = stop (set_trace (trace s' ++ [Log ERROR "Stopping consumer in response to error"]) s') ∧
  (∃ t, trace (start env s).2
        = trace s' ++ Log ERROR "Stopping consumer in response to error" :: StopCalled :: t) ∧
  (_rebalancing_lock s' = false → finished (start env s).1).
Proof.
  intros Hbody.
  assert (start env s
          = stop (set_trace (trace s' ++ [Log ERROR "Stopping consumer in response to error"]) s'))
    as Heq.
  { unfold start, try_except. rewrite Hbody. done. }
  split; [done|]. rewrite Heq. split.
  - destruct (stop_starts (set_trace (trace s' ++ [Log ERROR "Stopping consumer in response to error"]) s'))
      as [t Ht].
    exists t. rewrite Ht. simpl. by rewrite <- app_assoc.
  - intros Hfree.
    destruct (stop _) as [r s''] eqn:Hstop.
    by apply stop_sync in Hstop as [_ ?].
Qed.

Lemma start_failure_calls_stop_witness :
  start Scenario.env Scenario.isolated
  = stop (set_trace
            (trace (start_body Scenario.env Scenario.isolated).2
             ++ [Log ERROR "Stopping consumer in response to error"])
            (start_body Scenario.env Scenario.isolated).2).
Proof.
  destruct (start_failure_calls_stop Scenario.env Scenario.isolated
              (start_body Scenario.env Scenario.isolated).2
              (Exception "The broker_path does not exist in your ZooKeeper cluster"))
    as [H _].
  - vm_compute. reflexivity.
  - exact H.
Defined.

(** ** Errors of the background tasks *)

Section worker_exceptions.
Context (env : Env).

Lemma raise_worker_exceptions_stored s ex :
  _worker_exception s = Some ex →
  _raise_worker_exceptions s
  = (Raise ex,
     if _worker_trace_logged s then s
     else set_trace (trace s ++ [Log ERROR "Exception encountered in worker thread"])
            (set_worker_trace_logged true s)).
Proof.
  intros Hex. unfold _raise_worker_exceptions. unfold bind at 1, gets at 1.
  rewrite Hex. unfold bind at 1, gets at 1. by destruct (_worker_trace_logged s).
Qed.

Lemma raise_worker_exceptions_none s :
  _worker_exception s = None → _raise_worker_exceptions s = (Return tt, s).
Proof.
  intros Hex. unfold _raise_worker_exceptions. unfold bind at 1, gets at 1.
  by rewrite Hex.
Qed.

Lemma worker_exception_time : preserves (same _worker_exception) (time env).
Proof. by intros s r s' [= <- <-]. Qed.

Lemma worker_exception_raise_worker_exceptions :
  preserves (same _worker_exception) _raise_worker_exceptions.
Proof. unfold _raise_worker_exceptions. frame same_leaf. Qed.

Hint Resolve worker_exception_time worker_exception_raise_worker_exceptions : frames.

Lemma worker_exception_consumer_timed_out :
  preserves (same _worker_exception) (consumer_timed_out env).
Proof. unfold consumer_timed_out. frame same_leaf. Qed.

Hint Resolve worker_exception_consumer_timed_out : frames.

Lemma worker_exception_consume_loop fuel block :
  preserves (same _worker_exception) (consume_loop env fuel block).
Proof.
  induction fuel as [|fuel IH]; simpl; frame same_leaf.
Qed.

Lemma worker_exception_consume fuel block :
  preserves (same _worker_exception) (consume env fuel block).
Proof.
  pose proof worker_exception_consume_loop.
  unfold consume. frame same_leaf.
Qed.

(** With an error stored, the first turn of the loop of [consume] ends the
    call: by the time-out or by the stored error. *)
Lemma consume_loop_stored s ex fuel block r s' :
  _worker_exception s = Some ex →
  consume_loop env (S fuel) block s = (r, s') →
  (r = Raise ex ∨ r = Return None) ∧
  (_consumer_timeout_ms (config s) = -1 → r = Raise ex).
Proof.
  intros Hex. simpl.
  destruct (consumer_timed_out env s) as [rt st] eqn:Ht.
  pose proof (worker_exception_consumer_timed_out _ _ _ Ht) as Hst.
  unfold same in Hst. rewrite Hex in Hst.
  assert (_consumer_timeout_ms (config s) = -1 → rt = Return false) as Hinf.
  { intros Hm. revert Ht. unfold consumer_timed_out. unfold bind at 1, gets at 1.
    rewrite Hm. by intros [= <- _]. }
  assert (∃ b, rt = Return b) as [b ->].
  { revert Ht. unfold consumer_timed_out. unfold bind at 1, gets at 1.
    destruct (_ =? _); [intros [= <- _]; by eexists|].
    intros [= <- _]. by eexists. }
  rewrite (bind_Return_eq _ _ _ _ _ Ht).
  destruct b.
  - intros [= <- <-]. split; [by right|]. intros Hm. by specialize (Hinf Hm).
  - unfold bind at 1. rewrite (raise_worker_exceptions_stored _ _ Hst).
    intros [= <- <-]. split; [by left|done].
Qed.

End worker_exceptions.




(** ** The offset commit at the start of a rebalance *)

Section commit_first.
Context (env : Env).

Lemma commit_offsets_keeps :
  preserves (same (λ s, (zk s, _rebalancing_lock s, _consumer s, _running s)))
    (commit_offsets env).
Proof. unfold commit_offsets, _raise_worker_exceptions. frame same_leaf. Qed.

Lemma commit_offsets_events :
  preserves (extends (λ e, is_lock_or_stop e = false)) (commit_offsets env).
Proof. unfold commit_offsets, _raise_worker_exceptions. frame same_leaf. Qed.

End commit_first.

(** The claim that a failed offset commit does not abort the rebalance
    does not hold: for a member with an inner consumer whose commit fails,
    [_rebalance] raises the commit's exception and never takes the lock. *)
Lemma rebalance_commit_failure_counterexample :
  is_Some (_consumer Scenario.consuming) ∧
  (_rebalance Scenario.env_commit_fails Scenario.consuming).1
    = Raise (KafkaException "offset commit failed") ∧
  events_since Scenario.consuming
    (_rebalance Scenario.env_commit_fails Scenario.consuming).2 = [InnerCommit].
Proof.
  split; [|split; vm_compute; reflexivity].
  apply (bool_decide_unpack _). vm_compute. exact I.
Qed.

(** C7, amended. When a rebalance begins while an inner consumer exists,
    it first commits that consumer's offsets.  A failure of this commit
    aborts the rebalance: the exception reaches the caller of [_rebalance],
    the lock is never taken, the retry loop does not run and the
    coordinator is left as it was.  Only when the commit returns does the
    rebalance go on to the locked block. *)
Theorem rebalance_commits_first (env : Env) (s : State) (c : SimpleConsumer.t) :
  _consumer s = Some c →
  _rebalance env s
  = (commit_offsets env ;;;
     should_stop <- rebalance_locked env ;;
     if (should_stop : bool) then stop else ret tt) s ∧
  (∀ e s', commit_offsets env s = (Raise e, s') →
     _rebalance env s = (Raise e, s') ∧
     zk s' = zk s ∧
     _rebalancing_lock s' = _rebalancing_lock s ∧
     Forall (λ ev, ev ≠ LockAcquired) (events_since s s')) ∧
  (∀ s', commit_offsets env s = (Return tt, s') →
     _rebalance env s
     = (should_stop <- rebalance_locked env ;;
        if (should_stop : bool) then stop else ret tt) s').
Proof.
  intros Hc.
  assert (_rebalance env s
          = (commit_offsets env ;;;
             should_stop <- rebalance_locked env ;;
             if (should_stop : bool) then stop else ret tt) s) as Heq.
  { unfold _rebalance. unfold bind at 1, gets at 1. by rewrite Hc. }
  split; [done|]. rewrite Heq. split.
  - intros e s' Hcommit. split; [by rewrite (bind_Raise_eq _ _ _ _ _ Hcommit)|].
    pose proof (commit_offsets_keeps env _ _ _ Hcommit) as Hk.
    injection Hk as Hzk Hlock _ _. split; [done|]. split; [done|].
    destruct (commit_offsets_events env _ _ _ Hcommit) as (t & Ht & HF).
    rewrite (events_since_app _ _ _ Ht).
    eapply Forall_impl; [exact HF|]. by intros ev Hev ->.
  - intros s' Hcommit. by rewrite (bind_Return_eq _ _ _ _ _ Hcommit).
Qed.

Lemma rebalance_commits_first_witness :
  _rebalance Scenario.env_commit_fails Scenario.consuming
  = (Raise (KafkaException "offset commit failed"),
     (commit_offsets Scenario.env_commit_fails Scenario.consuming).2).
Proof.
  destruct (rebalance_commits_first Scenario.env_commit_fails Scenario.consuming
              (SimpleConsumer.new (λ _, 0) (elements (_partitions Scenario.consuming))
                 false true))
    as (_ & H & _).
  - vm_compute. reflexivity.
  - apply H. vm_compute. reflexivity.
Defined.

(** ** The [partitions] and [held_offsets] properties *)

Lemma stop_keeps_consumer (s : State) (r : Outcome unit) (s' : State) :
  stop s = (r, s') → _consumer s' = None ↔ _consumer s = None.
Proof.
  unfold stop. unfold bind at 1. simpl.
  set (s1 := set_trace _ s).
  destruct (with_lock (modify (set_running false)) s1) as [r2 s2] eqn:Hlock.
  assert (_consumer s2 = _consumer s) as H2.
  { assert (preserves (same _consumer) (with_lock (modify (set_running false)))) as Hp
      by frame same_leaf.
    by apply Hp in Hlock. }
  unfold bind at 1. rewrite Hlock.
  destruct r2 as [[]|e| |]; try (intros [= _ <-]; by rewrite H2).
  unfold bind at 1, gets at 1.
  set (tail := (cfg <- gets config ;; _)).
  assert (preserves (same _consumer) tail) as Htail.
  { unfold tail. pose proof eq_get_held_partitions.
    assert (∀ ps, preserves (same _consumer) (_remove_partitions ps)) as Hrm
      by (intros ps; unfold _remove_partitions; frame same_leaf).
    frame same_leaf; auto. }
  destruct (_consumer s2) as [c|] eqn:Hc2.
  - unfold bind at 1, bind at 1. simpl. intros Hrun. apply Htail in Hrun.
    unfold same in Hrun. simpl in Hrun. rewrite Hrun, <- H2. done.
  - unfold bind at 1. simpl. intros Hrun. apply Htail in Hrun.
    unfold same in Hrun. rewrite Hrun, Hc2, <- H2. done.
Qed.

(** The claim that no inner consumer exists after [stop] does not hold:
    [stop] stops the inner consumer but keeps it, so after a start and a
    stop both properties still answer with a collection. *)
Lemma partitions_after_stop_counterexample :
  (stop Scenario.consuming).1 = Return tt ∧
  _running (stop Scenario.consuming).2 = false ∧
  partitions (stop Scenario.consuming).2
    = Some (list_to_map ((λ i, (i, Scenario.p i)) <$> [0; 1; 2; 3; 4])) ∧
  held_offsets (stop Scenario.consuming).2
    = Some (list_to_map ((λ i, (i, 0)) <$> [0; 1; 2; 3; 4])).
Proof. repeat split; vm_compute; reflexivity. Qed.

(** C10, amended. Whenever no inner consumer is held, as in a freshly
    constructed member, the [partitions] property and the [held_offsets]
    property both return null rather than an empty collection, and each
    returns a non-null value if and only if an inner consumer instance is
    held.  [stop] does not discard the inner consumer: a member holds one
    after [stop] exactly when it held one before. *)
Theorem partitions_null_iff_no_consumer (s : State) :
  (_consumer s = None → partitions s = None ∧ held_offsets s = None) ∧
  (partitions s ≠ None ↔ _consumer s ≠ None) ∧
  (held_offsets s ≠ None ↔ _consumer s ≠ None) ∧
  (∀ topic group member timeout retries backoff client reset coordinator,
     partitions (__init__ topic group member timeout retries backoff client reset
                   coordinator) = None) ∧
  (∀ r s', stop s = (r, s') → partitions s' = None ↔ partitions s = None).
Proof.
  split; [|split; [|split; [|split]]].
  - intros Hc. unfold partitions, held_offsets. by rewrite Hc.
  - unfold partitions. by destruct (_consumer s).
  - unfold held_offsets. by destruct (_consumer s).
  - done.
  - intros r s' Hstop. apply stop_keeps_consumer in Hstop as [H1 H2].
    unfold partitions.
    destruct (_consumer s), (_consumer s'); split; try done; intros _.
    + by specialize (H1 eq_refl).
    + by specialize (H2 eq_refl).
Qed.

(** * The registry and two rebalances in succession *)

(** ** Slugs of the ownership registry *)

(** A string without the separator of the slugs. *)
Fixpoint no_dash (s : string) : Prop :=
  match s with
  | EmptyString => True
  | String a s' => a ≠ "-"%char ∧ no_dash s'
  end.

Lemma no_dash_uint d : no_dash (NilEmpty.string_of_uint d).
Proof. induction d; simpl; try done; split; done. Qed.

Lemma no_dash_str z : 0 ≤ z → no_dash (Py.str z).
Proof.
  intros Hz. unfold Py.str. destruct z as [|p|p]; [done| |lia].
  simpl. unfold NilZero.string_of_uint.
  pose proof (no_dash_uint (Pos.to_uint p)).
  by destruct (Pos.to_uint p).
Qed.

Lemma split_no_dash s : no_dash s → Py.split "-" s = [s].
Proof.
  induction s as [|a s IH]; [done|]. intros [Ha Hs]. simpl.
  destruct (Ascii.eqb_spec a "-"); [done|]. by rewrite IH.
Qed.

Lemma split_dash s1 s2 :
  no_dash s1 → Py.split "-" (s1 ++ "-" ++ s2) = s1 :: Py.split "-" s2.
Proof.
  induction s1 as [|a s1 IH]; [done|]. intros [Ha Hs]. simpl.
  destruct (Ascii.eqb_spec a "-"); [done|]. by rewrite IH.
Qed.

Lemma int_str z : Py.int (Py.str z) = Some z.
Proof.
  unfold Py.int, Py.str. rewrite NilZero.isi.
  - simpl. by rewrite DecimalZ.of_to.
  - destruct z; simpl; try done. intros [= H]. by apply Unsigned.to_uint_nonnil in H.
  - destruct z; simpl; try done. intros [= H]. by apply Unsigned.to_uint_nonnil in H.
Qed.

(** Reading back the partition id from the slug written for a partition
    with non-negative leader and partition ids. *)
Lemma slug_roundtrip l i :
  0 ≤ l → 0 ≤ i → slug_partition_id (Py.str l ++ "-" ++ Py.str i) = Return i.
Proof.
  intros Hl Hi. unfold slug_partition_id.
  rewrite split_dash by by apply no_dash_str.
  rewrite split_no_dash by by apply no_dash_str. simpl.
  by rewrite int_str.
Qed.

(** ** Children of a coordinator node *)

Lemma child_of_Some parent k c :
  ZooKeeper.child_of parent k = Some c ↔ k = parent ++ [c].
Proof.
  revert k. induction parent as [|a parent IH]; intros k; simpl.
  - destruct k as [|b [|b' k]]; split; intros H; simplify_eq/=; done.
  - destruct k as [|b k]; [split; intros H; simplify_eq/=|].
    destruct (decide (a = b)) as [->|Hab].
    + rewrite IH. split; intros H; simplify_eq/=; done.
    + split; intros H; simplify_eq/=.
Qed.

Lemma elem_of_children (st : gmap (list string) ZooKeeper.node) p c :
  c ∈ ZooKeeper.children st p ↔ is_Some (st !! (p ++ [c])).
Proof.
  unfold ZooKeeper.children. rewrite list_elem_of_omap. split.
  - intros (k & Hk & Hc). apply child_of_Some in Hc as ->.
    apply list_elem_of_fmap in Hk as ([k n] & -> & Hkn).
    apply elem_of_map_to_list in Hkn. by eexists.
  - intros [n Hn]. exists (p ++ [c]). split; [|by apply child_of_Some].
    apply list_elem_of_fmap. exists (p ++ [c], n). split; [done|].
    by apply elem_of_map_to_list.
Qed.

Lemma NoDup_omap_inj {A B} (f : A → option B) (l : list A) :
  (∀ x y b, f x = Some b → f y = Some b → x = y) → NoDup l → NoDup (omap f l).
Proof.
  intros Hinj. induction 1 as [|x l Hx Hl IH]; simpl; [constructor|].
  destruct (f x) as [b|] eqn:Hfx; [|done].
  constructor; [|done]. rewrite list_elem_of_omap. intros (y & Hy & Hfy).
  by rewrite (Hinj x y b Hfx Hfy) in Hx.
Qed.

Lemma NoDup_children (st : gmap (list string) ZooKeeper.node) p :
  NoDup (ZooKeeper.children st p).
Proof.
  unfold ZooKeeper.children. apply NoDup_omap_inj.
  - intros x y b Hx%child_of_Some Hy%child_of_Some. congruence.
  - apply NoDup_fst_map_to_list.
Qed.

Lemma children_Permutation (st st' : gmap (list string) ZooKeeper.node) p :
  (∀ c, is_Some (st !! (p ++ [c])) ↔ is_Some (st' !! (p ++ [c]))) →
  ZooKeeper.children st p ≡ₚ ZooKeeper.children st' p.
Proof.
  intros H. apply NoDup_Permutation; [apply NoDup_children..|].
  intros c. by rewrite !elem_of_children.
Qed.

(** ** The registry as the methods read it *)

(** Whether the child [c] of the participants path is registered for this
    topic. *)
Definition is_registered (cfg : Config) (st : gmap (list string) ZooKeeper.node)
    (c : string) : bool :=
  match st !! (_consumer_id_path cfg ++ [c]) with
  | Some n => String.eqb (ZooKeeper.data n) (Topic.name (_topic cfg))
  | None => false
  end.

Definition registered (cfg : Config) (st : gmap (list string) ZooKeeper.node)
    : list string :=
  filter (λ c, is_registered cfg st c) (ZooKeeper.children st (_consumer_id_path cfg)).

(** What [_get_participants] answers on the coordinator [st]. *)
Definition participants_of (cfg : Config) (st : gmap (list string) ZooKeeper.node)
    : list string :=
  match st !! _consumer_id_path cfg with
  | Some _ => Py.sorted id (registered cfg st)
  | None => []
  end.

(** Whether the ownership record [c] names this member. *)
Definition owns (cfg : Config) (st : gmap (list string) ZooKeeper.node)
    (c : string) : bool :=
  match st !! (_topic_path cfg ++ [c]) with
  | Some n => String.eqb (ZooKeeper.data n) (_consumer_id cfg)
  | None => false
  end.

(** ZooKeeper keeps a tree: a participant record lies under an existing
    participants directory. *)
Definition rooted (st : gmap (list string) ZooKeeper.node) : Prop :=
  ∀ g c, is_Some (st !! ["consumers"; g; "ids"; c]%string) →
         is_Some (st !! ["consumers"; g; "ids"]%string).

Section registry_reads.

Lemma zookeeper_Some s c : _zookeeper s = Some c → zookeeper s = (Return c, s).
Proof. intros H. unfold zookeeper. by rewrite H. Qed.

Lemma zookeeper_Return s c s' : zookeeper s = (Return c, s') → _zookeeper s = Some c ∧ s' = s.
Proof. unfold zookeeper. destruct (_zookeeper s); by intros [= <- <-]. Qed.

Lemma zk_get_children_eq s c p :
  _zookeeper s = Some c → zk_get_children p s = (ZooKeeper.get_children p (zk s), s).
Proof.
  intros H. unfold zk_get_children. by rewrite (bind_Return_eq _ _ _ _ _ (zookeeper_Some _ _ H)).
Qed.

Lemma zk_get_eq s c p :
  _zookeeper s = Some c → zk_get p s = (ZooKeeper.get p (zk s), s).
Proof.
  intros H. unfold zk_get. by rewrite (bind_Return_eq _ _ _ _ _ (zookeeper_Some _ _ H)).
Qed.

Lemma zk_create_eq s c p v eph mk :
  _zookeeper s = Some c →
  zk_create p v eph mk s
  = ((ZooKeeper.create (KazooClient.session c) p v eph mk (zk s)).1,
     set_zk (ZooKeeper.create (KazooClient.session c) p v eph mk (zk s)).2 s).
Proof.
  intros H. unfold zk_create. rewrite (bind_Return_eq _ _ _ _ _ (zookeeper_Some _ _ H)).
  by destruct (ZooKeeper.create _ _ _ _ _ _).
Qed.

Lemma zk_delete_eq s c p :
  _zookeeper s = Some c →
  zk_delete p s = ((ZooKeeper.delete p (zk s)).1, set_zk (ZooKeeper.delete p (zk s)).2 s).
Proof.
  intros H. unfold zk_delete. rewrite (bind_Return_eq _ _ _ _ _ (zookeeper_Some _ _ H)).
  by destruct (ZooKeeper.delete _ _).
Qed.

Lemma participants_body s c (cfg : Config) (x : string) (acc : list string) :
  _zookeeper s = Some c →
  try_except
    (topic <- zk_get (_consumer_id_path cfg ++ [x]) ;;
     if String.eqb topic (Topic.name (_topic cfg))
     then ret (acc ++ [x])
     else ret acc)
    (λ e, match e with
          | NoNodeException => Some (ret acc)
          | _ => None
          end) s
  = (Return (if is_registered cfg (zk s) x then acc ++ [x] else acc), s).
Proof.
  intros Hz. unfold try_except, bind. rewrite (zk_get_eq _ _ _ Hz).
  unfold ZooKeeper.get, is_registered.
  destruct (zk s !! (_consumer_id_path cfg ++ [x])) as [n|]; [|done].
  by destruct (String.eqb _ _).
Qed.

Lemma participants_loop s c (cfg : Config) (l acc : list string) :
  _zookeeper s = Some c →
  for_ l acc (λ id_ participants,
    try_except
      (topic <- zk_get (_consumer_id_path cfg ++ [id_]) ;;
       if String.eqb topic (Topic.name (_topic cfg))
       then ret (participants ++ [id_])
       else ret participants)
      (λ e, match e with
            | NoNodeException => Some (ret participants)
            | _ => None
            end)) s
  = (Return (acc ++ filter (λ c, is_registered cfg (zk s) c) l), s).
Proof.
  intros Hz. revert acc. induction l as [|x l IH]; intros acc; cbn [for_].
  - by rewrite filter_nil, app_nil_r.
  - rewrite (bind_Return_eq _ _ _ _ _ (participants_body s c cfg x acc Hz)), IH.
    rewrite filter_cons.
    destruct (is_registered cfg (zk s) x) eqn:Hx; case_decide as Hd;
      simpl in Hd; try done; try (by destruct Hd).
    by rewrite <- app_assoc.
Qed.

Lemma get_participants_eq s c :
  _zookeeper s = Some c →
  _get_participants s = (Return (participants_of (config s) (zk s)), s).
Proof.
  intros Hz. unfold _get_participants. unfold bind at 1, gets at 1.
  match goal with
  | |- bind ?m ?k s = _ =>
      assert (m s = (Return (match zk s !! _consumer_id_path (config s) with
                             | Some _ => Some (ZooKeeper.children (zk s)
                                                 (_consumer_id_path (config s)))
                             | None => None
                             end), s)) as Hm
  end.
  { unfold try_except, bind. rewrite (zk_get_children_eq _ _ _ Hz).
    unfold ZooKeeper.get_children.
    by destruct (zk s !! _consumer_id_path (config s)). }
  rewrite (bind_Return_eq _ _ _ _ _ Hm). unfold participants_of.
  destruct (zk s !! _consumer_id_path (config s)); [|done].
  by rewrite (bind_Return_eq _ _ _ _ _ (participants_loop s c (config s) _ [] Hz)).
Qed.

Lemma get_participants_Return s P s' :
  _get_participants s = (Return P, s') →
  s' = s ∧ is_Some (_zookeeper s) ∧ P = participants_of (config s) (zk s).
Proof.
  intros H. destruct (_zookeeper s) as [c|] eqn:Hz.
  - rewrite (get_participants_eq _ _ Hz) in H. injection H as <- <-. eauto.
  - exfalso. revert H. unfold _get_participants. unfold bind at 1, gets at 1.
    unfold bind at 1, try_except. unfold bind at 1, zk_get_children. unfold bind at 1.
    unfold zookeeper. rewrite Hz. done.
Qed.

End registry_reads.

(** What the first loop of [_get_held_partitions] collects from the
    records [slugs]: the partition ids of those that name this member. *)
Fixpoint held_ids (cfg : Config) (st : gmap (list string) ZooKeeper.node)
    (slugs : list string) (acc : gset Z) : Outcome (gset Z) :=
  match slugs with
  | [] => Return acc
  | slug :: rest =>
      if owns cfg st slug then
        match slug_partition_id slug with
        | Return i => held_ids cfg st rest (acc ∪ {[i]})
        | Raise e => Raise e
        | Blocked => Blocked
        | OutOfFuel => OutOfFuel
        end
      else held_ids cfg st rest acc
  end.

(** What its second loop builds from the ids. *)
Fixpoint held_parts (tp : Topic.t) (ids : list Z) (acc : gset Partition.t)
    : Outcome (gset Partition.t) :=
  match ids with
  | [] => Return acc
  | i :: rest =>
      match Topic.partitions tp !! i with
      | Some p => held_parts tp rest (acc ∪ {[p]})
      | None => Raise KeyError
      end
  end.

(** What [_get_held_partitions] answers on the coordinator [st]. *)
Definition held_of (cfg : Config) (st : gmap (list string) ZooKeeper.node)
    : Outcome (gset Partition.t) :=
  match st !! _topic_path cfg with
  | None => Raise NoNodeException
  | Some _ =>
      match held_ids cfg st (ZooKeeper.children st (_topic_path cfg)) ∅ with
      | Return ids => held_parts (_topic cfg) (elements ids) ∅
      | Raise e => Raise e
      | Blocked => Blocked
      | OutOfFuel => OutOfFuel
      end
  end.

Section registry_held.

Lemma held_body s c (cfg : Config) (slug : string) (acc : gset Z) :
  _zookeeper s = Some c →
  try_except
    (owner_id <- zk_get (_topic_path cfg ++ [slug]) ;;
     if String.eqb owner_id (_consumer_id cfg)
     then i <- lift (slug_partition_id slug) ;; ret (acc ∪ {[i]})
     else ret acc)
    (λ e, match e with
          | NoNodeException => Some (ret acc)
          | _ => None
          end) s
  = (if owns cfg (zk s) slug then
       match slug_partition_id slug with
       | Return i => Return (acc ∪ {[i]})
       | Raise e => Raise e
       | Blocked => Blocked
       | OutOfFuel => OutOfFuel
       end
     else Return acc, s).
Proof.
  intros Hz. unfold try_except, bind. rewrite (zk_get_eq _ _ _ Hz).
  unfold ZooKeeper.get, owns.
  destruct (zk s !! (_topic_path cfg ++ [slug])) as [n|]; [|done].
  destruct (String.eqb _ _); [|done].
  unfold lift, slug_partition_id. destruct (_ !! _); [|done].
  by destruct (Py.int _).
Qed.

Lemma held_ids_loop s c (cfg : Config) (slugs : list string) (acc : gset Z) :
  _zookeeper s = Some c →
  for_ slugs acc (λ partition_slug zk_partition_ids,
    try_except
      (owner_id <- zk_get (_topic_path cfg ++ [partition_slug]) ;;
       if String.eqb owner_id (_consumer_id cfg)
       then i <- lift (slug_partition_id partition_slug) ;;
            ret (zk_partition_ids ∪ {[i]})
       else ret zk_partition_ids)
      (λ e, match e with
            | NoNodeException => Some (ret zk_partition_ids)
            | _ => None
            end)) s
  = (held_ids cfg (zk s) slugs acc, s).
Proof.
  intros Hz. revert acc. induction slugs as [|slug slugs IH]; intros acc; cbn [for_ held_ids].
  - done.
  - unfold bind at 1. rewrite (held_body s c cfg slug acc Hz).
    destruct (owns cfg (zk s) slug); [|apply IH].
    destruct (slug_partition_id slug); first [done|apply IH].
Qed.

Lemma held_parts_loop s (tp : Topic.t) (ids : list Z) (acc : gset Partition.t) :
  for_ ids acc (λ _id held,
    match Topic.partitions tp !! _id with
    | Some p => ret (held ∪ {[p]})
    | None => raise KeyError
    end) s
  = (held_parts tp ids acc, s).
Proof.
  revert acc. induction ids as [|i ids IH]; intros acc; cbn [for_ held_parts]; [done|].
  unfold bind at 1. destruct (Topic.partitions tp !! i); [apply IH|done].
Qed.

Lemma get_held_partitions_eq s c :
  _zookeeper s = Some c →
  _get_held_partitions s = (held_of (config s) (zk s), s).
Proof.
  intros Hz. unfold _get_held_partitions. unfold bind at 1, gets at 1.
  unfold bind at 1. rewrite (zk_get_children_eq _ _ _ Hz).
  unfold ZooKeeper.get_children, held_of.
  destruct (zk s !! _topic_path (config s)); [|done].
  unfold bind at 1. rewrite (held_ids_loop s c (config s) _ ∅ Hz).
  destruct (held_ids _ _ _ _); try done. apply held_parts_loop.
Qed.

Lemma get_held_partitions_Return s H s' :
  _get_held_partitions s = (Return H, s') →
  s' = s ∧ is_Some (_zookeeper s) ∧ held_of (config s) (zk s) = Return H.
Proof.
  intros Hrun. destruct (_zookeeper s) as [c|] eqn:Hz.
  - rewrite (get_held_partitions_eq _ _ Hz) in Hrun. injection Hrun as -> <-. eauto.
  - exfalso. revert Hrun. unfold _get_held_partitions. unfold bind at 1, gets at 1.
    unfold bind at 1, zk_get_children. unfold bind at 1, zookeeper. by rewrite Hz.
Qed.

Lemma held_ids_Return cfg st slugs acc ids :
  held_ids cfg st slugs acc = Return ids →
  (∀ slug, slug ∈ slugs → owns cfg st slug → ∃ i, slug_partition_id slug = Return i) ∧
  (∀ i, i ∈ ids ↔
        i ∈ acc ∨ ∃ slug, slug ∈ slugs ∧ owns cfg st slug ∧ slug_partition_id slug = Return i).
Proof.
  revert acc. induction slugs as [|slug slugs IH]; intros acc; cbn [held_ids].
  - intros [= <-]. split; [by intros ? ?%elem_of_nil|].
    intros i. split; [auto|]. intros [?|(? & ?%elem_of_nil & _)]; done.
  - destruct (owns cfg st slug) eqn:Ho.
    + destruct (slug_partition_id slug) as [j| | |] eqn:Hj; try done.
      intros [H1 H2]%IH. split.
      * intros slug' [-> |Hin]%elem_of_cons Ho'; [by eexists|by apply H1].
      * intros i. rewrite H2, elem_of_union, elem_of_singleton. split.
        -- intros [[?| ->]|(slug' & Hin & Ho' & Hi)]; [by left| |].
           ++ right. exists slug. rewrite Ho. by split; [left|].
           ++ right. exists slug'. by split; [right|].
        -- intros [?|(slug' & [-> |Hin]%elem_of_cons & Ho' & Hi)]; [by left; left| |].
           ++ left; right. congruence.
           ++ right. by exists slug'.
    + intros [H1 H2]%IH. split.
      * intros slug' [-> |Hin]%elem_of_cons Ho'; [by rewrite Ho in Ho'|by apply H1].
      * intros i. rewrite H2. split.
        -- intros [?|(slug' & Hin & Ho' & Hi)]; [by left|].
           right. exists slug'. by split; [right|].
        -- intros [?|(slug' & [-> |Hin]%elem_of_cons & Ho' & Hi)]; [by left| |].
           ++ by rewrite Ho in Ho'.
           ++ right. by exists slug'.
Qed.

Lemma held_ids_returns cfg st slugs acc :
  (∀ slug, slug ∈ slugs → owns cfg st slug → ∃ i, slug_partition_id slug = Return i) →
  ∃ ids, held_ids cfg st slugs acc = Return ids.
Proof.
  revert acc. induction slugs as [|slug slugs IH]; intros acc Hall; cbn [held_ids].
  - by eexists.
  - destruct (owns cfg st slug) eqn:Ho.
    + destruct (Hall slug) as [i ->]; [by left|by rewrite Ho|].
      apply IH. intros slug' Hin. apply Hall. by right.
    + apply IH. intros slug' Hin. apply Hall. by right.
Qed.

Lemma held_parts_Return tp ids acc H :
  held_parts tp ids acc = Return H →
  (∀ i, i ∈ ids → is_Some (Topic.partitions tp !! i)) ∧
  (∀ q, q ∈ H ↔ q ∈ acc ∨ ∃ i, i ∈ ids ∧ Topic.partitions tp !! i = Some q).
Proof.
  revert acc. induction ids as [|i ids IH]; intros acc; cbn [held_parts].
  - intros [= <-]. split; [by intros ? ?%elem_of_nil|].
    intros q. split; [auto|]. intros [?|(? & ?%elem_of_nil & _)]; done.
  - destruct (Topic.partitions tp !! i) as [p|] eqn:Hp; [|done].
    intros [H1 H2]%IH. split.
    + intros j [-> |Hin]%elem_of_cons; [by eexists|by apply H1].
    + intros q. rewrite H2, elem_of_union, elem_of_singleton. split.
      * intros [[?| ->]|(j & Hin & Hj)]; [by left| |].
        -- right. exists i. by split; [left|].
        -- right. exists j. by split; [right|].
      * intros [?|(j & [-> |Hin]%elem_of_cons & Hj)]; [by left; left| |].
        -- left; right. congruence.
        -- right. by exists j.
Qed.

Lemma held_parts_returns tp ids acc :
  (∀ i, i ∈ ids → is_Some (Topic.partitions tp !! i)) →
  ∃ H, held_parts tp ids acc = Return H.
Proof.
  revert acc. induction ids as [|i ids IH]; intros acc Hall; cbn [held_parts].
  - by eexists.
  - destruct (Hall i) as [p ->]; [by left|]. apply IH. intros j Hin. apply Hall. by right.
Qed.

(** The held set is read off the records that name this member. *)
Lemma held_of_Return cfg st H :
  held_of cfg st = Return H →
  is_Some (st !! _topic_path cfg) ∧
  (∀ slug, owns cfg st slug →
     ∃ i q, slug_partition_id slug = Return i ∧
            Topic.partitions (_topic cfg) !! i = Some q ∧ q ∈ H) ∧
  (∀ q, q ∈ H →
     ∃ slug i, owns cfg st slug ∧ slug_partition_id slug = Return i ∧
               Topic.partitions (_topic cfg) !! i = Some q).
Proof.
  unfold held_of. destruct (st !! _topic_path cfg) as [n|] eqn:Hroot; [|done].
  destruct (held_ids _ _ _ _) as [ids| | |] eqn:Hids; try done.
  intros Hparts. split; [done|].
  apply held_ids_Return in Hids as [Hi1 Hi2].
  apply held_parts_Return in Hparts as [Hp1 Hp2].
  assert (∀ slug, owns cfg st slug → slug ∈ ZooKeeper.children st (_topic_path cfg)) as Hchild.
  { intros slug Ho. apply elem_of_children. unfold owns in Ho.
    by destruct (st !! (_topic_path cfg ++ [slug])). }
  split.
  - intros slug Ho. destruct (Hi1 slug (Hchild slug Ho) Ho) as [i Hi].
    assert (i ∈ ids) as Hin
      by (apply Hi2; right; exists slug; split; [by apply Hchild|done]).
    destruct (Hp1 i) as [q Hq]; [by apply elem_of_elements|].
    exists i, q. split; [done|]. split; [done|]. apply Hp2. right. exists i.
    split; [by apply elem_of_elements|done].
  - intros q [Hq|(i & Hin & Hq)]%Hp2; [set_solver|].
    apply elem_of_elements, Hi2 in Hin as [?|(slug & _ & Ho & Hi)]; [set_solver|].
    by exists slug, i.
Qed.

Lemma held_of_returns cfg st :
  is_Some (st !! _topic_path cfg) →
  (∀ slug, owns cfg st slug →
     ∃ i q, slug_partition_id slug = Return i ∧
            Topic.partitions (_topic cfg) !! i = Some q) →
  ∃ H, held_of cfg st = Return H.
Proof.
  intros [n Hroot] Hall. unfold held_of. rewrite Hroot.
  destruct (held_ids_returns cfg st (ZooKeeper.children st (_topic_path cfg)) ∅)
    as [ids Hids].
  { intros slug _ Ho. destruct (Hall slug Ho) as (i & q & Hi & _). eauto. }
  rewrite Hids. apply held_parts_returns.
  intros i Hin. apply held_ids_Return in Hids as [_ Hi2].
  apply elem_of_elements, Hi2 in Hin as [?|(slug & _ & Ho & Hi)]; [set_solver|].
  destruct (Hall slug Ho) as (j & q & Hj & Hq).
  rewrite Hi in Hj. injection Hj as <-. by exists q.
Qed.

End registry_held.

(** ** Writes to the coordinator *)

Section registry_writes.
Context (env : Env).

Lemma ensure_path_lookup_old (st : gmap (list string) ZooKeeper.node) p q n :
  st !! q = Some n → ZooKeeper.ensure_path p st !! q = Some n.
Proof.
  unfold ZooKeeper.ensure_path. induction (ZooKeeper.prefixes p) as [|a l IH]; [done|].
  intros Hq. simpl. destruct (foldr _ st l !! a) eqn:Ha; [by apply IH|].
  destruct (decide (a = q)) as [->|Hne].
  - rewrite IH in Ha; done.
  - rewrite lookup_insert_ne by done. by apply IH.
Qed.

Lemma ensure_path_lookup_new (st : gmap (list string) ZooKeeper.node) p q :
  is_Some (ZooKeeper.ensure_path p st !! q) →
  is_Some (st !! q) ∨ q ∈ ZooKeeper.prefixes p.
Proof.
  unfold ZooKeeper.ensure_path. induction (ZooKeeper.prefixes p) as [|a l IH]; [by left|].
  simpl. destruct (foldr _ st l !! a) eqn:Ha.
  - intros [?|?]%IH; [by left|right; by right].
  - destruct (decide (a = q)) as [->|Hne]; [intros _; right; by left|].
    rewrite lookup_insert_ne by done. intros [?|?]%IH; [by left|right; by right].
Qed.

Lemma ensure_path_lookup_prefix (st : gmap (list string) ZooKeeper.node) p q :
  q ∈ ZooKeeper.prefixes p → is_Some (ZooKeeper.ensure_path p st !! q).
Proof.
  unfold ZooKeeper.ensure_path. induction (ZooKeeper.prefixes p) as [|a l IH];
    [by intros ?%elem_of_nil|].
  intros Hq. simpl. destruct (foldr _ st l !! a) eqn:Ha.
  - apply elem_of_cons in Hq as [->|Hq]; [by rewrite Ha|by apply IH].
  - destruct (decide (a = q)) as [->|Hne]; [by rewrite lookup_insert_eq|].
    rewrite lookup_insert_ne by done. apply elem_of_cons in Hq as [->|Hq]; [done|by apply IH].
Qed.

Lemma prefixes_length p q : q ∈ ZooKeeper.prefixes p → (length q ≤ length p)%nat.
Proof.
  unfold ZooKeeper.prefixes. intros (n & -> & Hn)%list_elem_of_fmap.
  rewrite length_take. lia.
Qed.

(** A successful [_add_self] has created the participant record, and its
    directory if it was missing. *)
Lemma add_self_Return s s' :
  _add_self s = (Return tt, s') →
  ∃ c, _zookeeper s = Some c ∧
       zk s !! _path_self (config s) = None ∧
       s' = set_zk (<[_path_self (config s) :=
                        ZooKeeper.mk (Topic.name (_topic (config s)))
                          (Some (KazooClient.session c))]>
                      (ZooKeeper.ensure_path (_consumer_id_path (config s)) (zk s))) s.
Proof.
  unfold _add_self. unfold bind at 1, gets at 1. intros H.
  apply bind_inv_Return in H as (P & s1 & HP & H).
  apply get_participants_Return in HP as (-> & [c Hz] & _).
  destruct (_ <=? _); [done|].
  rewrite (zk_create_eq _ _ _ _ _ _ Hz) in H. unfold ZooKeeper.create in H.
  exists c. split; [done|].
  destruct (zk s !! _path_self (config s)); [done|].
  split; [done|]. by injection H as <-.
Qed.

Lemma zk_delete_Return p s s' :
  zk_delete p s = (Return tt, s') →
  is_Some (zk s !! p) ∧ s' = set_zk (delete p (zk s)) s.
Proof.
  unfold zk_delete. intros H. apply bind_inv_Return in H as (c & s1 & [Hz ->]%zookeeper_Return & H).
  unfold ZooKeeper.delete in H. destruct (zk s !! p); [|done].
  injection H as <-. eauto.
Qed.

Lemma zk_delete_absent p s r s' :
  zk s !! p = None → zk_delete p s = (r, s') →
  zk s' = zk s ∧ (r = Raise NoNodeException ∨ r = Raise AttributeError).
Proof.
  intros Hp. unfold zk_delete, bind, zookeeper, ZooKeeper.delete.
  destruct (_zookeeper s); rewrite ?Hp; intros [= <- <-]; auto.
Qed.

Lemma zk_create_Return p v s s' :
  zk_create p v true false s = (Return tt, s') →
  ∃ c, _zookeeper s = Some c ∧ zk s !! p = None ∧
       s' = set_zk (<[p := ZooKeeper.mk v (Some (KazooClient.session c))]> (zk s)) s.
Proof.
  unfold zk_create. intros H. apply bind_inv_Return in H as (c & s1 & [Hz ->]%zookeeper_Return & H).
  unfold ZooKeeper.create in H. destruct (zk s !! p); [done|].
  injection H as <-. eauto.
Qed.

(** After a successful [_remove_partitions] the records of the removed
    partitions are gone and the others are as before. *)
Lemma remove_partitions_Return ps s s' :
  _remove_partitions ps s = (Return tt, s') →
  ∀ k, zk s' !! k
       = if bool_decide (k ∈ _path_from_partition (config s) <$> ps) then None
         else zk s !! k.
Proof.
  unfold _remove_partitions. unfold bind at 1, gets at 1.
  generalize (config s) as cfg. intros cfg. revert s.
  induction ps as [|p ps IH]; intros s; cbn [for_].
  - by intros [= <-] k.
  - intros H k. apply bind_inv_Return in H as ([] & s1 & Hbody & H).
    apply bind_inv_Return in Hbody as ([] & se & [= <-] & Hdel).
    apply zk_delete_Return in Hdel as [_ ->].
    rewrite (IH _ H k). rewrite fmap_cons. simpl.
    destruct (decide (k = _path_from_partition cfg p)) as [->|Hne].
    + rewrite (bool_decide_eq_true_2 (_ ∈ _ :: _)) by by left.
      rewrite lookup_delete_eq. by case_bool_decide.
    + rewrite lookup_delete_ne by done.
      case_bool_decide as Hin.
      * rewrite bool_decide_eq_true_2; [done|by right].
      * rewrite bool_decide_eq_false_2; [done|]. by intros [?|?]%elem_of_cons.
Qed.

(** [_remove_partitions] on partitions without a record changes nothing. *)
Lemma remove_partitions_absent ps s r s' :
  (∀ p, p ∈ ps → zk s !! _path_from_partition (config s) p = None) →
  _remove_partitions ps s = (r, s') →
  zk s' = zk s ∧ (ps = [] → r = Return tt) ∧ ∀ p, r ≠ Raise (PartitionOwnedError p).
Proof.
  unfold _remove_partitions. unfold bind at 1, gets at 1.
  destruct ps as [|p ps]; cbn [for_].
  - intros _ [= <- <-]. done.
  - intros Habs. unfold bind at 1, bind at 1. simpl.
    destruct (zk_delete _ _) as [r1 s1] eqn:Hdel.
    apply zk_delete_absent in Hdel as [Hzk [-> | ->]]; [| |simpl; apply Habs; by left].
    + intros [= <- <-]. done.
    + intros [= <- <-]. done.
Qed.

(** After a successful [_add_partitions] the claimed partitions have a
    record that names this member, and the other records are as before. *)
Lemma add_partitions_Return ps s s' :
  _add_partitions ps s = (Return tt, s') →
  ∀ k, (k ∈ _path_from_partition (config s) <$> ps →
        ∃ n, zk s' !! k = Some n ∧ ZooKeeper.data n = _consumer_id (config s)) ∧
       (k ∉ _path_from_partition (config s) <$> ps → zk s' !! k = zk s !! k).
Proof.
  unfold _add_partitions. unfold bind at 1, gets at 1.
  generalize (config s) as cfg. intros cfg. revert s.
  induction ps as [|p ps IH]; intros s; cbn [for_].
  - intros [= <-] k. split; [by intros ?%elem_of_nil|done].
  - intros H k. apply bind_inv_Return in H as ([] & s1 & Hbody & H).
    apply bind_inv_Return in Hbody as ([] & se & [= <-] & Hcr).
    assert (zk_create (_path_from_partition cfg p) (_consumer_id cfg) true false
              (set_trace (trace s ++ [AddPartition p]) s) = (Return tt, s1)) as Hcr'.
    { revert Hcr. unfold try_except. destruct (zk_create _ _ _ _ _) as [[[]|e| |] sx]; try done.
      by destruct e. }
    apply zk_create_Return in Hcr' as (c & _ & Hnone & ->).
    destruct (IH _ H k) as [IH1 IH2]. cbn [zk set_zk set_trace] in IH2.
    rewrite fmap_cons. split.
    + intros Hin.
      destruct (decide (k ∈ _path_from_partition cfg <$> ps)) as [Hin'|Hnin]; [by apply IH1|].
      apply elem_of_cons in Hin as [->|?]; [|done].
      rewrite IH2 by done. rewrite lookup_insert_eq. by eexists.
    + intros Hnin. apply not_elem_of_cons in Hnin as [Hne Hnin].
      rewrite IH2 by done. by rewrite lookup_insert_ne.
Qed.

(** The inner consumer built over partitions with different ids consumes
    exactly these partitions. *)
Lemma consumer_partitions_new off (ps : list Partition.t) r a :
  NoDup (Partition.id <$> ps) →
  list_to_set (values (SimpleConsumer.partitions (SimpleConsumer.new off ps r a)))
  =@{gset Partition.t} list_to_set ps.
Proof.
  intros Hnd. apply set_eq. intros q. rewrite !elem_of_list_to_set, elem_of_values.
  unfold SimpleConsumer.partitions, SimpleConsumer.new. simpl. split.
  - intros [k Hk]. rewrite lookup_fmap in Hk. apply fmap_Some in Hk as (op & Hop & ->).
    apply elem_of_list_to_map_2, list_elem_of_fmap in Hop as (p & [= -> ->] & Hp).
    done.
  - intros Hq. exists (Partition.id q). rewrite lookup_fmap.
    rewrite (elem_of_list_to_map_1 _ (Partition.id q) (OwnedPartition.mk q (off q))); [done| |].
    + by rewrite <- list_fmap_compose.
    + apply list_elem_of_fmap. by exists q.
Qed.

Lemma setup_internal_consumer_Return ps s :
  ∃ s', _setup_internal_consumer env ps true s = (Return tt, s') ∧
        zk s' = zk s ∧ config s' = config s ∧ _zookeeper s' = _zookeeper s ∧
        (NoDup (Partition.id <$> ps) → _partitions s' = list_to_set ps).
Proof.
  unfold _setup_internal_consumer. unfold bind at 1, gets at 1.
  unfold bind at 1, gets at 1.
  destruct (_consumer s) as [c|]; eexists; (split; [reflexivity|]); simpl;
    (split; [done|split; [done|split; [done|]]]).
  all: intros Hnd; unfold _partitions, partitions; simpl;
    by apply consumer_partitions_new.
Qed.

End registry_writes.

(** ** A member whose registry agrees with its assignment *)

(** The name of the ownership record of a partition. *)
Definition slug_of (p : Partition.t) : string :=
  (Py.str (Broker.id (Partition.leader p)) ++ "-" ++ Py.str (Partition.id p))%string.

(** [steady A s]: the member is registered, its assignment is [A], it
    consumes [A], every partition of [A] has a record that names the
    member, and every record that names the member is for a partition of
    [A], or for a partition whose own record is gone. *)
Record steady (A : gset Partition.t) (s : State) : Prop := {
  steady_client : is_Some (_zookeeper s);
  steady_member : _consumer_id (config s) ∈ participants_of (config s) (zk s);
  steady_assignment :
    _decide_partitions (config s) (participants_of (config s) (zk s)) = Return A;
  steady_nonempty : A ≠ ∅;
  steady_consumer : _partitions s = A;
  steady_root : is_Some (zk s !! _topic_path (config s));
  steady_covered :
    ∀ p, p ∈ A →
      ∃ slug, owns (config s) (zk s) slug ∧
              slug_partition_id slug = Return (Partition.id p);
  steady_owned :
    ∀ slug, owns (config s) (zk s) slug →
      ∃ q, slug_partition_id slug = Return (Partition.id q) ∧
           Topic.partitions (_topic (config s)) !! Partition.id q = Some q ∧
           (q ∈ A ∨ zk s !! _path_from_partition (config s) q = None)
}.

(** [quiet]: the coordinator, the inner consumer and what the rebalance
    reads of the object are as before, and the inner consumer was neither
    stopped nor created. *)
Definition quiet : relation State := λ s s',
  same (λ s, (zk s, _consumer s, config s, _zookeeper s, _running s)) s s' ∧
  extends (λ e, is_inner_lifecycle e = false) s s'.

Global Instance quiet_preorder : PreOrder quiet.
Proof.
  split.
  - intros s. split; reflexivity.
  - intros s1 s2 s3 [H1 E1] [H2 E2]. split; by etrans.
Qed.

Ltac quiet_leaf :=
  first [ split; [reflexivity|by apply extends_same_trace]
        | split; [reflexivity|eexists [_]; split; [reflexivity|by repeat constructor]]
        | done ].

Section steady_facts.
Context (env : Env).

Lemma path_from_partition_slug cfg p :
  _path_from_partition cfg p = _topic_path cfg ++ [slug_of p].
Proof. done. Qed.

Lemma wf_lookup (tp : Topic.t) k p :
  Topic.wf tp → Topic.partitions tp !! k = Some p →
  Partition.id p = k ∧ 0 ≤ k ∧ 0 ≤ Broker.id (Partition.leader p).
Proof.
  intros Hwf Hp. destruct (map_Forall_lookup_1 _ _ _ _ Hwf Hp) as (? & ? & ? & _). done.
Qed.

Lemma wf_lookup_id (tp : Topic.t) k p :
  Topic.wf tp → Topic.partitions tp !! k = Some p →
  Topic.partitions tp !! Partition.id p = Some p.
Proof. intros Hwf Hp. by destruct (wf_lookup _ _ _ Hwf Hp) as (-> & _). Qed.

Lemma slug_of_roundtrip (tp : Topic.t) k p :
  Topic.wf tp → Topic.partitions tp !! k = Some p →
  slug_partition_id (slug_of p) = Return (Partition.id p).
Proof.
  intros Hwf Hp. destruct (wf_lookup _ _ _ Hwf Hp) as (Hid & Hk & Hl).
  apply slug_roundtrip; [done|lia].
Qed.

(** The partitions of an assignment are partitions of the topic. *)
Lemma decide_partitions_subset cfg P A p :
  _decide_partitions cfg P = Return A → p ∈ A →
  ∃ k, Topic.partitions (_topic cfg) !! k = Some p.
Proof.
  intros Hd Hp. unfold _decide_partitions in Hd.
  destruct (Py.index _ _); [|done]. destruct (_ =? _); [done|].
  injection Hd as <-. apply elem_of_list_to_set in Hp.
  unfold Py.islice in Hp. apply subseteq_take, subseteq_drop in Hp.
  by apply elem_of_sorted, elem_of_values in Hp.
Qed.

Lemma steady_quiet A s s' : steady A s → quiet s s' → steady A s'.
Proof.
  intros [] [Hsame _]. injection Hsame as Hzk Hc Hcfg Hz Hr.
  assert (_partitions s' = _partitions s) as Hp
    by (unfold _partitions, partitions; by rewrite Hc).
  split; rewrite ?Hzk, ?Hcfg, ?Hz, ?Hp; done.
Qed.

Lemma quiet_get_participants : preserves quiet _get_participants.
Proof. apply preserves_eq_any; [apply _|apply eq_get_participants]. Qed.

Lemma quiet_get_held_partitions : preserves quiet _get_held_partitions.
Proof. apply preserves_eq_any; [apply _|apply eq_get_held_partitions]. Qed.

Lemma quiet_commit_offsets : preserves quiet (commit_offsets env).
Proof. unfold commit_offsets, _raise_worker_exceptions. frame quiet_leaf. Qed.

Lemma consumer_remove_partitions ps :
  preserves (same (λ s, (_consumer s, config s, _zookeeper s, _running s)))
    (_remove_partitions ps).
Proof. unfold _remove_partitions. frame same_leaf. Qed.

Lemma consumer_add_partitions ps :
  preserves (same (λ s, (_consumer s, config s, _zookeeper s, _running s)))
    (_add_partitions ps).
Proof. unfold _add_partitions. frame same_leaf. Qed.

Lemma lifecycle_remove_partitions ps :
  preserves (extends (λ e, is_inner_lifecycle e = false)) (_remove_partitions ps).
Proof. unfold _remove_partitions. frame same_leaf. Qed.

End steady_facts.

Section second_attempt.
Context (env : Env).

(** From a steady state a pass of the retry loop finds nothing to do: no
    record is removed or created and the inner consumer is kept. *)
Lemma rebalance_attempt_steady A s r s' :
  Topic.wf (_topic (config s)) → steady A s →
  rebalance_attempt env s = (r, s') →
  quiet s s' ∧ r ≠ Return true ∧ ∀ p, r ≠ Raise (PartitionOwnedError p).
Proof.
  intros Hwf Hst. destruct Hst as [[c Hz] Hmem Hdec Hne Hmine Hroot Hcov Hown].
  unfold rebalance_attempt. unfold bind at 1, gets at 1.
  rewrite (bind_Return_eq _ _ _ _ _ (get_participants_eq _ _ Hz)).
  rewrite bool_decide_eq_true_2 by done.
  unfold bind at 1, ret at 1. unfold bind at 1, lift at 1. rewrite Hdec.
  rewrite decide_False by done.
  destruct (held_of_returns (config s) (zk s) Hroot) as [H' HH'].
  { intros slug Ho. destruct (Hown slug Ho) as (q & Hq & HT & _). eauto. }
  assert (_get_held_partitions s = (Return H', s)) as Hheld
    by (by rewrite (get_held_partitions_eq _ _ Hz), HH').
  rewrite (bind_Return_eq _ _ _ _ _ Hheld).
  apply held_of_Return in HH' as (_ & Hslug & Hback).
  assert (A ⊆ H') as Hsub.
  { intros p Hp. destruct (Hcov p Hp) as (slug & Ho & Hid).
    destruct (Hslug slug Ho) as (i & q & Hi & Hq & HqH).
    rewrite Hid in Hi. injection Hi as <-.
    destruct (decide_partitions_subset _ _ _ _ Hdec Hp) as [k Hk].
    rewrite (wf_lookup_id _ _ _ Hwf Hk) in Hq. by injection Hq as <-. }
  assert (∀ q, q ∈ elements (H' ∖ A) → zk s !! _path_from_partition (config s) q = None)
    as Habs.
  { intros q [HqH HqA]%elem_of_elements%elem_of_difference.
    destruct (Hback q HqH) as (slug & i & Ho & Hi & Hq).
    destruct (Hown slug Ho) as (q' & Hi' & Hq' & [?|?]).
    - rewrite Hi' in Hi. injection Hi as <-. rewrite Hq' in Hq. by injection Hq as <-.
    - rewrite Hi' in Hi. injection Hi as <-. rewrite Hq' in Hq. by injection Hq as <-. }
  unfold bind at 1.
  destruct (_remove_partitions (elements (H' ∖ A)) s) as [r1 s1] eqn:Hrm.
  pose proof (remove_partitions_absent _ _ _ _ Habs Hrm) as (Hzk1 & _ & Hr1).
  pose proof (consumer_remove_partitions _ _ _ _ Hrm) as Hsame1.
  injection Hsame1 as Hc1 Hcfg1 Hz1 Hrun1.
  pose proof (lifecycle_remove_partitions _ _ _ _ Hrm) as Hev1.
  assert (quiet s s1) as Hq1 by (split; [unfold same; congruence|done]).
  destruct r1 as [[]|e1| |]; try (intros [= <- <-]; split; [done|split; [done|]]; done).
  - replace (elements (A ∖ H')) with (@nil Partition.t).
    2:{ symmetry. apply elements_empty_iff. set_solver. }
    unfold _add_partitions. unfold bind at 1, gets at 1. cbn [for_].
    unfold bind at 1, ret at 1. unfold bind at 1, gets at 1.
    assert (_partitions s1 = A) as ->
      by (unfold _partitions, partitions in *; by rewrite Hc1).
    rewrite decide_False by (intros ?; done).
    intros [= <- <-]. split; [|done].
    etrans; [exact Hq1|]. quiet_leaf.
  - intros [= <- <-]. split; [done|]. split; [done|]. intros p [= ->]. by apply (Hr1 p).
Qed.

(** The retry loop in a steady state, or without any turn to run. *)
Lemma rebalance_loop_quiet A s r s' :
  (_rebalance_max_retries (config s) ≤ 0 ∨
   Topic.wf (_topic (config s)) ∧ steady A s) →
  rebalance_loop env (Py.range (_rebalance_max_retries (config s))) s = (r, s') →
  quiet s s' ∧ r ≠ Return true.
Proof.
  unfold Py.range. intros [Hmax|[Hwf Hst]].
  - replace (Z.to_nat _) with 0%nat by lia. by intros [= <- <-].
  - destruct (Z.to_nat _) as [|n]; [by intros [= <- <-]|].
    change (seq 0 (S n)) with (0%nat :: seq 1 n). rewrite fmap_cons.
    destruct (rebalance_attempt env s) as [ra sa] eqn:Ha.
    destruct (rebalance_attempt_steady _ _ _ _ Hwf Hst Ha) as (Hq & Hnt & Hno).
    rewrite (rebalance_loop_attempt_done env _ _ _ _ _ Ha Hno).
    by intros [= <- <-].
Qed.

End second_attempt.

(** ** The registry after a completed pass *)

Section registry_settled.

Lemma owns_spec (cfg : Config) (st : gmap (list string) ZooKeeper.node) (slug : string) :
  owns cfg st slug ↔
  ∃ n, st !! (_topic_path cfg ++ [slug]) = Some n ∧ ZooKeeper.data n = _consumer_id cfg.
Proof.
  unfold owns. destruct (st !! _) as [n|]; simpl.
  - destruct (String.eqb_spec (ZooKeeper.data n) (_consumer_id cfg)) as [He|He].
    + split; [by exists n|done].
    + split; [done|]. by intros (? & [= <-] & ?).
  - split; [done|]. by intros (? & ? & ?).
Qed.

Lemma is_registered_spec (cfg : Config) (st : gmap (list string) ZooKeeper.node) (c : string) :
  is_registered cfg st c ↔
  ∃ n, st !! (_consumer_id_path cfg ++ [c]) = Some n ∧
       ZooKeeper.data n = Topic.name (_topic cfg).
Proof.
  unfold is_registered. destruct (st !! _) as [n|]; simpl.
  - destruct (String.eqb_spec (ZooKeeper.data n) (Topic.name (_topic cfg))) as [He|He].
    + split; [by exists n|done].
    + split; [done|]. by intros (? & [= <-] & ?).
  - split; [done|]. by intros (? & ? & ?).
Qed.

Lemma elem_of_registered (cfg : Config) (st : gmap (list string) ZooKeeper.node) (c : string) :
  c ∈ registered cfg st ↔ is_registered cfg st c.
Proof.
  unfold registered. rewrite list_elem_of_filter, elem_of_children. split; [by intros []|].
  intros H. split; [done|]. apply is_registered_spec in H as (n & -> & _). by eexists.
Qed.

Lemma NoDup_registered (cfg : Config) (st : gmap (list string) ZooKeeper.node) :
  NoDup (registered cfg st).
Proof. apply NoDup_filter, NoDup_children. Qed.

Lemma elem_of_participants_of (cfg : Config) (st : gmap (list string) ZooKeeper.node) (c : string) :
  rooted st → c ∈ participants_of cfg st ↔ is_registered cfg st c.
Proof.
  intros Hroot. unfold participants_of.
  destruct (st !! _consumer_id_path cfg) eqn:Hp.
  - by rewrite elem_of_sorted, elem_of_registered.
  - split; [by intros ?%elem_of_nil|].
    intros (n & Hn & _)%is_registered_spec. exfalso.
    destruct (Hroot (_consumer_group cfg) c) as [m Hm]; [by eexists|].
    unfold _consumer_id_path in Hp. by rewrite Hp in Hm.
Qed.

Lemma NoDup_participants_of (cfg : Config) (st : gmap (list string) ZooKeeper.node) :
  NoDup (participants_of cfg st).
Proof.
  unfold participants_of. destruct (st !! _); [|constructor].
  apply sorted_NoDup, NoDup_registered.
Qed.

(** The participants are read from the participants directory and its
    records only. *)
Lemma participants_of_agree (cfg : Config) (st st' : gmap (list string) ZooKeeper.node) :
  (∀ k, (length k ≤ 4)%nat → st' !! k = st !! k) →
  participants_of cfg st' = participants_of cfg st.
Proof.
  intros Hag. unfold participants_of. rewrite (Hag (_consumer_id_path cfg)) by (simpl; lia).
  destruct (st !! _consumer_id_path cfg); [|done].
  apply sorted_id_perm, NoDup_Permutation; [apply NoDup_registered..|].
  intros c. rewrite !elem_of_registered, !is_registered_spec.
  rewrite (Hag (_consumer_id_path cfg ++ [c])) by (simpl; lia). done.
Qed.

Lemma ensure_path_lookup_other (st : gmap (list string) ZooKeeper.node) p q :
  q ∉ ZooKeeper.prefixes p → ZooKeeper.ensure_path p st !! q = st !! q.
Proof.
  intros Hq. destruct (st !! q) as [n|] eqn:Hst.
  - by apply ensure_path_lookup_old.
  - apply eq_None_not_Some. intros [H|H]%ensure_path_lookup_new; [|done].
    rewrite Hst in H. by destruct H.
Qed.

Lemma path_self_dir (cfg : Config) : _path_self cfg ≠ _consumer_id_path cfg.
Proof. unfold _path_self. intros H%(f_equal length). rewrite length_app in H. simpl in H. lia. Qed.

(** The participant record and its directory, created together, keep the
    coordinator a tree. *)
Lemma rooted_add_self (cfg : Config) (st : gmap (list string) ZooKeeper.node) n :
  rooted st →
  rooted (<[_path_self cfg := n]> (ZooKeeper.ensure_path (_consumer_id_path cfg) st)) ∧
  is_Some ((<[_path_self cfg := n]> (ZooKeeper.ensure_path (_consumer_id_path cfg) st))
             !! _consumer_id_path cfg).
Proof.
  intros Hroot.
  assert (is_Some ((<[_path_self cfg := n]>
                      (ZooKeeper.ensure_path (_consumer_id_path cfg) st))
                     !! _consumer_id_path cfg)) as Hdir.
  { rewrite lookup_insert_ne by apply path_self_dir.
    apply ensure_path_lookup_prefix. unfold ZooKeeper.prefixes.
    apply list_elem_of_fmap. exists 3%nat. split; [done|]. simpl.
    do 2 apply list_elem_of_further. apply list_elem_of_here. }
  split; [|done]. intros g c Hgc.
  destruct (decide (["consumers"; g; "ids"; c]%string = _path_self cfg)) as [He|He].
  - unfold _path_self, _consumer_id_path in He. simpl in He. injection He as -> ->.
    exact Hdir.
  - rewrite lookup_insert_ne in Hgc by done.
    rewrite ensure_path_lookup_other in Hgc
      by (intros H%prefixes_length; simpl in H; lia).
    apply Hroot in Hgc as [m Hm]. rewrite lookup_insert_ne.
    + exists m. by apply ensure_path_lookup_old.
    + unfold _path_self. intros H%(f_equal length). rewrite length_app in H.
      simpl in H. lia.
Qed.

(** The participants once the member has registered itself. *)
Lemma participants_of_add_self (cfg : Config) (st : gmap (list string) ZooKeeper.node) n :
  rooted st → ZooKeeper.data n = Topic.name (_topic cfg) →
  _consumer_id cfg ∉ participants_of cfg st →
  let st' := <[_path_self cfg := n]> (ZooKeeper.ensure_path (_consumer_id_path cfg) st) in
  _consumer_id cfg ∈ participants_of cfg st' ∧
  participants_of cfg st ++ [_consumer_id cfg] ≡ₚ participants_of cfg st'.
Proof.
  intros Hroot Hn Hnot st'.
  destruct (rooted_add_self cfg st n Hroot) as [Hroot' Hdir]. fold st' in Hroot', Hdir.
  assert (∀ c, c ≠ _consumer_id cfg →
            st' !! (_consumer_id_path cfg ++ [c]) = st !! (_consumer_id_path cfg ++ [c]))
    as Hother.
  { intros c Hc. unfold st'.
    rewrite lookup_insert_ne by (unfold _path_self; intros [_ [= ?]]%app_inj_tail; done).
    apply ensure_path_lookup_other. intros H%prefixes_length. simpl in H. lia. }
  assert (∀ c, is_registered cfg st' c ↔ c = _consumer_id cfg ∨ is_registered cfg st c)
    as Hreg.
  { intros c. rewrite !is_registered_spec.
    destruct (decide (c = _consumer_id cfg)) as [->|Hc].
    - split; [by left|]. intros _. exists n. split; [|done].
      unfold st'. apply lookup_insert_eq.
    - rewrite (Hother c Hc). split; [by right|]. by intros [?|?]. }
  split.
  - apply elem_of_participants_of; [done|]. apply Hreg. by left.
  - destruct Hdir as [m Hm]. unfold participants_of at 2. rewrite Hm, sorted_Permutation.
    apply NoDup_Permutation.
    + apply NoDup_app. split; [apply NoDup_participants_of|].
      split; [|apply NoDup_singleton]. intros c Hc ->%list_elem_of_singleton. done.
    + apply NoDup_registered.
    + intros c. rewrite elem_of_app, list_elem_of_singleton, elem_of_registered, Hreg.
      rewrite elem_of_participants_of by done. split; intros [?|?]; auto.
Qed.

Lemma path_from_partition_length (cfg : Config) (p : Partition.t) : length (_path_from_partition cfg p) = 5%nat.
Proof. done. Qed.

(** In a well-formed topic the record name tells the partition. *)
Lemma path_from_partition_inj (cfg : Config) k p k' q :
  Topic.wf (_topic cfg) →
  Topic.partitions (_topic cfg) !! k = Some p →
  Topic.partitions (_topic cfg) !! k' = Some q →
  _path_from_partition cfg p = _path_from_partition cfg q → p = q.
Proof.
  intros Hwf Hp Hq Heq. rewrite !path_from_partition_slug in Heq.
  apply app_inj_tail in Heq as [_ Heq].
  pose proof (slug_of_roundtrip _ _ _ Hwf Hp) as H1.
  pose proof (slug_of_roundtrip _ _ _ Hwf Hq) as H2.
  rewrite Heq, H2 in H1. injection H1 as Hid.
  apply (wf_lookup_id _ _ _ Hwf) in Hp, Hq. rewrite Hid in Hq. congruence.
Qed.

End registry_settled.

Section settled.

(** The ownership records after the stale ones were deleted and the
    missing ones created: every assigned partition has a record of the
    member, and a record of the member is for an assigned partition or
    for one whose own record is gone. *)
Lemma registry_settled (cfg : Config) (st0 st1 st2 : gmap (list string) ZooKeeper.node)
    (A H' : gset Partition.t) :
  Topic.wf (_topic cfg) →
  (∀ p, p ∈ A → ∃ k, Topic.partitions (_topic cfg) !! k = Some p) →
  held_of cfg st0 = Return H' →
  (∀ k, st1 !! k
        = if bool_decide (k ∈ _path_from_partition cfg <$> elements (H' ∖ A))
          then None else st0 !! k) →
  (∀ k, (k ∈ _path_from_partition cfg <$> elements (A ∖ H') →
         ∃ n, st2 !! k = Some n ∧ ZooKeeper.data n = _consumer_id cfg) ∧
        (k ∉ _path_from_partition cfg <$> elements (A ∖ H') → st2 !! k = st1 !! k)) →
  (∀ p, p ∈ A →
     ∃ slug, owns cfg st2 slug ∧ slug_partition_id slug = Return (Partition.id p)) ∧
  (∀ slug, owns cfg st2 slug →
     ∃ q, slug_partition_id slug = Return (Partition.id q) ∧
          Topic.partitions (_topic cfg) !! Partition.id q = Some q ∧
          (q ∈ A ∨ st2 !! _path_from_partition cfg q = None)) ∧
  (∀ k, (length k ≤ 4)%nat → st2 !! k = st0 !! k).
Proof.
  intros Hwf HA Hheld Hrm Hadd.
  apply held_of_Return in Hheld as (_ & Hslug & Hback).
  assert (∀ q, q ∈ H' → Topic.partitions (_topic cfg) !! Partition.id q = Some q) as HH'.
  { intros q (slug & i & _ & _ & Hq)%Hback. by apply (wf_lookup_id _ _ _ Hwf) in Hq. }
  assert (∀ q, q ∈ A → Topic.partitions (_topic cfg) !! Partition.id q = Some q) as HA'.
  { intros q [k Hk]%HA. by apply (wf_lookup_id _ _ _ Hwf) in Hk. }
  assert (∀ k (l : list Partition.t), k ∈ _path_from_partition cfg <$> l →
            length k = 5%nat) as Hlen.
  { intros k l (p & -> & _)%list_elem_of_fmap. done. }
  split; [|split].
  - intros p Hp. destruct (decide (p ∈ H')) as [HpH|HpH].
    + destruct (Hback p HpH) as (slug & i & Ho & Hi & Hq).
      destruct (wf_lookup _ _ _ Hwf Hq) as (<- & _).
      exists slug. split; [|done]. apply owns_spec.
      destruct (decide (_topic_path cfg ++ [slug]
                        ∈ _path_from_partition cfg <$> elements (A ∖ H'))) as [Hin|Hnin].
      * by apply Hadd.
      * rewrite (proj2 (Hadd _) Hnin), Hrm. rewrite bool_decide_eq_false_2.
        { by apply owns_spec. }
        intros (q & Heq & [HqH HqA]%elem_of_elements%elem_of_difference)%list_elem_of_fmap.
        rewrite path_from_partition_slug in Heq. apply app_inj_tail in Heq as [_ ->].
        rewrite (slug_of_roundtrip _ _ _ Hwf (HH' q HqH)) in Hi. injection Hi as Hid.
        pose proof (HH' q HqH) as Hq'. rewrite Hid in Hq'. congruence.
    + exists (slug_of p). split; [|by apply (slug_of_roundtrip _ _ _ Hwf (HA' p Hp))].
      apply owns_spec. rewrite <- path_from_partition_slug. apply Hadd.
      apply list_elem_of_fmap. exists p. split; [done|]. apply elem_of_elements. set_solver.
  - intros slug Ho.
    destruct (decide (_topic_path cfg ++ [slug]
                      ∈ _path_from_partition cfg <$> elements (A ∖ H'))) as [Hin|Hnin].
    + apply list_elem_of_fmap in Hin
        as (p & Heq & [HpA HpH]%elem_of_elements%elem_of_difference).
      rewrite path_from_partition_slug in Heq. apply app_inj_tail in Heq as [_ ->].
      exists p. split; [by apply (slug_of_roundtrip _ _ _ Hwf (HA' p HpA))|]. auto.
    + apply owns_spec in Ho as (n & Hn & Hdata).
      rewrite (proj2 (Hadd _) Hnin), Hrm in Hn. case_bool_decide as Hdel; [done|].
      destruct (Hslug slug) as (i & q & Hi & Hq & HqH); [apply owns_spec; by exists n|].
      destruct (wf_lookup _ _ _ Hwf Hq) as (<- & _).
      exists q. split; [done|]. split; [done|].
      destruct (decide (q ∈ A)) as [HqA|HqA]; [by left|right].
      rewrite (proj2 (Hadd _)), Hrm.
      * rewrite bool_decide_eq_true_2; [done|]. apply list_elem_of_fmap. exists q.
        split; [done|]. apply elem_of_elements. set_solver.
      * intros (p & Heq & [HpA HpH]%elem_of_elements%elem_of_difference)%list_elem_of_fmap.
        apply (path_from_partition_inj _ _ _ _ _ Hwf Hq (HA' p HpA)) in Heq. by subst.
  - intros k Hk. rewrite (proj2 (Hadd k)), Hrm.
    + rewrite bool_decide_eq_false_2; [done|]. intros Hin%Hlen. lia.
    + intros Hin%Hlen. lia.
Qed.

End settled.

Section first_attempt.
Context (env : Env).

Lemma elements_NoDup_id (tp : Topic.t) (A : gset Partition.t) :
  (∀ p, p ∈ A → Topic.partitions tp !! Partition.id p = Some p) →
  NoDup (Partition.id <$> elements A).
Proof.
  intros HA. apply NoDup_fmap_2_strong; [|apply NoDup_elements].
  intros p q Hp%elem_of_elements%HA Hq%elem_of_elements%HA Heq.
  rewrite Heq in Hp. congruence.
Qed.

(** A pass of the retry loop that completes leaves the member steady, on
    a coordinator that is still a tree. *)
Lemma rebalance_attempt_Return_false s s1 :
  Topic.wf (_topic (config s)) → rooted (zk s) →
  rebalance_attempt env s = (Return false, s1) →
  (∃ A, steady A s1) ∧ config s1 = config s ∧ _running s1 = _running s.
Proof.
  intros Hwf Hroot. unfold rebalance_attempt. unfold bind at 1, gets at 1.
  intros H. apply bind_inv_Return in H as (P0 & sa & HP0 & H).
  apply get_participants_Return in HP0 as (-> & [c Hz] & ->).
  apply bind_inv_Return in H as (P1 & sb & HP1 & H).
  assert (_zookeeper sb = Some c ∧ config sb = config s ∧ _consumer sb = _consumer s ∧
          _running sb = _running s ∧
          _consumer_id (config s) ∈ participants_of (config s) (zk sb) ∧
          _decide_partitions (config s) P1
          = _decide_partitions (config s) (participants_of (config s) (zk sb)))
    as (Hzb & Hcb & Hib & Hrb & Hmem & Hdec).
  { case_bool_decide as Hin.
    - by injection HP1 as <- <-.
    - apply bind_inv_Return in HP1 as ([] & sb' & Hadd & [= <- <-]).
      apply add_self_Return in Hadd as (c' & Hz' & _ & ->). simpl.
      destruct (participants_of_add_self (config s) (zk s)
                  (ZooKeeper.mk (Topic.name (_topic (config s)))
                     (Some (KazooClient.session c'))) Hroot eq_refl Hin)
        as (Hself & Hsorted).
      repeat (split; [done|]). unfold _decide_partitions.
      by rewrite (sorted_id_perm _ _ Hsorted). }
  apply bind_inv_Return in H as (A & sc & HA & H). injection HA as HA <-.
  rewrite Hdec in HA.
  destruct (decide (A = ∅)) as [->|Hne].
  { apply bind_inv_Return in H as ([] & ? & _ & H). done. }
  apply bind_inv_Return in H as (H' & sd & Hheld & H).
  apply get_held_partitions_Return in Hheld as (-> & _ & Hheld). rewrite Hcb in Hheld.
  apply bind_inv_Return in H as ([] & se & Hrm & H).
  pose proof (consumer_remove_partitions _ _ _ _ Hrm) as [= Hie Hce Hze Hre].
  pose proof (remove_partitions_Return _ _ _ Hrm) as Hrm'. rewrite Hcb in Hrm'.
  apply bind_inv_Return in H as ([] & sf & Hadd & H).
  pose proof (consumer_add_partitions _ _ _ _ Hadd) as [= Hif Hcf Hzf Hrf].
  pose proof (add_partitions_Return _ _ _ Hadd) as Hadd'. rewrite Hce, Hcb in Hadd'.
  destruct (registry_settled (config s) (zk sb) (zk se) (zk sf) A H' Hwf
              (λ p, decide_partitions_subset _ _ _ p HA) Hheld Hrm' Hadd')
    as (Hcov & Hown & Hag).
  assert (participants_of (config s) (zk sf) = participants_of (config s) (zk sb))
    as Hparts by (by apply participants_of_agree).
  apply held_of_Return in Hheld as (Htop & _).
  rewrite <- (Hag (_topic_path (config s))) in Htop by (simpl; lia).
  unfold bind at 1, gets at 1 in H.
  apply bind_inv_Return in H as ([] & sg & Hsetup & [= <-]).
  assert (zk sg = zk sf ∧ config sg = config sf ∧ _zookeeper sg = _zookeeper sf ∧
          _running sg = _running sf ∧ _partitions sg = A)
    as (Hzkg & Hcg & Hzg & Hrg & Hpg).
  { case_decide as Hmine.
    - destruct (setup_internal_consumer_Return env (elements A) sf)
        as (sg' & Hrun & ? & ? & ? & Hp).
      assert (_running sg' = _running sf) as Hr'.
      { pose proof (frame_setup_internal_consumer env (elements A) true _ _ _ Hrun) as Hfr.
        by rewrite Hfr. }
      rewrite Hrun in Hsetup. injection Hsetup as <-.
      repeat (split; [done|]). rewrite Hp, list_to_set_elements_L; [done|].
      apply (elements_NoDup_id (_topic (config s))).
      intros p [k Hk]%(decide_partitions_subset _ _ _ _ HA).
      by apply (wf_lookup_id _ _ _ Hwf) in Hk.
    - injection Hsetup as <-. repeat (split; [done|]).
      by destruct (decide (_partitions sf = A)) as [|Hn]; [|destruct Hmine; congruence]. }
  assert (config sg = config s) as Hcfg by congruence.
  split; [|split; [done|simpl; congruence]].
  exists A. split; simpl; rewrite ?Hcfg, ?Hzkg, ?Hparts; try done.
  rewrite Hzg, Hzf, Hze, Hzb. by eexists.
Qed.

End first_attempt.

(** ** The coordinator stays a tree *)

Definition tree_kept : relation State := λ s s', rooted (zk s) → rooted (zk s').

Global Instance tree_kept_preorder : PreOrder tree_kept.
Proof.
  split.
  - by intros s ?.
  - intros s1 s2 s3 H12 H23 H. by apply H23, H12.
Qed.

Ltac tree_leaf := first [reflexivity | by intros ? | done].

Section tree.
Context (env : Env).

Lemma rooted_agree (st st' : gmap (list string) ZooKeeper.node) :
  (∀ k, (length k ≤ 4)%nat → st' !! k = st !! k) → rooted st → rooted st'.
Proof.
  intros Hag Hroot g c. rewrite !Hag by (simpl; lia). apply Hroot.
Qed.

Lemma tree_zk_delete p : length p = 5%nat → preserves tree_kept (zk_delete p).
Proof.
  intros Hp. apply (preserves_bind tree_kept); [apply preserves_zookeeper; apply _|].
  intros c s r s'. unfold ZooKeeper.delete. destruct (zk s !! p); intros [= <- <-]; [|by intros ?].
  intros Hroot. apply (rooted_agree (zk s)); [|done].
  intros k Hk. simpl. apply lookup_delete_ne. intros ->. lia.
Qed.

Lemma tree_zk_create p v eph : length p = 5%nat → preserves tree_kept (zk_create p v eph false).
Proof.
  intros Hp. apply (preserves_bind tree_kept); [apply preserves_zookeeper; apply _|].
  intros c s r s'. unfold ZooKeeper.create. destruct (zk s !! p); intros [= <- <-]; [by intros ?|].
  intros Hroot. apply (rooted_agree (zk s)); [|done].
  intros k Hk. simpl. apply lookup_insert_ne. intros ->. lia.
Qed.

Lemma tree_zk_create_self cfg v eph :
  preserves tree_kept (zk_create (_path_self cfg) v eph true).
Proof.
  apply (preserves_bind tree_kept); [apply preserves_zookeeper; apply _|].
  intros c s r s'. unfold ZooKeeper.create.
  destruct (zk s !! _path_self cfg); intros [= <- <-]; [by intros ?|].
  intros Hroot. by apply rooted_add_self.
Qed.

Ltac tree_step :=
  first [ by apply tree_zk_delete | by apply tree_zk_create | apply tree_zk_create_self
        | frame_step tree_leaf ].

Lemma tree_add_self : preserves tree_kept _add_self.
Proof. pose proof eq_get_participants. unfold _add_self. repeat tree_step. Qed.

Lemma tree_remove_partitions ps : preserves tree_kept (_remove_partitions ps).
Proof. unfold _remove_partitions. repeat tree_step. Qed.

Lemma tree_add_partitions ps : preserves tree_kept (_add_partitions ps).
Proof. unfold _add_partitions. repeat tree_step. Qed.

Lemma tree_setup_internal_consumer ps b :
  preserves tree_kept (_setup_internal_consumer env ps b).
Proof. unfold _setup_internal_consumer. frame tree_leaf. Qed.

Hint Resolve tree_add_self tree_remove_partitions tree_add_partitions
  tree_setup_internal_consumer : frames.

Lemma tree_rebalance_attempt : preserves tree_kept (rebalance_attempt env).
Proof.
  pose proof eq_get_participants. pose proof eq_get_held_partitions.
  unfold rebalance_attempt. frame tree_leaf.
Qed.

(** The loop returns what its last pass returned; that pass began on a
    tree when the loop did and the rest of the group keeps the tree. *)
Lemma rebalance_loop_rooted (a n : nat) s b s' :
  (∀ ms st, rooted st → rooted (peers env ms st)) →
  rooted (zk s) →
  Z.of_nat (a + n) = _rebalance_max_retries (config s) →
  rebalance_loop env (Z.of_nat <$> seq a n) s = (Return b, s') →
  (n = 0%nat ∧ b = false ∧ s' = s) ∨
  ∃ sa, rebalance_attempt env sa = (Return b, s') ∧ config sa = config s ∧
        _running sa = _running s ∧ _zookeeper sa = _zookeeper s ∧ rooted (zk sa).
Proof.
  intros Hpeers. revert a s. induction n as [|n IH]; intros a s Hroot Hmax Hloop.
  - left. by injection Hloop as <- <-.
  - right. change (seq a (S n)) with (a :: seq (S a) n) in Hloop.
    rewrite fmap_cons in Hloop.
    destruct (rebalance_attempt env s) as [r sa] eqn:Ha.
    pose proof (frame_rebalance_attempt env _ _ _ Ha) as Hframe.
    pose proof (tree_rebalance_attempt _ _ _ Ha Hroot) as Hroota.
    assert (config sa = config s ∧ _running sa = _running s ∧ _zookeeper sa = _zookeeper s)
      as (Hcfg & Hrun & Hz) by (by rewrite Hframe).
    destruct r as [b'|e| |];
      try (rewrite (rebalance_loop_attempt_done env _ _ _ _ _ Ha) in Hloop by done; done).
    + rewrite (rebalance_loop_attempt_done env _ _ _ _ _ Ha) in Hloop by done.
      injection Hloop as <- <-. by exists s.
    + destruct e;
        try (rewrite (rebalance_loop_attempt_done env _ _ _ _ _ Ha) in Hloop by done; done).
      rewrite (rebalance_loop_partition_owned env _ _ _ _ _ Ha) in Hloop.
      destruct (Z.eqb_spec (Z.of_nat a) (_rebalance_max_retries (config s) - 1)); [done|].
      destruct (Z.lt_ge_cases (Z.of_nat a * _rebalance_backoff_ms (config s)) 0)
        as [Hneg|Hms]; [by rewrite (retry_sleep_neg env _ _ _ Hneg) in Hloop|].
      destruct (retry_sleep_nonneg env _ sa Hms) as (s2 & Hk & _ & _ & Hzk2 & Hcfg2 & Hfr2).
      rewrite Hk in Hloop.
      assert (_running s2 = _running sa ∧ _zookeeper s2 = _zookeeper sa)
        as (Hrun2 & Hz2) by (by rewrite Hfr2).
      apply IH in Hloop as [(-> & _ & _)|(sb & Hb & Hcfgb & Hrunb & Hzb & Hrootb)].
      * lia.
      * exists sb. split; [done|].
        split; [congruence|]. split; [congruence|]. split; [congruence|done].
      * rewrite Hzk2. by apply Hpeers.
      * rewrite Hcfg2, Hcfg. lia.
Qed.

End tree.

(** ** Two rebalances in succession *)

(** [settled s]: a rebalance of [s] has nothing left to do: the member was
    stopped, or the retry loop has no turn, or the member is steady. *)
Definition settled (s : State) : Prop :=
  _running s = false ∨
  _rebalance_max_retries (config s) ≤ 0 ∨
  ∃ A, Topic.wf (_topic (config s)) ∧ steady A s.

Section idempotence.
Context (env : Env).

Lemma stop_Return_stopped s s' :
  stop s = (Return tt, s') → _running s' = false ∧ _rebalancing_lock s' = false.
Proof.
  unfold stop. set (tail := (c <- gets _consumer ;; _)).
  intros H. apply bind_inv_Return in H as ([] & s1 & [= <-] & H).
  apply bind_inv_Return in H as ([] & s2 & Hl & H).
  apply with_lock_inv in Hl as (_ & sb & [= <-] & ->); [|done].
  assert (preserves (same (λ s, (_running s, _rebalancing_lock s))) tail) as Ht.
  { unfold tail, _remove_partitions. pose proof eq_get_held_partitions.
    frame same_leaf. }
  apply Ht in H. by injection H as -> ->.
Qed.

Lemma settled_quiet s s' : settled s → quiet s s' → settled s'.
Proof.
  intros Hs Hq. pose proof Hq as [[= Hzk Hc Hcfg Hz Hr] _]. unfold settled.
  rewrite Hr, Hcfg. destruct Hs as [?|[?|(A & ? & HA)]]; auto.
  right. right. exists A. split; [done|]. by apply (steady_quiet A s).
Qed.

(** The block under the lock is quiet when its body is, from every state
    the lock statement can hand to it. *)
Lemma with_lock_quiet {A} (body : M A) (Q : Outcome A → Prop) s r s' :
  (∀ s0 r0 s0', quiet s s0 → body s0 = (r0, s0') → quiet s0 s0' ∧ Q r0) →
  Q Blocked →
  with_lock body s = (r, s') → quiet s s' ∧ Q r.
Proof.
  intros Hbody HQ. unfold with_lock.
  destruct (_rebalancing_lock s); [by intros [= <- <-]|].
  unfold bind at 1. simpl.
  destruct (body _) as [r0 s0'] eqn:Hb.
  apply Hbody in Hb as [Hq Hr0]; [|quiet_leaf].
  assert (quiet s s0') as Hq'.
  { etrans; [|exact Hq]. quiet_leaf. }
  destruct r0 as [a|e| |]; intros [= <- <-]; (split; [|done]); try done.
  - etrans; [exact Hq'|]. quiet_leaf.
  - etrans; [exact Hq'|]. quiet_leaf.
Qed.

(** A rebalance that returns leaves the member settled, with the lock
    free. *)
Lemma rebalance_settles s s1 :
  Topic.wf (_topic (config s)) → rooted (zk s) →
  (∀ ms st, rooted st → rooted (peers env ms st)) →
  _rebalance env s = (Return tt, s1) →
  settled s1 ∧ _rebalancing_lock s1 = false.
Proof.
  intros Hwf Hroot Hpeers. unfold _rebalance. unfold bind at 1, gets at 1.
  set (commit := if _consumer s is Some _ then commit_offsets env else ret tt).
  intros H. apply bind_inv_Return in H as ([] & sa & Hc & H).
  assert (quiet s sa) as Hqa.
  { revert Hc. unfold commit. destruct (_consumer s); [apply quiet_commit_offsets|].
    by intros [= <-]. }
  destruct Hqa as [[= Hzka Hca Hcfga Hza Hra] _].
  apply bind_inv_Return in H as (b & sb & Hlk & H).
  unfold rebalance_locked in Hlk. unfold bind at 1, gets at 1 in Hlk.
  apply with_lock_inv in Hlk as (Hfree & sc & Hb & ->); [|done].
  apply bind_inv_Return in Hb as (running & sr & [= <- <-] & Hb).
  simpl in Hb. destruct (_running sa) eqn:Hrun; [|done]. simpl in Hb.
  apply bind_inv_Return in Hb as ([] & sl & [= <-] & Hb).
  destruct b.
  { apply stop_Return_stopped in H as [? ?]. split; [by left|done]. }
  injection H as <-. split; [|done]. right.
  pose proof (frame_rebalance_loop env _ _ _ _ Hb) as Hframe.
  assert (config sc = config sa) as Hcfgc by (by rewrite Hframe).
  destruct (Z_le_gt_dec (_rebalance_max_retries (config sa)) 0) as [Hle|Hgt].
  { left. simpl. by rewrite Hcfgc. }
  right. unfold Py.range in Hb.
  apply (rebalance_loop_rooted env 0) in Hb
    as [(Hn & _)|(sx & Hx & Hcx & Hrx & Hzx & Hrootx)];
    [lia| |done|by simpl; rewrite Hzka|simpl; lia].
  simpl in Hcx.
  apply rebalance_attempt_Return_false in Hx as ((A & HA) & Hcfg & _);
    [|by rewrite Hcx, Hcfga|done].
  exists A. simpl. split; [by rewrite Hcfg, Hcx, Hcfga|].
  apply (steady_quiet A sc); [done|]. quiet_leaf.
Qed.

(** A rebalance of a settled member is quiet. *)
Lemma rebalance_settled_quiet s r s' :
  settled s → _rebalance env s = (r, s') → quiet s s'.
Proof.
  intros Hs. unfold _rebalance. unfold bind at 1, gets at 1.
  set (commit := if _consumer s is Some _ then commit_offsets env else ret tt).
  unfold bind at 1. destruct (commit s) as [rc sa] eqn:Hc.
  assert (quiet s sa) as Hqa.
  { revert Hc. unfold commit. destruct (_consumer s); [apply quiet_commit_offsets|].
    by intros [= <- <-]. }
  destruct rc as [[]|e| |]; try (by intros [= <- <-]).
  unfold bind at 1. destruct (rebalance_locked env sa) as [rl sb] eqn:Hlk.
  assert (quiet sa sb ∧ rl ≠ Return true) as [Hqb Hnt].
  { revert Hlk. unfold rebalance_locked. unfold bind at 1, gets at 1.
    intros Hlk. refine (with_lock_quiet _ (λ r, r ≠ Return true) _ _ _ _ _ Hlk); [|done].
    intros s0 r0 s0' Hq0. unfold bind at 1, gets at 1.
    pose proof (settled_quiet _ _ (settled_quiet _ _ Hs Hqa) Hq0) as Hs0.
    pose proof Hq0 as [[= _ _ Hcfg0 _ _] _].
    destruct (_running s0) eqn:Hrun; simpl; [|by intros [= <- <-]].
    unfold bind at 1. simpl. rewrite <- Hcfg0.
    set (sl := set_trace _ s0).
    assert (quiet s0 sl) as Hql by quiet_leaf.
    intros Hloop.
    destruct (settled_quiet _ _ Hs0 Hql) as [Hstop|Hrest].
    { simpl in Hstop. congruence. }
    assert (∃ A, _rebalance_max_retries (config sl) ≤ 0 ∨
                 Topic.wf (_topic (config sl)) ∧ steady A sl) as [A HA].
    { destruct Hrest as [?|(A & ? & ?)]; [exists ∅; by left|exists A; by right]. }
    destruct (rebalance_loop_quiet env A sl r0 s0' HA Hloop) as [Hq Hr].
    split; [by etrans|done]. }
  destruct rl as [[|]|e| |]; try done; intros [= <- <-]; by etrans.
Qed.

End idempotence.

(** A coordinator given as a finite map is a tree when each of its
    participant records lies under a directory of the map. *)
Definition rooted_at (st : gmap (list string) ZooKeeper.node) (k : list string) : Prop :=
  match k with
  | [a; g; b; c] => a = "consumers"%string → b = "ids"%string → is_Some (st !! [a; g; b])
  | _ => True
  end.

Global Instance rooted_at_dec st k : Decision (rooted_at st k).
Proof. destruct k as [|a [|g [|b [|c [|]]]]]; simpl; apply _. Defined.

Lemma rooted_intro (st : gmap (list string) ZooKeeper.node) :
  map_Forall (λ k _, rooted_at st k) st → rooted st.
Proof.
  intros Hall g c [n Hn]. by apply (Hall _ _ Hn).
Qed.

(** Member [a] after member [b] has joined: the first rebalance gives up
    partitions 3 and 4 and rebuilds the inner consumer over 0, 1 and 2. *)
Example joined_rebalance_trace :
  (_rebalance Scenario.env Scenario.joined).1 = Return tt ∧
  events_since Scenario.joined (_rebalance Scenario.env Scenario.joined).2
  = [InnerCommit; LockAcquired; Log INFO "Rebalancing consumer";
     RemovePartition (Scenario.p 3); RemovePartition (Scenario.p 4);
     InnerStopped; InnerCreated (Scenario.p <$> [0; 1; 2]) false;
     Log INFO "Rebalancing Complete."; LockReleased].
Proof. split; vm_compute; reflexivity. Qed.

(** X1. Two runs of [_rebalance] in succession, the first of which
    returned, with the topic and the participants unchanged in between:
    the second run comes back, it leaves the coordinator as the first run
    left it, so that no ownership record is removed and none is added, it
    keeps the inner consumer, and it neither stops nor creates an inner
    consumer.  The partition and broker ids of the topic are not negative
    and the coordinator is a tree, which the other members of the group
    keep. *)
Theorem rebalance_twice_idempotent (env : Env) (s s1 s2 : State) (r : Outcome unit) :
  Topic.wf (_topic (config s)) →
  rooted (zk s) →
  (∀ ms st, rooted st → rooted (peers env ms st)) →
  _rebalance env s = (Return tt, s1) →
  _rebalance env s1 = (r, s2) →
  finished r ∧
  zk s2 = zk s1 ∧
  _consumer s2 = _consumer s1 ∧
  Forall (λ e, is_inner_lifecycle e = false) (events_since s1 s2).
Proof.
  intros Hwf Hroot Hpeers H1 H2.
  destruct (rebalance_settles env _ _ Hwf Hroot Hpeers H1) as [Hs Hfree].
  destruct (rebalance_sync env _ _ _ Hfree H2) as [_ Hfin].
  destruct (rebalance_settled_quiet env _ _ _ Hs H2) as [[= Hzk Hc _ _ _] Hev].
  apply extends_events_since in Hev as [_ Hev]. done.
Qed.

Lemma rebalance_twice_idempotent_witness :
  let s1 := (_rebalance Scenario.env Scenario.joined).2 in
  let s2 := (_rebalance Scenario.env s1).2 in
  finished (_rebalance Scenario.env s1).1 ∧
  zk s2 = zk s1 ∧
  _consumer s2 = _consumer s1 ∧
  Forall (λ e, is_inner_lifecycle e = false) (events_since s1 s2).
Proof.
  assert ((_rebalance Scenario.env Scenario.joined).1 = Return tt) as Hrun
    by (vm_compute; reflexivity).
  apply (rebalance_twice_idempotent Scenario.env Scenario.joined).
  - unfold Topic.wf. apply (bool_decide_unpack _). vm_compute. exact I.
  - apply rooted_intro. apply (bool_decide_unpack _). vm_compute. exact I.
  - intros ms st H. exact H.
  - rewrite <- Hrun. apply surjective_pairing.
  - apply surjective_pairing.
Defined.

(** * Further properties of the methods *)

(** ** The assignment function at its edges *)

(** X2. [_decide_partitions] raises [ValueError], from [list.index],
    exactly when the member is not in the participant list, the empty
    list included; the division by the number of participants never
    fails, and with the member in the list the call returns. *)
Theorem decide_partitions_raises (cfg : Config) (P : list string) :
  (_decide_partitions cfg P = Raise ValueError ↔ _consumer_id cfg ∉ P) ∧
  _decide_partitions cfg P ≠ Raise ZeroDivisionError ∧
  (_consumer_id cfg ∈ P ↔ ∃ A, _decide_partitions cfg P = Return A).
Proof.
  destruct (decide (_consumer_id cfg ∈ P)) as [Hin|Hnin].
  - destruct (member_index P _ Hin) as (idx & Hidx & _).
    rewrite (decide_partitions_index cfg P idx Hidx).
    split; [by split|]. split; [done|]. split; [by eexists|done].
  - rewrite (decide_partitions_not_member cfg P Hnin).
    split; [done|]. split; [done|]. split; [done|]. by intros [A ?].
Qed.

(** X3. A member that is alone in the group is assigned every partition
    of the topic. *)
Theorem decide_partitions_sole_member (cfg : Config) :
  _decide_partitions cfg [_consumer_id cfg]
  = Return (list_to_set (values (Topic.partitions (_topic cfg)))).
Proof.
  rewrite (decide_partitions_index cfg [_consumer_id cfg] 0).
  - f_equal. apply set_eq. intros p. rewrite !elem_of_list_to_set.
    set (n := Py.len (sorted_partitions cfg)).
    assert (slice_start n (Py.len [_consumer_id cfg]) (Z.of_nat 0) = 0) as ->.
    { unfold slice_start, Py.len. simpl. rewrite Z.mod_1_r. lia. }
    assert (slice_count n (Py.len [_consumer_id cfg]) (Z.of_nat 0) = n) as ->.
    { unfold slice_count, Py.len. simpl length. change (Z.of_nat 1) with 1.
      rewrite Z.mod_1_r, Z.div_1_r. simpl. lia. }
    unfold slice, n, Py.len. rewrite Nat2Z.id. simpl. rewrite firstn_all.
    apply elem_of_sorted_partitions.
  - simpl. by rewrite String.eqb_refl.
Qed.

(** The size of [values d] is the size of [d]. *)
Lemma length_values {K V} `{Countable K} (d : gmap K V) : length (values d) = size d.
Proof. unfold values. by rewrite length_fmap, length_map_to_list. Qed.

(** A slice of a participant lies within the sorted partitions. *)
Lemma slice_length {A} (l : list A) (k idx : Z) :
  0 < k → 0 ≤ idx < k →
  length (slice l (slice_start (Py.len l) k idx) (slice_count (Py.len l) k idx))
  = Z.to_nat (slice_count (Py.len l) k idx).
Proof.
  intros Hk Hidx. unfold slice. rewrite length_take, length_drop.
  assert (0 ≤ Py.len l) as Hn by (unfold Py.len; lia).
  pose proof (slice_start_succ (Py.len l) k idx (proj1 Hidx)) as Hs.
  pose proof (slice_start_mono (Py.len l) k Hn Hk (idx + 1) k) as Hm.
  rewrite (slice_start_last _ _ Hk) in Hm.
  pose proof (slice_start_nonneg (Py.len l) k Hn Hk idx (proj1 Hidx)).
  pose proof (slice_count_nonneg (Py.len l) k Hn Hk idx).
  unfold Py.len in *. lia.
Qed.

(** X4. The assignment is balanced: with [n] partitions and [k]
    participants every participant is assigned [n // k] or [n // k + 1]
    partitions, and exactly [n // k] when [k] divides [n]. *)
Theorem decide_partitions_balanced (cfg : Config) (P : list string) (m : string) :
  Topic.wf (_topic cfg) → m ∈ P →
  let n := Z.of_nat (size (Topic.partitions (_topic cfg))) in
  let k := Py.len P in
  ∃ A, _decide_partitions (member cfg m) P = Return A ∧
       n `div` k ≤ Z.of_nat (size A) ≤ n `div` k + 1 ∧
       (n `mod` k = 0 → Z.of_nat (size A) = n `div` k).
Proof.
  intros Hwf Hm n k.
  destruct (member_index P m Hm) as (idx & Hidx & _ & Hlt).
  eexists. split; [by apply (decide_partitions_index (member cfg m))|].
  rewrite sorted_partitions_member.
  assert (NoDup (sorted_partitions cfg)) as Hnd by (apply sorted_NoDup, values_NoDup, Hwf).
  assert (Py.len (sorted_partitions cfg) = n) as Hn.
  { unfold Py.len, sorted_partitions, n. by rewrite sorted_length, length_values. }
  assert (0 < k) as Hk by (unfold k, Py.len; lia).
  rewrite size_list_to_set.
  2:{ unfold slice. eapply sublist_NoDup; [exact Hnd|].
      etrans; [apply sublist_take|apply sublist_drop]. }
  rewrite slice_length by (unfold k, Py.len in *; lia).
  assert (0 ≤ n) as Hn0 by (unfold n; lia).
  pose proof (slice_count_nonneg n k Hn0 Hk (Z.of_nat idx)) as Hc.
  rewrite Hn. fold k. rewrite Z2Nat.id by done.
  unfold slice_count. destruct (Z.ltb_spec (Z.of_nat idx) (n `mod` k)); lia.
Qed.

Lemma decide_partitions_balanced_witness :
  ∃ A, _decide_partitions (member (Scenario.cfg "a") "c") Scenario.P = Return A ∧
       5 `div` 3 ≤ Z.of_nat (size A) ≤ 5 `div` 3 + 1 ∧
       (5 `mod` 3 = 0 → Z.of_nat (size A) = 5 `div` 3).
Proof.
  apply (decide_partitions_balanced (Scenario.cfg "a") Scenario.P "c").
  - unfold Topic.wf. apply (bool_decide_unpack _). vm_compute. exact I.
  - apply (bool_decide_unpack _). vm_compute. exact I.
Defined.

(** ** The names of the ownership records *)

(** X5. Writing and reading a record name are inverse: for a partition
    whose leader id and own id are not negative, the last component of
    [_path_from_partition] is a name from which [_get_held_partitions]
    reads the id of the partition back. *)
Theorem path_from_partition_roundtrip (cfg : Config) (p : Partition.t) :
  0 ≤ Broker.id (Partition.leader p) → 0 ≤ Partition.id p →
  ∃ slug, _path_from_partition cfg p = _topic_path cfg ++ [slug] ∧
          slug_partition_id slug = Return (Partition.id p).
Proof.
  intros Hl Hi. exists (slug_of p). split; [done|]. by apply slug_roundtrip.
Qed.

Lemma path_from_partition_roundtrip_witness :
  ∃ slug, _path_from_partition (Scenario.cfg "a") (Scenario.p 3)
          = _topic_path (Scenario.cfg "a") ++ [slug] ∧
          slug_partition_id slug = Return 3.
Proof.
  apply (path_from_partition_roundtrip (Scenario.cfg "a") (Scenario.p 3)); simpl; lia.
Defined.

Lemma str_negative (q : positive) :
  Py.str (Z.neg q) = String "-"%char (Py.str (Z.pos q)).
Proof. done. Qed.

(** X6. The round trip breaks on a negative leader id: the name then
    begins with the minus sign, [split('-')] yields an empty first field,
    and the id read back is the absolute value of the leader id, not the
    id of the partition. *)
Theorem slug_partition_id_negative_leader (cfg : Config) (p : Partition.t) :
  Broker.id (Partition.leader p) < 0 → 0 ≤ Partition.id p →
  ∃ slug, _path_from_partition cfg p = _topic_path cfg ++ [slug] ∧
          slug_partition_id slug = Return (- Broker.id (Partition.leader p)).
Proof.
  intros Hl Hi. exists (slug_of p). split; [done|].
  unfold slug_of. destruct (Broker.id (Partition.leader p)) as [|q|q]; [lia..|].
  rewrite str_negative. unfold slug_partition_id.
  change (String "-" (Py.str (Z.pos q)) ++ "-" ++ Py.str (Partition.id p))%string
    with (String "-" (Py.str (Z.pos q) ++ "-" ++ Py.str (Partition.id p)))%string.
  cbn [Py.split]. rewrite Ascii.eqb_refl.
  rewrite split_dash by (by apply no_dash_str).
  simpl. by rewrite int_str.
Qed.

Lemma slug_partition_id_negative_leader_witness :
  ∃ slug, _path_from_partition (Scenario.cfg "a") (Partition.mk "t" (Broker.mk (-1)) 3)
          = _topic_path (Scenario.cfg "a") ++ [slug] ∧
          slug_partition_id slug = Return 1.
Proof.
  apply (slug_partition_id_negative_leader (Scenario.cfg "a")
           (Partition.mk "t" (Broker.mk (-1)) 3)); simpl; lia.
Defined.

(** ** Reading the registry *)

(** X7. With a client, [_get_participants] never raises and changes
    nothing.  Its answer is empty when the group has no participants
    directory; otherwise it lists, sorted and without repetition, the
    children of the directory whose record holds the name of this topic. *)
Theorem get_participants_spec (s : State) (c : KazooClient.t) :
  _zookeeper s = Some c →
  ∃ P, _get_participants s = (Return P, s) ∧
       StronglySorted Py.str_le P ∧ NoDup P ∧
       (zk s !! _consumer_id_path (config s) = None → P = []) ∧
       (is_Some (zk s !! _consumer_id_path (config s)) →
        ∀ m, m ∈ P ↔ ∃ n, zk s !! (_consumer_id_path (config s) ++ [m]) = Some n ∧
                          ZooKeeper.data n = Topic.name (_topic (config s))).
Proof.
  intros Hz. exists (participants_of (config s) (zk s)).
  split; [by apply (get_participants_eq s c)|].
  split; [|split; [apply NoDup_participants_of|]].
  - unfold participants_of. destruct (zk s !! _); [|constructor].
    apply (sorted_StronglySorted id).
  - unfold participants_of. split; [by intros ->|].
    intros [n Hn] m. rewrite Hn.
    by rewrite elem_of_sorted, elem_of_registered, is_registered_spec.
Qed.

Lemma get_participants_spec_witness :
  ∃ P, _get_participants Scenario.joined = (Return P, Scenario.joined) ∧
       StronglySorted Py.str_le P ∧ NoDup P ∧
       (zk Scenario.joined !! _consumer_id_path (config Scenario.joined) = None → P = []) ∧
       (is_Some (zk Scenario.joined !! _consumer_id_path (config Scenario.joined)) →
        ∀ m, m ∈ P ↔
             ∃ n, zk Scenario.joined !! (_consumer_id_path (config Scenario.joined) ++ [m])
                  = Some n ∧
                  ZooKeeper.data n = Topic.name (_topic (config Scenario.joined))).
Proof.
  apply (get_participants_spec Scenario.joined (KazooClient.mk 7)).
  vm_compute. reflexivity.
Defined.

(** X8. When [_get_held_partitions] returns, it has changed nothing, each
    record that names this member has a name whose second field is the id
    of a partition of the topic, and the set returned holds exactly the
    partitions so named. *)
Theorem get_held_partitions_spec (s s' : State) (H : gset Partition.t) :
  _get_held_partitions s = (Return H, s') →
  s' = s ∧
  is_Some (zk s !! _topic_path (config s)) ∧
  (∀ slug n,
     zk s !! (_topic_path (config s) ++ [slug]) = Some n →
     ZooKeeper.data n = _consumer_id (config s) →
     ∃ i, slug_partition_id slug = Return i ∧
          is_Some (Topic.partitions (_topic (config s)) !! i)) ∧
  (∀ q, q ∈ H ↔
        ∃ slug n i,
          zk s !! (_topic_path (config s) ++ [slug]) = Some n ∧
          ZooKeeper.data n = _consumer_id (config s) ∧
          slug_partition_id slug = Return i ∧
          Topic.partitions (_topic (config s)) !! i = Some q).
Proof.
  intros Hrun. apply get_held_partitions_Return in Hrun as (-> & _ & Hheld).
  apply held_of_Return in Hheld as (Hroot & Hslug & Hback).
  split; [done|]. split; [done|]. split.
  - intros slug n Hn Hdata.
    destruct (Hslug slug) as (i & q & Hi & Hq & _); [apply owns_spec; by exists n|].
    exists i. split; [done|]. by exists q.
  - intros q. split.
    + intros (slug & i & Ho & Hi & Hq)%Hback. apply owns_spec in Ho as (n & Hn & Hdata).
      by exists slug, n, i.
    + intros (slug & n & i & Hn & Hdata & Hi & Hq).
      destruct (Hslug slug) as (i' & q' & Hi' & Hq' & HqH); [apply owns_spec; by exists n|].
      rewrite Hi in Hi'. injection Hi' as <-. rewrite Hq in Hq'. by injection Hq' as <-.
Qed.

Lemma get_held_partitions_spec_witness :
  (_get_held_partitions Scenario.consuming).2 = Scenario.consuming ∧
  ∀ q, q ∈ (list_to_set (Scenario.p <$> [0; 1; 2; 3; 4]) : gset Partition.t) ↔
       ∃ slug n i,
         zk Scenario.consuming !! (_topic_path (config Scenario.consuming) ++ [slug])
         = Some n ∧
         ZooKeeper.data n = _consumer_id (config Scenario.consuming) ∧
         slug_partition_id slug = Return i ∧
         Topic.partitions (_topic (config Scenario.consuming)) !! i = Some q.
Proof.
  assert ((_get_held_partitions Scenario.consuming).1
          = Return (list_to_set (Scenario.p <$> [0; 1; 2; 3; 4]))) as Hrun
    by (vm_cast_no_check
          (eq_refl (Return (list_to_set (Scenario.p <$> [0; 1; 2; 3; 4]) : gset Partition.t)))).
  destruct (get_held_partitions_spec Scenario.consuming
              (_get_held_partitions Scenario.consuming).2
              (list_to_set (Scenario.p <$> [0; 1; 2; 3; 4])))
    as (H1 & _ & _ & H2).
  - rewrite <- Hrun. apply surjective_pairing.
  - split; [exact H1|exact H2].
Defined.

(** ** Writing the registry *)

Section registry_steps.

(** One turn of the loop of [_add_partitions]. *)
Lemma add_partitions_body (cfg : Config) (q : Partition.t) s c :
  _zookeeper s = Some c →
  (emit (AddPartition q) ;;;
   try_except
     (zk_create (_path_from_partition cfg q) (_consumer_id cfg) true false)
     (λ e, match e with
           | NodeExistsError => Some (raise (PartitionOwnedError q))
           | _ => None
           end)) s
  = match zk s !! _path_from_partition cfg q with
    | None =>
        (Return tt,
         set_zk (<[_path_from_partition cfg q :=
                     ZooKeeper.mk (_consumer_id cfg) (Some (KazooClient.session c))]> (zk s))
           (set_trace (trace s ++ [AddPartition q]) s))
    | Some _ =>
        (Raise (PartitionOwnedError q),
         set_zk (zk s) (set_trace (trace s ++ [AddPartition q]) s))
    end.
Proof.
  intros Hz. unfold bind at 1. simpl. unfold try_except.
  rewrite (zk_create_eq _ c) by done. unfold ZooKeeper.create. simpl.
  by destruct (zk s !! _path_from_partition cfg q).
Qed.

(** One turn of the loop of [_remove_partitions]. *)
Lemma remove_partitions_body (cfg : Config) (q : Partition.t) s c :
  _zookeeper s = Some c →
  (emit (RemovePartition q) ;;; zk_delete (_path_from_partition cfg q)) s
  = match zk s !! _path_from_partition cfg q with
    | Some _ =>
        (Return tt,
         set_zk (delete (_path_from_partition cfg q) (zk s))
           (set_trace (trace s ++ [RemovePartition q]) s))
    | None =>
        (Raise NoNodeException,
         set_zk (zk s) (set_trace (trace s ++ [RemovePartition q]) s))
    end.
Proof.
  intros Hz. unfold bind at 1. simpl.
  rewrite (zk_delete_eq _ c) by done. unfold ZooKeeper.delete. simpl.
  by destruct (zk s !! _path_from_partition cfg q).
Qed.

(** The loop of [_add_partitions] up to the first record that exists. *)
Lemma add_partitions_loop_owned (cfg : Config) (c : KazooClient.t)
    (ps1 ps2 : list Partition.t) (p : Partition.t) s :
  _zookeeper s = Some c →
  NoDup (_path_from_partition cfg <$> ps1) →
  (∀ q, q ∈ ps1 → zk s !! _path_from_partition cfg q = None) →
  is_Some (zk s !! _path_from_partition cfg p) →
  ∃ s', for_ (ps1 ++ p :: ps2) tt (λ p _,
          emit (AddPartition p) ;;;
          try_except
            (zk_create (_path_from_partition cfg p) (_consumer_id cfg) true false)
            (λ e, match e with
                  | NodeExistsError => Some (raise (PartitionOwnedError p))
                  | _ => None
                  end)) s = (Raise (PartitionOwnedError p), s') ∧
        (∀ k, zk s' !! k
              = if bool_decide (k ∈ _path_from_partition cfg <$> ps1)
                then Some (ZooKeeper.mk (_consumer_id cfg) (Some (KazooClient.session c)))
                else zk s !! k) ∧
        trace s' = trace s ++ (AddPartition <$> ps1) ++ [AddPartition p].
Proof.
  revert s. induction ps1 as [|q ps1 IH]; intros s Hz Hnd Hfree [n Hn].
  - cbn [app for_]. unfold bind at 1. rewrite (add_partitions_body cfg p s c Hz), Hn.
    eexists. split; [done|]. split; [done|]. done.
  - cbn [app for_]. unfold bind at 1. rewrite (add_partitions_body cfg q s c Hz).
    rewrite (Hfree q) by by left.
    rewrite fmap_cons in Hnd. apply NoDup_cons in Hnd as [Hq Hnd].
    set (s1 := set_zk _ _).
    destruct (IH s1) as (s' & Hrun & Hzk & Htr).
    + done.
    + done.
    + intros q' Hq'. unfold s1. simpl. rewrite lookup_insert_ne.
      * apply Hfree. by right.
      * intros Heq. apply Hq. rewrite Heq. apply list_elem_of_fmap. by exists q'.
    + exists n. unfold s1. simpl. rewrite lookup_insert_ne; [done|].
      intros Heq. rewrite <- Heq, (Hfree q) in Hn by by left. done.
    + exists s'. split; [done|]. split.
      * intros k. rewrite Hzk. unfold s1. cbn [zk set_zk set_trace]. rewrite fmap_cons.
        destruct (decide (k = _path_from_partition cfg q)) as [->|Hne].
        -- rewrite bool_decide_eq_false_2 by done.
           rewrite bool_decide_eq_true_2 by by left. apply lookup_insert_eq.
        -- rewrite lookup_insert_ne by done.
           case_bool_decide as H1; case_bool_decide as H2; try done.
           ++ destruct H2. by right.
           ++ apply elem_of_cons in H2 as [?|?]; done.
      * rewrite Htr. unfold s1. simpl. by rewrite <- app_assoc.
Qed.

End registry_steps.

(** X9. [_add_partitions] is not atomic.  When the record of a partition
    exists already, whoever it names, the call raises
    [PartitionOwnedError] for that partition; the records it created for
    the partitions before it stay, and the partitions after it are not
    tried. *)
Theorem add_partitions_owned (s : State) (c : KazooClient.t)
    (ps1 ps2 : list Partition.t) (p : Partition.t) :
  _zookeeper s = Some c →
  NoDup (_path_from_partition (config s) <$> ps1) →
  (∀ q, q ∈ ps1 → zk s !! _path_from_partition (config s) q = None) →
  is_Some (zk s !! _path_from_partition (config s) p) →
  ∃ s', _add_partitions (ps1 ++ p :: ps2) s = (Raise (PartitionOwnedError p), s') ∧
        (∀ k, zk s' !! k
              = if bool_decide (k ∈ _path_from_partition (config s) <$> ps1)
                then Some (ZooKeeper.mk (_consumer_id (config s))
                             (Some (KazooClient.session c)))
                else zk s !! k) ∧
        events_since s s' = (AddPartition <$> ps1) ++ [AddPartition p].
Proof.
  intros Hz Hnd Hfree Hp. unfold _add_partitions. unfold bind at 1, gets at 1.
  destruct (add_partitions_loop_owned (config s) c ps1 ps2 p s Hz Hnd Hfree Hp)
    as (s' & Hrun & Hzk & Htr).
  exists s'. split; [done|]. split; [done|]. by apply events_since_app.
Qed.

Lemma add_partitions_owned_witness :
  ∃ s', _add_partitions ([Scenario.p 1; Scenario.p 2] ++ Scenario.p 0 :: [Scenario.p 3])
          Scenario.contended
        = (Raise (PartitionOwnedError (Scenario.p 0)), s') ∧
        (∀ k, zk s' !! k
              = if bool_decide (k ∈ _path_from_partition (config Scenario.contended)
                                      <$> [Scenario.p 1; Scenario.p 2])
                then Some (ZooKeeper.mk (_consumer_id (config Scenario.contended))
                             (Some (KazooClient.session (KazooClient.mk 7))))
                else zk Scenario.contended !! k) ∧
        events_since Scenario.contended s'
        = (AddPartition <$> [Scenario.p 1; Scenario.p 2]) ++ [AddPartition (Scenario.p 0)].
Proof.
  apply (add_partitions_owned Scenario.contended (KazooClient.mk 7)).
  - reflexivity.
  - apply (bool_decide_unpack _). vm_compute. exact I.
  - apply Forall_forall. repeat constructor; vm_compute; reflexivity.
  - eexists. vm_compute. reflexivity.
Defined.

(** The loop of [_remove_partitions] over records that exist. *)
Lemma remove_partitions_loop (cfg : Config) (c : KazooClient.t) (ps : list Partition.t) s :
  _zookeeper s = Some c →
  NoDup (_path_from_partition cfg <$> ps) →
  (∀ q, q ∈ ps → is_Some (zk s !! _path_from_partition cfg q)) →
  ∃ s', for_ ps tt (λ p _,
          emit (RemovePartition p) ;;; zk_delete (_path_from_partition cfg p)) s
        = (Return tt, s') ∧
        trace s' = trace s ++ (RemovePartition <$> ps).
Proof.
  revert s. induction ps as [|q ps IH]; intros s Hz Hnd Hall.
  - eexists. split; [done|]. by rewrite app_nil_r.
  - cbn [for_]. unfold bind at 1. rewrite (remove_partitions_body cfg q s c Hz).
    destruct (Hall q) as [n ->]; [by left|].
    rewrite fmap_cons in Hnd. apply NoDup_cons in Hnd as [Hq Hnd].
    set (s1 := set_zk _ _).
    destruct (IH s1) as (s' & Hrun & Htr); [done|done| |].
    + intros q' Hq'. unfold s1. cbn [zk set_zk set_trace]. rewrite lookup_delete_ne.
      * apply Hall. by right.
      * intros Heq. apply Hq. rewrite Heq. apply list_elem_of_fmap. by exists q'.
    + exists s'. split; [done|]. rewrite Htr. unfold s1. simpl. by rewrite <- app_assoc.
Qed.

(** X10. [_remove_partitions] deletes the record of each partition it is
    given without looking at the member the record names: when the
    records exist, the call returns, these records are gone whatever they
    held, and every other node of the coordinator is as before. *)
Theorem remove_partitions_deletes (s : State) (c : KazooClient.t) (ps : list Partition.t) :
  _zookeeper s = Some c →
  NoDup (_path_from_partition (config s) <$> ps) →
  (∀ q, q ∈ ps → is_Some (zk s !! _path_from_partition (config s) q)) →
  ∃ s', _remove_partitions ps s = (Return tt, s') ∧
        (∀ k, zk s' !! k
              = if bool_decide (k ∈ _path_from_partition (config s) <$> ps) then None
                else zk s !! k) ∧
        events_since s s' = RemovePartition <$> ps.
Proof.
  intros Hz Hnd Hall.
  destruct (remove_partitions_loop (config s) c ps s Hz Hnd Hall) as (s' & Hrun & Htr).
  assert (_remove_partitions ps s = (Return tt, s')) as Hrun'.
  { unfold _remove_partitions. by unfold bind at 1, gets at 1. }
  exists s'. split; [done|]. split; [by apply remove_partitions_Return|].
  by apply events_since_app.
Qed.

(** Partition 0 is recorded for the departed member [b]; member [a]
    deletes the record all the same. *)
Lemma remove_partitions_deletes_witness :
  ZooKeeper.data <$> (zk Scenario.contended
                        !! _path_from_partition (config Scenario.contended) (Scenario.p 0))
  = Some "b"%string ∧
  ∃ s', _remove_partitions [Scenario.p 0] Scenario.contended = (Return tt, s') ∧
        (∀ k, zk s' !! k
              = if bool_decide (k ∈ _path_from_partition (config Scenario.contended)
                                      <$> [Scenario.p 0]) then None
                else zk Scenario.contended !! k) ∧
        events_since Scenario.contended s' = RemovePartition <$> [Scenario.p 0].
Proof.
  split; [vm_compute; reflexivity|].
  apply (remove_partitions_deletes Scenario.contended (KazooClient.mk 7)).
  - reflexivity.
  - apply (bool_decide_unpack _). vm_compute. exact I.
  - apply Forall_forall. repeat constructor; eexists; vm_compute; reflexivity.
Defined.

(** ** Registering the member *)

(** X11. [_add_self] refuses to register the member when the topic has
    no more partitions than the group has participants: it raises
    [KafkaException] and changes nothing.  With room in the group, a
    member whose record exists already gets [NodeExistsError] and the
    coordinator is left as it was. *)
Theorem add_self_refuses (s : State) (P : list string) :
  _get_participants s = (Return P, s) →
  (Z.of_nat (size (Topic.partitions (_topic (config s)))) ≤ Py.len P →
   _add_self s
   = (Raise (KafkaException "Cannot add consumer: more consumers than partitions"), s)) ∧
  (Py.len P < Z.of_nat (size (Topic.partitions (_topic (config s)))) →
   is_Some (zk s !! _path_self (config s)) →
   ∃ s', _add_self s = (Raise NodeExistsError, s') ∧ zk s' = zk s ∧ trace s' = trace s).
Proof.
  intros HP. pose proof HP as (_ & [c Hz] & _)%get_participants_Return. split.
  - intros Hfull. unfold _add_self. unfold bind at 1, gets at 1.
    rewrite (bind_Return_eq _ _ _ _ _ HP).
    by rewrite (proj2 (Z.leb_le _ _) Hfull).
  - intros Hroom [n Hn]. unfold _add_self. unfold bind at 1, gets at 1.
    rewrite (bind_Return_eq _ _ _ _ _ HP).
    rewrite (proj2 (Z.leb_gt _ _) Hroom).
    rewrite (zk_create_eq _ c) by done. unfold ZooKeeper.create. rewrite Hn.
    by eexists.
Qed.

Lemma add_self_refuses_witness :
  (Z.of_nat (size (Topic.partitions (_topic (config Scenario.crowded)))) ≤ Py.len Scenario.P →
   _add_self Scenario.crowded
   = (Raise (KafkaException "Cannot add consumer: more consumers than partitions"),
      Scenario.crowded)) ∧
  (Py.len Scenario.P < Z.of_nat (size (Topic.partitions (_topic (config Scenario.crowded)))) →
   is_Some (zk Scenario.crowded !! _path_self (config Scenario.crowded)) →
   ∃ s', _add_self Scenario.crowded = (Raise NodeExistsError, s') ∧
         zk s' = zk Scenario.crowded ∧ trace s' = trace Scenario.crowded).
Proof.
  apply (add_self_refuses Scenario.crowded Scenario.P).
  rewrite (get_participants_eq Scenario.crowded (KazooClient.mk 9)) by reflexivity.
  f_equal; vm_compute; reflexivity.
Defined.

(** The answer of [_get_participants] is sorted already. *)
Lemma participants_of_sorted (cfg : Config) (st : gmap (list string) ZooKeeper.node) :
  Py.sorted id (participants_of cfg st) = participants_of cfg st.
Proof.
  unfold participants_of. destruct (st !! _consumer_id_path cfg); [|done].
  apply sorted_id_perm, sorted_Permutation.
Qed.

(** X12. After [_add_self] has returned on a coordinator that is a tree,
    [_get_participants] answers the participants of before together with
    this member, in sorted order, and their number does not exceed the
    number of partitions of the topic. *)
Theorem add_self_participants (s s' : State) (P : list string) :
  rooted (zk s) →
  _get_participants s = (Return P, s) →
  _add_self s = (Return tt, s') →
  (_consumer_id (config s) ∉ P) ∧
  _get_participants s' = (Return (Py.sorted id (P ++ [_consumer_id (config s)])), s') ∧
  Py.len (Py.sorted id (P ++ [_consumer_id (config s)]))
  ≤ Z.of_nat (size (Topic.partitions (_topic (config s)))).
Proof.
  intros Hroot HP Hadd.
  pose proof HP as (_ & _ & ->)%get_participants_Return.
  assert (Py.len (participants_of (config s) (zk s))
          < Z.of_nat (size (Topic.partitions (_topic (config s))))) as Hroom.
  { revert Hadd. unfold _add_self. unfold bind at 1, gets at 1.
    rewrite (bind_Return_eq _ _ _ _ _ HP).
    destruct (Z.leb_spec (Z.of_nat (size (Topic.partitions (_topic (config s)))))
                (Py.len (participants_of (config s) (zk s)))); [done|lia]. }
  apply add_self_Return in Hadd as (c & Hz & Hnone & ->).
  assert (_consumer_id (config s) ∉ participants_of (config s) (zk s)) as Hnot.
  { rewrite elem_of_participants_of by done. rewrite is_registered_spec.
    intros (n & Hn & _). unfold _path_self in Hnone. by rewrite Hnone in Hn. }
  destruct (participants_of_add_self (config s) (zk s)
              (ZooKeeper.mk (Topic.name (_topic (config s)))
                 (Some (KazooClient.session c))) Hroot eq_refl Hnot) as (_ & Hperm).
  split; [done|]. split.
  - rewrite (get_participants_eq _ c) by done.
    by rewrite (sorted_id_perm _ _ Hperm), participants_of_sorted.
  - unfold Py.len in *. rewrite sorted_length, length_app. simpl. lia.
Qed.

Lemma add_self_participants_witness :
  (_consumer_id (config Scenario.fresh) ∉ ([] : list string)) ∧
  _get_participants (_add_self Scenario.fresh).2
  = (Return (Py.sorted id ([] ++ [_consumer_id (config Scenario.fresh)])),
     (_add_self Scenario.fresh).2) ∧
  Py.len (Py.sorted id ([] ++ [_consumer_id (config Scenario.fresh)]))
  ≤ Z.of_nat (size (Topic.partitions (_topic (config Scenario.fresh)))).
Proof.
  assert ((_add_self Scenario.fresh).1 = Return tt) as Hrun by (vm_compute; reflexivity).
  apply (add_self_participants Scenario.fresh).
  - apply rooted_intro. apply (bool_decide_unpack _). vm_compute. exact I.
  - rewrite (get_participants_eq Scenario.fresh (KazooClient.mk 7)) by reflexivity.
    f_equal; vm_compute; reflexivity.
  - rewrite <- Hrun. apply surjective_pairing.
Defined.

(** ** Stopping *)

(** A member without participant record is not a participant. *)
Lemma not_registered_not_participant (cfg : Config)
    (st : gmap (list string) ZooKeeper.node) :
  st !! _path_self cfg = None → _consumer_id cfg ∉ participants_of cfg st.
Proof.
  intros Hgone. unfold participants_of.
  destruct (st !! _consumer_id_path cfg); [|by intros ?%elem_of_nil].
  rewrite elem_of_sorted, elem_of_registered, is_registered_spec.
  intros (m & Hm & _). unfold _path_self in Hgone. by rewrite Hgone in Hm.
Qed.

(** A [stop] that returns on a member that was handed its client has
    deleted the participant record. *)
Lemma stop_Return_record_gone (s s' : State) :
  _owns_zookeeper (config s) = false →
  stop s = (Return tt, s') →
  zk s' !! _path_self (config s) = None ∧ config s' = config s ∧
  _consumer s' = SimpleConsumer.stop <$> _consumer s.
Proof.
  intros Hown H. unfold stop in H.
  apply bind_inv_Return in H as ([] & s1 & [= <-] & H).
  apply bind_inv_Return in H as ([] & s2 & Hl & H).
  apply with_lock_inv in Hl as (_ & sb & [= <-] & ->); [|done].
  unfold bind at 1, gets at 1 in H.
  apply bind_inv_Return in H as ([] & s3 & Hc & H).
  unfold bind at 1, gets at 1 in H.
  assert (config s3 = config s ∧ zk s3 = zk s ∧
          _consumer s3 = SimpleConsumer.stop <$> _consumer s) as (Hcfg3 & Hzk3 & Hc3).
  { revert Hc. cbn. destruct (_consumer s) as [c|] eqn:Hcs;
      unfold bind, emit, modify, ret; simpl; intros [= <-]; simpl; by rewrite ?Hcs. }
  rewrite Hcfg3, Hown in H.
  apply bind_inv_Return in H as (held & s4 & Hheld & H).
  apply get_held_partitions_Return in Hheld as (-> & _ & _).
  apply bind_inv_Return in H as ([] & s5 & Hrm & H).
  pose proof (consumer_remove_partitions _ _ _ _ Hrm) as [= Hc5 Hcfg5 Hz5 _].
  revert H. unfold try_except.
  destruct (zk_delete (_path_self (config s)) s5) as [[[]|e| |] s6] eqn:Hdel; try done.
  - intros [= <-]. apply zk_delete_Return in Hdel as (_ & ->). simpl.
    rewrite lookup_delete_eq. split; [done|]. split; congruence.
  - destruct e; try done. intros [= <-].
    revert Hdel. unfold zk_delete, bind, zookeeper, ZooKeeper.delete.
    destruct (_zookeeper s5); [|done].
    destruct (zk s5 !! _path_self (config s)) eqn:Hp; [done|].
    intros [= <-]. simpl. split; [done|]. split; congruence.
Qed.

(** X13. A member that was handed its client and whose [stop] returns is
    no longer running, has released the lock and has stopped its inner
    consumer if it had one; its participant record is gone, so that
    [_get_participants] no longer lists it. *)
Theorem stop_unregisters (s s' : State) :
  _owns_zookeeper (config s) = false →
  stop s = (Return tt, s') →
  _running s' = false ∧
  _rebalancing_lock s' = false ∧
  _consumer s' = SimpleConsumer.stop <$> _consumer s ∧
  zk s' !! _path_self (config s) = None ∧
  (∀ P s'', _get_participants s' = (Return P, s'') → _consumer_id (config s) ∉ P).
Proof.
  intros Hown Hstop.
  destruct (stop_Return_stopped _ _ Hstop) as [Hrun Hlock].
  destruct (stop_Return_record_gone _ _ Hown Hstop) as (Hgone & Hcfg & Hc).
  split; [done|]. split; [done|]. split; [done|]. split; [done|].
  intros P s'' (-> & _ & ->)%get_participants_Return.
  rewrite Hcfg. by apply not_registered_not_participant.
Qed.

Lemma stop_unregisters_witness :
  _running (stop Scenario.consuming).2 = false ∧
  _rebalancing_lock (stop Scenario.consuming).2 = false ∧
  _consumer (stop Scenario.consuming).2 = SimpleConsumer.stop <$> _consumer Scenario.consuming ∧
  zk (stop Scenario.consuming).2 !! _path_self (config Scenario.consuming) = None ∧
  (∀ P s'', _get_participants (stop Scenario.consuming).2 = (Return P, s'') →
            _consumer_id (config Scenario.consuming) ∉ P).
Proof.
  assert ((stop Scenario.consuming).1 = Return tt) as Hrun by (vm_compute; reflexivity).
  apply (stop_unregisters Scenario.consuming).
  - reflexivity.
  - rewrite <- Hrun. apply surjective_pairing.
Defined.

(** ** The callbacks of the watches and the checker thread *)

(** X14. The three watch callbacks, under [_catch_thread_exception],
    never raise.  On a member that is not running they return [False],
    which disarms the watch, and change nothing; while the watches are
    being set they return [None] and change nothing; otherwise an
    exception of the rebalance is stored in [_worker_exception] and the
    callback returns [None]. *)
Theorem watch_callbacks_never_raise (env : Env) (why : string) (s : State) :
  (∀ e, (watch_changed env why s).1 ≠ Raise e) ∧
  (_running s = false → watch_changed env why s = (Return (Some false), s)) ∧
  (_running s = true → _setting_watches s = true →
   watch_changed env why s = (Return None, s)) ∧
  (_running s = true → _setting_watches s = false →
   ∀ e sr, _rebalance env (set_trace (trace s ++ [Log DEBUG why]) s) = (Raise e, sr) →
           watch_changed env why s = (Return None, set_worker_exception (Some e) sr)) ∧
  _brokers_changed env = watch_changed env "Rebalance triggered by broker change" ∧
  _consumers_changed env = watch_changed env "Rebalance triggered by consumer change" ∧
  _topics_changed env = watch_changed env "Rebalance triggered by topic change".
Proof.
  split; [|split; [|split; [|split]]].
  - intros e. unfold watch_changed, _catch_thread_exception, try_except.
    destruct (bind _ _ s) as [[a|e'| |] s1]; done.
  - intros Hr. unfold watch_changed, _catch_thread_exception, try_except.
    unfold bind at 1, gets at 1. by rewrite Hr.
  - intros Hr Hw. unfold watch_changed, _catch_thread_exception, try_except.
    unfold bind at 1, gets at 1. rewrite Hr. simpl.
    unfold bind at 1, gets at 1. by rewrite Hw.
  - intros Hr Hw e sr Hreb. unfold watch_changed, _catch_thread_exception, try_except.
    unfold bind at 1, gets at 1. rewrite Hr. simpl.
    unfold bind at 1, gets at 1. rewrite Hw.
    unfold bind at 1. simpl. unfold bind at 1. by rewrite Hreb.
  - done.
Qed.

(** X15. A turn of the checker thread never raises.  On a member that is
    not running the loop ends at once, before any sleep; an exception of
    the check or of the rebalance is stored in [_worker_exception] and
    ends the loop. *)
Theorem checker_turn_never_raises (env : Env) (s : State) :
  (∀ e, (checker_turn env s).1 ≠ Raise e) ∧
  (_running s = false → checker_turn env s = (Return false, s)) ∧
  (_running s = true →
   ∀ e sr, (sleep env 120000 ;;;
            ok <- _check_held_partitions ;;
            (if (ok : bool) then ret tt else _rebalance env) ;;;
            ret true) s = (Raise e, sr) →
           checker_turn env s = (Return false, set_worker_exception (Some e) sr)).
Proof.
  split; [|split].
  - intros e. unfold checker_turn, try_except.
    destruct (bind _ _ s) as [[a|e'| |] s1]; done.
  - intros Hr. unfold checker_turn, try_except. unfold bind at 1, gets at 1. by rewrite Hr.
  - intros Hr e sr Hbody. unfold checker_turn, try_except.
    unfold bind at 1, gets at 1. cbv beta iota. rewrite Hr.
    change (negb true) with false. cbv iota. by rewrite Hbody.
Qed.

(** A rebalance that fails in the callback of a watch: the departed
    member [b] holds partition 0, the retries run out, and the
    [PartitionOwnedError] ends up in [_worker_exception]. *)
Lemma watch_callbacks_never_raise_witness :
  let s := set_setting_watches false Scenario.contended in
  let why := "Rebalance triggered by consumer change"%string in
  watch_changed Scenario.env why s
  = (Return None,
     set_worker_exception (Some (PartitionOwnedError (Scenario.p 0)))
       (_rebalance Scenario.env (set_trace (trace s ++ [Log DEBUG why]) s)).2).
Proof.
  intros s why.
  assert ((_rebalance Scenario.env (set_trace (trace s ++ [Log DEBUG why]) s)).1
          = Raise (PartitionOwnedError (Scenario.p 0))) as Hrun
    by (vm_compute; reflexivity).
  destruct (watch_callbacks_never_raise Scenario.env why s) as (_ & _ & _ & H & _).
  apply H; [reflexivity|reflexivity|].
  rewrite <- Hrun. apply surjective_pairing.
Defined.

(** [_set_watches], path by path. *)
Lemma set_watches_eq (s : State) :
  let s0 := set_setting_watches true s in
  let s1 := set_watches (watches s ++ [["brokers"; "ids"]%string]) s0 in
  let s2 := set_watches (watches s1 ++ [["brokers"; "topics"]%string]) s1 in
  let s3 := set_watches (watches s2 ++ [_consumer_id_path (config s)]) s2 in
  _set_watches s =
  match _zookeeper s with
  | None => (Raise AttributeError, s0)
  | Some _ =>
      match zk s !! ["brokers"; "ids"]%string with
      | None =>
          (Raise (Exception "The broker_path does not exist in your ZooKeeper cluster"),
           s0)
      | Some _ =>
          match zk s !! ["brokers"; "topics"]%string with
          | None => (Raise NoNodeException, s1)
          | Some _ =>
              match zk s !! _consumer_id_path (config s) with
              | None => (Raise NoNodeException, s2)
              | Some _ => (Return tt, set_setting_watches false s3)
              end
          end
      end
  end.
Proof.
  unfold _set_watches, zk_children_watch, zk_get_children, try_except, bind, gets, modify,
    zookeeper, ZooKeeper.get_children.
  destruct (_zookeeper s) as [c|] eqn:Hz,
    (zk s !! ["brokers"; "ids"]%string) eqn:H1,
    (zk s !! ["brokers"; "topics"]%string) eqn:H2,
    (zk s !! _consumer_id_path (config s)) eqn:H3;
    repeat (simpl; rewrite ?Hz, ?H1, ?H2, ?H3); done.
Qed.

(** X16. [_set_watches] clears [_setting_watches] only on success.  When
    it returns, the flag is off and the three watches were installed, on
    [/brokers/ids], [/brokers/topics] and the participants directory in
    this order; when it fails, the flag stays on.  With a client and no
    [/brokers/ids] it raises the plain [Exception] of the source.  It
    never changes the coordinator. *)
Theorem set_watches_flag (s : State) :
  ((_set_watches s).1 = Return tt →
   _setting_watches (_set_watches s).2 = false ∧
   watches (_set_watches s).2
   = watches s ++ [["brokers"; "ids"]; ["brokers"; "topics"];
                   _consumer_id_path (config s)]%string) ∧
  ((_set_watches s).1 ≠ Return tt → _setting_watches (_set_watches s).2 = true) ∧
  (is_Some (_zookeeper s) → zk s !! ["brokers"; "ids"]%string = None →
   (_set_watches s).1
   = Raise (Exception "The broker_path does not exist in your ZooKeeper cluster")) ∧
  zk (_set_watches s).2 = zk s.
Proof.
  rewrite set_watches_eq.
  destruct (_zookeeper s) as [c|]; [|by (repeat split; try done; intros [])].
  destruct (zk s !! ["brokers"; "ids"]%string); [|by repeat split].
  destruct (zk s !! ["brokers"; "topics"]%string); [|by repeat split].
  destruct (zk s !! _consumer_id_path (config s)); [|by repeat split].
  simpl. split; [|by repeat split]. intros _. split; [done|]. by rewrite <- !app_assoc.
Qed.

(** ** Consuming *)

Section consuming.
Context (env : Env).

(** Without a timeout the clock is not read. *)
Lemma consumer_timed_out_never (s : State) :
  _consumer_timeout_ms (config s) = -1 → consumer_timed_out env s = (Return false, s).
Proof.
  intros Hm. unfold consumer_timed_out. unfold bind at 1, gets at 1. by rewrite Hm.
Qed.

(** One turn of the loop of [consume] in which the inner consumer
    answers [r]. *)
Lemma consume_loop_turn (s : State) (c : SimpleConsumer.t) (fuel : nat) (block : bool) :
  _consumer_timeout_ms (config s) = -1 →
  _worker_exception s = None →
  _consumer s = Some c →
  consume_loop env (S fuel) block s
  = let s1 := set_ticks (S (ticks s)) s in
    match inner_consume env c block (ticks s) with
    | Return (Some m) =>
        (Return (Some m),
         set_last_message_time (clock env (S (ticks s))) (set_ticks (S (S (ticks s))) s1))
    | Return None => if block then consume_loop env fuel block s1 else (Return None, s1)
    | Raise ConsumerStoppedException =>
        if _running s then consume_loop env fuel block s1 else (Return None, s1)
    | Raise e => (Raise e, s1)
    | Blocked => (Blocked, s1)
    | OutOfFuel => (OutOfFuel, s1)
    end.
Proof.
  intros Hm Hex Hc. cbn [consume_loop].
  rewrite (bind_Return_eq _ _ _ _ _ (consumer_timed_out_never s Hm)).
  rewrite (bind_Return_eq _ _ _ _ _ (raise_worker_exceptions_none s Hex)).
  unfold bind at 1, gets at 1. rewrite Hc.
  unfold bind at 1, gets at 1. unfold bind at 1. simpl.
  unfold bind at 1. unfold try_except, bind at 1, lift.
  destruct (inner_consume env c block (ticks s)) as [[m|]|e| |]; simpl; try done.
  - by destruct block.
  - by destruct block.
  - destruct e; try done. simpl. unfold bind at 1, gets at 1. simpl.
    by destruct (_running s).
Qed.

(** The loop spins as long as the inner consumer reports that it is
    stopped while the member runs. *)
Lemma consume_loop_spins (c : SimpleConsumer.t) (block : bool) (fuel : nat) (s : State) :
  _consumer_timeout_ms (config s) = -1 →
  _worker_exception s = None →
  _consumer s = Some c →
  _running s = true →
  (∀ n, inner_consume env c block n = Raise ConsumerStoppedException) →
  (consume_loop env fuel block s).1 = OutOfFuel.
Proof.
  intros Hm Hex Hc Hr Hin. revert s Hm Hex Hc Hr.
  induction fuel as [|fuel IH]; intros s Hm Hex Hc Hr; [done|].
  rewrite (consume_loop_turn s c fuel block Hm Hex Hc). simpl.
  rewrite Hin, Hr. by apply IH.
Qed.

End consuming.

(** X17. [consume] on a running member without timeout whose inner
    consumer keeps raising [ConsumerStoppedException] never returns,
    blocking or not: the exception is swallowed and the loop goes on,
    whatever the number of turns it is given. *)
Theorem consume_spins_on_stopped_inner (env : Env) (s : State) (c : SimpleConsumer.t)
    (block : bool) :
  _partitions s ≠ ∅ →
  _consumer_timeout_ms (config s) = -1 →
  _worker_exception s = None →
  _consumer s = Some c →
  _running s = true →
  (∀ n, inner_consume env c block n = Raise ConsumerStoppedException) →
  ∀ fuel, (consume env fuel block s).1 = OutOfFuel.
Proof.
  intros Hp Hm Hex Hc Hr Hin fuel. unfold consume. unfold bind at 1, gets at 1.
  rewrite decide_False by done. unfold bind at 1, time. unfold bind at 1. simpl.
  by apply (consume_loop_spins env c).
Qed.

(** X18. Without a timeout and without a stored worker error, [consume]
    returns the message the inner consumer delivers on the first turn and
    records the time of its arrival; when the inner consumer has no
    message, a non-blocking [consume] returns [None] after this one
    turn. *)
Theorem consume_first_message (env : Env) (s : State) (c : SimpleConsumer.t)
    (block : bool) (fuel : nat) :
  _partitions s ≠ ∅ →
  _consumer_timeout_ms (config s) = -1 →
  _worker_exception s = None →
  _consumer s = Some c →
  (∀ m, inner_consume env c block (S (ticks s)) = Return (Some m) →
        ∃ s', consume env (S fuel) block s = (Return (Some m), s') ∧
              _last_message_time s' = clock env (S (S (ticks s)))) ∧
  (block = false → inner_consume env c block (S (ticks s)) = Return None →
   ∃ s', consume env (S fuel) block s = (Return None, s') ∧
         _last_message_time s' = clock env (ticks s)).
Proof.
  intros Hp Hm Hex Hc.
  assert (consume env (S fuel) block s
          = consume_loop env (S fuel) block
              (set_last_message_time (clock env (ticks s)) (set_ticks (S (ticks s)) s)))
    as ->.
  { unfold consume. unfold bind at 1, gets at 1. by rewrite decide_False by done. }
  rewrite (consume_loop_turn env _ c fuel block) by done. simpl. split.
  - intros m ->. by eexists.
  - intros -> ->. by eexists.
Qed.

(** An environment whose inner consumers report that they are stopped,
    and one whose inner consumers deliver a message on every call. *)
Definition env_inner_stopped : Env :=
  {| peers := λ _ st, st; kazoo_session := 1; kazoo_start_error := None;
     initial_offset := λ _, 0; inner_commit_offsets := λ _, None;
     inner_reset_offsets := λ _, None;
     inner_consume := λ _ _ _, Raise ConsumerStoppedException;
     spawn_error := None; clock := λ n, Z.of_nat n |}.

Definition env_inner_delivers : Env :=
  {| peers := λ _ st, st; kazoo_session := 1; kazoo_start_error := None;
     initial_offset := λ _, 0; inner_commit_offsets := λ _, None;
     inner_reset_offsets := λ _, None;
     inner_consume := λ _ _ n, Return (Some (Message.mk 0 (Z.of_nat n) "m"));
     spawn_error := None; clock := λ n, Z.of_nat n |}.

Lemma consume_spins_on_stopped_inner_witness :
  (consume env_inner_stopped 1000 false Scenario.consuming).1 = OutOfFuel.
Proof.
  destruct (_consumer Scenario.consuming) as [c|] eqn:Hc;
    [|exfalso; revert Hc; vm_compute; discriminate].
  apply (consume_spins_on_stopped_inner env_inner_stopped Scenario.consuming c false).
  - apply (bool_decide_unpack _). vm_compute. exact I.
  - reflexivity.
  - vm_compute. reflexivity.
  - exact Hc.
  - vm_compute. reflexivity.
  - intros n. reflexivity.
Defined.

Lemma consume_first_message_witness :
  ∃ c, _consumer Scenario.consuming = Some c ∧
  (∀ m, inner_consume env_inner_delivers c true (S (ticks Scenario.consuming))
        = Return (Some m) →
        ∃ s', consume env_inner_delivers 1 true Scenario.consuming = (Return (Some m), s') ∧
              _last_message_time s' = clock env_inner_delivers (S (S (ticks Scenario.consuming)))) ∧
  (true = false →
   inner_consume env_inner_delivers c true (S (ticks Scenario.consuming)) = Return None →
   ∃ s', consume env_inner_delivers 1 true Scenario.consuming = (Return None, s') ∧
         _last_message_time s' = clock env_inner_delivers (ticks Scenario.consuming)).
Proof.
  destruct (_consumer Scenario.consuming) as [c|] eqn:Hc;
    [|exfalso; revert Hc; vm_compute; discriminate].
  exists c. split; [reflexivity|].
  apply (consume_first_message env_inner_delivers Scenario.consuming c true 0).
  - apply (bool_decide_unpack _). vm_compute. exact I.
  - reflexivity.
  - vm_compute. reflexivity.
  - exact Hc.
Defined.

(** ** Rebalancing at its edges *)

Section rebalance_edges.
Context (env : Env).

(** [stop] leaves the lock free. *)
Lemma stop_lock_free (s : State) (r : Outcome unit) (s' : State) :
  _rebalancing_lock s = false → stop s = (r, s') → _rebalancing_lock s' = false.
Proof.
  intros Hfree. unfold stop. set (tail := (c <- gets _consumer ;; _)).
  unfold bind at 1. simpl. unfold bind at 1, with_lock. simpl. rewrite Hfree. simpl.
  assert (preserves (same _rebalancing_lock) tail) as Ht.
  { unfold tail, _remove_partitions. pose proof eq_get_held_partitions.
    frame same_leaf. }
  intros H. apply Ht in H. by rewrite H.
Qed.

(** The commit that opens [_rebalance]. *)
Lemma rebalance_commit_quiet (s : State) (r : Outcome unit) (s' : State) :
  (if _consumer s is Some _ then commit_offsets env else ret tt) s = (r, s') →
  quiet s s' ∧ _rebalancing_lock s' = _rebalancing_lock s ∧
  (_consumer s = None → r = Return tt ∧ s' = s).
Proof.
  destruct (_consumer s) as [c|] eqn:Hc.
  - intros H. split; [by apply (quiet_commit_offsets env _ _ _ H)|].
    split; [by apply (lock_commit_offsets env _ _ _ H)|done].
  - intros [= <- <-]. split; [reflexivity|]. by split.
Qed.

End rebalance_edges.

(** X19. A member that does not run does not rebalance: [_rebalance]
    never returns normally, the coordinator and the inner consumer are as
    before, and the lock, free before, is free again; without an inner
    consumer the call raises [ConsumerStoppedException] after it has
    taken and released the lock. *)
Theorem rebalance_when_stopped (env : Env) (s s' : State) (r : Outcome unit) :
  _running s = false →
  _rebalancing_lock s = false →
  _rebalance env s = (r, s') →
  (∃ e, r = Raise e) ∧
  zk s' = zk s ∧ _consumer s' = _consumer s ∧ _rebalancing_lock s' = false ∧
  (_consumer s = None →
   r = Raise ConsumerStoppedException ∧
   events_since s s' = [LockAcquired; LockReleased]).
Proof.
  intros Hr Hfree Hrun.
  assert (settled s) as Hs by by left.
  pose proof (rebalance_settled_quiet env _ _ _ Hs Hrun) as [[= Hzk Hc _ _ _] _].
  revert Hrun. unfold _rebalance. unfold bind at 1, gets at 1.
  unfold bind at 1.
  destruct ((if _consumer s is Some _ then commit_offsets env else ret tt) s)
    as [rc sa] eqn:Hcommit.
  pose proof (total_commit_offsets env s) as Htot.
  destruct (rebalance_commit_quiet env _ _ _ Hcommit) as ([[= _ _ _ _ Hra] _] & Hla & Hnone).
  assert (finished rc) as Hfin.
  { destruct (_consumer s); [by rewrite Hcommit in Htot|]. by injection Hcommit as <- _. }
  destruct rc as [[]|e| |]; try done.
  2:{ intros [= <- <-]. split; [by eexists|]. split; [done|]. split; [done|].
      split; [congruence|]. intros Hn. by destruct (Hnone Hn). }
  unfold bind at 1, rebalance_locked. unfold bind at 1, gets at 1. unfold with_lock.
  rewrite Hla, Hfree. unfold bind at 1. simpl. unfold bind at 1, gets at 1. simpl.
  rewrite Hra, Hr. simpl. intros [= <- <-].
  split; [by eexists|]. split; [done|]. split; [done|]. split; [done|].
  intros Hn. destruct (Hnone Hn) as [_ ->]. split; [done|].
  apply events_since_app. simpl. by rewrite <- app_assoc.
Qed.

Lemma rebalance_when_stopped_witness :
  (∃ e, (_rebalance Scenario.env Scenario.fresh).1 = Raise e) ∧
  zk (_rebalance Scenario.env Scenario.fresh).2 = zk Scenario.fresh ∧
  _consumer (_rebalance Scenario.env Scenario.fresh).2 = _consumer Scenario.fresh ∧
  _rebalancing_lock (_rebalance Scenario.env Scenario.fresh).2 = false ∧
  (_consumer Scenario.fresh = None →
   (_rebalance Scenario.env Scenario.fresh).1 = Raise ConsumerStoppedException ∧
   events_since Scenario.fresh (_rebalance Scenario.env Scenario.fresh).2
   = [LockAcquired; LockReleased]).
Proof.
  apply (rebalance_when_stopped Scenario.env Scenario.fresh).
  - reflexivity.
  - reflexivity.
  - apply surjective_pairing.
Defined.

(** X20. With [rebalance_max_retries] at zero or below the loop of
    [_rebalance] has no turn: on a running member without inner consumer
    the call returns normally although it has read nothing and claimed
    nothing, and the member is left without inner consumer. *)
Theorem rebalance_without_retries (env : Env) (s : State) :
  _rebalance_max_retries (config s) ≤ 0 →
  _running s = true →
  _rebalancing_lock s = false →
  _consumer s = None →
  ∃ s', _rebalance env s = (Return tt, s') ∧
        zk s' = zk s ∧ _consumer s' = None ∧ partitions s' = None ∧
        events_since s s' = [LockAcquired; Log INFO "Rebalancing consumer"; LockReleased].
Proof.
  intros Hmax Hr Hfree Hc. unfold _rebalance. unfold bind at 1, gets at 1. rewrite Hc.
  unfold bind at 1. simpl. unfold bind at 1, rebalance_locked.
  unfold bind at 1, gets at 1. unfold with_lock. rewrite Hfree.
  unfold bind at 1. simpl. unfold bind at 1, gets at 1. simpl. rewrite Hr. simpl.
  unfold bind at 1. simpl. unfold Py.range.
  replace (Z.to_nat (_rebalance_max_retries (config s))) with 0%nat by lia. simpl.
  eexists. split; [done|]. simpl. split; [done|]. split; [done|].
  split; [unfold partitions; simpl; by rewrite Hc|].
  apply events_since_app. simpl. by rewrite <- !app_assoc.
Qed.

Lemma rebalance_without_retries_witness :
  let s := set_running true
             (__init__ Scenario.topic "g" "a" (-1) 0 2000 (Some (KazooClient.mk 7)) false
                Scenario.coordinator) in
  ∃ s', _rebalance Scenario.env s = (Return tt, s') ∧
        zk s' = zk s ∧ _consumer s' = None ∧ partitions s' = None ∧
        events_since s s' = [LockAcquired; Log INFO "Rebalancing consumer"; LockReleased].
Proof.
  intros s. apply (rebalance_without_retries Scenario.env s); [simpl; lia|done..].
Defined.


(** ** After a rebalance *)

(** A steady member holds its assignment according to the registry. *)
Lemma steady_held (A : gset Partition.t) (s : State) :
  Topic.wf (_topic (config s)) → steady A s →
  ∃ H, _get_held_partitions s = (Return H, s) ∧ A ⊆ H.
Proof.
  intros Hwf [[c Hz] Hmem Hdec Hne Hmine Hroot Hcov Hown].
  destruct (held_of_returns (config s) (zk s) Hroot) as [H' HH'].
  { intros slug Ho. destruct (Hown slug Ho) as (q & Hq & HT & _). eauto. }
  exists H'. split; [by rewrite (get_held_partitions_eq _ _ Hz), HH'|].
  apply held_of_Return in HH' as (_ & Hslug & _).
  intros p Hp. destruct (Hcov p Hp) as (slug & Ho & Hid).
  destruct (Hslug slug Ho) as (i & q & Hi & Hq & HqH).
  rewrite Hid in Hi. injection Hi as <-.
  destruct (decide_partitions_subset _ _ _ _ Hdec Hp) as [k Hk].
  rewrite (wf_lookup_id _ _ _ Hwf Hk) in Hq. by injection Hq as <-.
Qed.

(** X22. After a rebalance that returned and left the member running,
    with at least one turn of the retry loop: the member is among the
    participants the registry lists, the inner consumer consumes exactly
    the partitions that [_decide_partitions] assigns to the member for
    these participants, this assignment is not empty, and the registry
    names the member for each of its partitions. *)
Theorem rebalance_claims_assignment (env : Env) (s s1 : State) :
  Topic.wf (_topic (config s)) →
  rooted (zk s) →
  (∀ ms st, rooted st → rooted (peers env ms st)) →
  _rebalance env s = (Return tt, s1) →
  _running s1 = true →
  0 < _rebalance_max_retries (config s1) →
  ∃ P A H,
    _get_participants s1 = (Return P, s1) ∧
    _consumer_id (config s1) ∈ P ∧
    _decide_partitions (config s1) P = Return A ∧
    A ≠ ∅ ∧
    _partitions s1 = A ∧
    _get_held_partitions s1 = (Return H, s1) ∧
    A ⊆ H.
Proof.
  intros Hwf Hroot Hpeers Hrun Hr Hmax.
  destruct (rebalance_settles env _ _ Hwf Hroot Hpeers Hrun)
    as [[Hstop|[Hzero|(A & Hwf1 & HA)]] _]; [congruence|lia|].
  destruct (steady_held A s1 Hwf1 HA) as (H & HH & Hsub).
  destruct HA as [[c Hz] Hmem Hdec Hne Hmine _ _ _].
  exists (participants_of (config s1) (zk s1)), A, H.
  split; [by apply (get_participants_eq s1 c)|]. done.
Qed.

Lemma rebalance_claims_assignment_witness :
  let s1 := (_rebalance Scenario.env Scenario.joined).2 in
  ∃ P A H,
    _get_participants s1 = (Return P, s1) ∧
    _consumer_id (config s1) ∈ P ∧
    _decide_partitions (config s1) P = Return A ∧
    A ≠ ∅ ∧
    _partitions s1 = A ∧
    _get_held_partitions s1 = (Return H, s1) ∧
    A ⊆ H.
Proof.
  assert ((_rebalance Scenario.env Scenario.joined).1 = Return tt) as Hrun
    by (vm_compute; reflexivity).
  apply (rebalance_claims_assignment Scenario.env Scenario.joined).
  - unfold Topic.wf. apply (bool_decide_unpack _). vm_compute. exact I.
  - apply rooted_intro. apply (bool_decide_unpack _). vm_compute. exact I.
  - intros ms st H. exact H.
  - rewrite <- Hrun. apply surjective_pairing.
  - vm_compute. reflexivity.
  - vm_compute. reflexivity.
Defined.

(** ** Public calls before the first rebalance *)

(** X23. On a member without inner consumer and without stored worker
    error the public calls fail, each in its own way, and change nothing:
    [commit_offsets] raises [AttributeError], from the call on [None];
    [reset_offsets] raises [ConsumerStoppedException]; [consume] raises
    [NoPartitionsForConsumerException]. *)
Theorem public_calls_without_consumer (env : Env) (s : State) :
  _worker_exception s = None →
  _consumer s = None →
  commit_offsets env s = (Raise AttributeError, s) ∧
  reset_offsets env s = (Raise ConsumerStoppedException, s) ∧
  (∀ fuel block, consume env fuel block s = (Raise NoPartitionsForConsumerException, s)).
Proof.
  intros Hex Hc. split; [|split].
  - unfold commit_offsets.
    rewrite (bind_Return_eq _ _ _ _ _ (raise_worker_exceptions_none s Hex)).
    unfold bind at 1, gets at 1. by rewrite Hc.
  - unfold reset_offsets.
    rewrite (bind_Return_eq _ _ _ _ _ (raise_worker_exceptions_none s Hex)).
    unfold bind at 1, gets at 1. by rewrite Hc.
  - intros fuel block. unfold consume. unfold bind at 1, gets at 1.
    unfold _partitions, partitions. rewrite Hc. simpl. by rewrite decide_True.
Qed.

Lemma public_calls_without_consumer_witness :
  commit_offsets Scenario.env Scenario.fresh = (Raise AttributeError, Scenario.fresh) ∧
  reset_offsets Scenario.env Scenario.fresh
  = (Raise ConsumerStoppedException, Scenario.fresh) ∧
  (∀ fuel block, consume Scenario.env fuel block Scenario.fresh
                 = (Raise NoPartitionsForConsumerException, Scenario.fresh)).
Proof.
  apply (public_calls_without_consumer Scenario.env Scenario.fresh); reflexivity.
Defined.

(** ** The inner consumer over the life of the member *)

(** [keeps_offsets]: a member that had an inner consumer still has one,
    and no inner consumer was created with the order to reset its
    offsets. *)
Definition keeps_offsets : relation State := λ s s',
  is_Some (_consumer s) →
  is_Some (_consumer s') ∧ extends (λ e, ∀ ps, e ≠ InnerCreated ps true) s s'.

Global Instance keeps_offsets_preorder : PreOrder keeps_offsets.
Proof.
  split.
  - intros s Hc. split; [done|]. by apply extends_same_trace.
  - intros s1 s2 s3 H12 H23 Hc. destruct (H12 Hc) as [Hc2 E12].
    destruct (H23 Hc2) as [Hc3 E23]. split; [done|]. by etrans.
Qed.

Ltac offsets_leaf :=
  first [ reflexivity
        | intros ?; split; [done|by apply extends_same_trace]
        | intros ?; split; [done|eexists [_]; split; [reflexivity|by repeat constructor]]
        | done ].

Section inner_consumer.
Context (env : Env).

(** [_setup_internal_consumer], case by case. *)
Lemma setup_internal_consumer_eq (ps : list Partition.t) (start : bool) (s : State) :
  _setup_internal_consumer env ps start s
  = match _consumer s with
    | Some c =>
        (Return tt,
         set_trace (trace s ++ [InnerStopped; InnerCreated ps false])
           (set_consumer (Some (SimpleConsumer.new (initial_offset env) ps false start)) s))
    | None =>
        (Return tt,
         set_trace (trace s ++ [InnerCreated ps (_reset_offset_on_start (config s))])
           (set_consumer
              (Some (SimpleConsumer.new (initial_offset env) ps
                       (_reset_offset_on_start (config s)) start)) s))
    end.
Proof.
  unfold _setup_internal_consumer. unfold bind at 1, gets at 1. unfold bind at 1, gets at 1.
  destruct (_consumer s); [|done].
  unfold bind, emit, modify, ret. simpl. unfold modify. simpl.
  by rewrite <- app_assoc.
Qed.

Lemma offsets_setup_internal_consumer ps start :
  preserves keeps_offsets (_setup_internal_consumer env ps start).
Proof.
  intros s r s'. rewrite setup_internal_consumer_eq. intros Hrun [c Hc].
  rewrite Hc in Hrun. injection Hrun as <- <-. split; [done|].
  eexists. split; [done|]. by repeat constructor.
Qed.

Lemma offsets_get_participants : preserves keeps_offsets _get_participants.
Proof. apply preserves_eq_any; [apply _|apply eq_get_participants]. Qed.

Lemma offsets_get_held_partitions : preserves keeps_offsets _get_held_partitions.
Proof. apply preserves_eq_any; [apply _|apply eq_get_held_partitions]. Qed.

Lemma offsets_rebalance_attempt : preserves keeps_offsets (rebalance_attempt env).
Proof.
  pose proof offsets_setup_internal_consumer. pose proof offsets_get_participants.
  pose proof offsets_get_held_partitions.
  unfold rebalance_attempt, _add_self, _remove_partitions, _add_partitions.
  frame offsets_leaf.
Qed.

Lemma offsets_rebalance_loop retries : preserves keeps_offsets (rebalance_loop env retries).
Proof.
  pose proof offsets_rebalance_attempt.
  induction retries as [|i retries IH]; simpl; unfold sleep; frame offsets_leaf.
Qed.

Lemma offsets_stop : preserves keeps_offsets stop.
Proof.
  pose proof offsets_get_held_partitions.
  unfold stop, _remove_partitions. frame offsets_leaf.
Qed.

Lemma offsets_rebalance : preserves keeps_offsets (_rebalance env).
Proof.
  pose proof offsets_rebalance_loop. pose proof offsets_stop.
  unfold _rebalance, rebalance_locked, commit_offsets, _raise_worker_exceptions.
  frame offsets_leaf.
Qed.

End inner_consumer.

(** X24. The order to reset the offsets is given to the first inner
    consumer only.  [_setup_internal_consumer] always returns; on a
    member without inner consumer it creates one with the configured
    [reset_offset_on_start], on a member with one it stops that one and
    creates the next without reset.  Hence a rebalance of a member that
    has an inner consumer, however it ends, leaves it with an inner
    consumer and never creates one that resets its offsets. *)
Theorem reset_offsets_first_consumer_only (env : Env) (s : State) :
  (∀ ps start,
     ∃ s', _setup_internal_consumer env ps start s = (Return tt, s') ∧
           _consumer s'
           = Some (SimpleConsumer.new (initial_offset env) ps
                     (if _consumer s is Some _ then false
                      else _reset_offset_on_start (config s)) start) ∧
           events_since s s'
           = if _consumer s is Some _ then [InnerStopped; InnerCreated ps false]
             else [InnerCreated ps (_reset_offset_on_start (config s))]) ∧
  (is_Some (_consumer s) →
   is_Some (_consumer (_rebalance env s).2) ∧
   Forall (λ e, ∀ ps, e ≠ InnerCreated ps true) (events_since s (_rebalance env s).2)).
Proof.
  split.
  - intros ps start. rewrite setup_internal_consumer_eq.
    destruct (_consumer s); eexists; (split; [done|split; [done|]]);
      by apply events_since_app.
  - intros Hc. destruct (_rebalance env s) as [r s'] eqn:Hrun.
    destruct (offsets_rebalance env _ _ _ Hrun Hc) as [Hc' Hev].
    split; [done|]. by apply extends_events_since in Hev as [_ Hev].
Qed.

Lemma reset_offsets_first_consumer_only_witness :
  is_Some (_consumer (_rebalance Scenario.env Scenario.joined).2) ∧
  Forall (λ e, ∀ ps, e ≠ InnerCreated ps true)
    (events_since Scenario.joined (_rebalance Scenario.env Scenario.joined).2).
Proof.
  apply (reset_offsets_first_consumer_only Scenario.env Scenario.joined).
  apply (bool_decide_unpack _). vm_compute. exact I.
Defined.

(** ** Stopping before starting *)

(** [__del__]: the finaliser logs and calls [stop]. *)
Definition __del__ : M unit :=
  emit (Log DEBUG "Finalising") ;;; stop.

(** [stop] on a member without inner consumer, up to the branch on
    [_owns_zookeeper]. *)
Lemma stop_without_consumer (s : State) :
  _rebalancing_lock s = false →
  _consumer s = None →
  let s1 := set_trace (trace s ++ [StopCalled; LockAcquired; LockReleased])
              (set_rebalancing_lock false (set_running false s)) in
  stop s
  = (if _owns_zookeeper (config s) then zk_stop
     else
       held <- _get_held_partitions ;;
       _remove_partitions (elements held) ;;;
       try_except (zk_delete (_path_self (config s)))
         (λ e, match e with
               | NoNodeException => Some (ret tt)
               | _ => None
               end)) s1.
Proof.
  intros Hfree Hc s1. unfold stop.
  unfold bind at 1. simpl. unfold bind at 1, with_lock. simpl.
  rewrite Hfree. simpl. unfold bind at 1, gets at 1. simpl. rewrite Hc.
  unfold bind at 1. simpl. unfold bind at 1, gets at 1. simpl.
  unfold s1. by rewrite <- !app_assoc.
Qed.

(** The two ways in which [stop] fails before [start]. *)
Lemma stop_unstarted (s : State) :
  _rebalancing_lock s = false →
  _consumer s = None →
  (_owns_zookeeper (config s) = true → _zookeeper s = None →
   ∃ s', stop s = (Raise AttributeError, s') ∧ _running s' = false ∧ zk s' = zk s) ∧
  (_owns_zookeeper (config s) = false → is_Some (_zookeeper s) →
   zk s !! _topic_path (config s) = None →
   ∃ s', stop s = (Raise NoNodeException, s') ∧ _running s' = false ∧ zk s' = zk s).
Proof.
  intros Hfree Hc. rewrite (stop_without_consumer s Hfree Hc). split.
  - intros -> Hz. unfold zk_stop, bind, zookeeper. simpl. rewrite Hz. by eexists.
  - intros -> [c Hz] Htop. unfold bind at 1.
    rewrite (get_held_partitions_eq _ c) by done. unfold held_of. simpl. rewrite Htop.
    by eexists.
Qed.

(** X25. [stop] before [start] fails, and so does the finaliser
    [__del__], which calls it.  On a member without inner consumer and
    with the lock free, [stop] first marks the member as not running; a
    member that was to open its own session has no client yet and gets
    [AttributeError] from the call on [None]; a member that was handed a
    client reads its records under a topic path that does not exist yet
    and gets [NoNodeException].  The coordinator is untouched. *)
Theorem stop_before_start (s : State) :
  _rebalancing_lock s = false →
  _consumer s = None →
  (_owns_zookeeper (config s) = true → _zookeeper s = None →
   (∃ s', stop s = (Raise AttributeError, s') ∧ _running s' = false ∧ zk s' = zk s) ∧
   (∃ s', __del__ s = (Raise AttributeError, s') ∧ _running s' = false ∧ zk s' = zk s)) ∧
  (_owns_zookeeper (config s) = false → is_Some (_zookeeper s) →
   zk s !! _topic_path (config s) = None →
   (∃ s', stop s = (Raise NoNodeException, s') ∧ _running s' = false ∧ zk s' = zk s) ∧
   (∃ s', __del__ s = (Raise NoNodeException, s') ∧ _running s' = false ∧ zk s' = zk s)).
Proof.
  intros Hfree Hc.
  set (s0 := set_trace (trace s ++ [Log DEBUG "Finalising"]) s).
  assert (__del__ s = stop s0) as Hdel by done.
  destruct (stop_unstarted s Hfree Hc) as [H1 H2].
  destruct (stop_unstarted s0 Hfree Hc) as [H1' H2'].
  split.
  - intros Hown Hz. split; [by apply H1|]. rewrite Hdel. by apply H1'.
  - intros Hown Hz Htop. split; [by apply H2|]. rewrite Hdel. by apply H2'.
Qed.

Lemma stop_before_start_witness :
  (_owns_zookeeper (config Scenario.fresh) = true → _zookeeper Scenario.fresh = None →
   (∃ s', stop Scenario.fresh = (Raise AttributeError, s') ∧ _running s' = false ∧
          zk s' = zk Scenario.fresh) ∧
   (∃ s', __del__ Scenario.fresh = (Raise AttributeError, s') ∧ _running s' = false ∧
          zk s' = zk Scenario.fresh)) ∧
  (_owns_zookeeper (config Scenario.fresh) = false → is_Some (_zookeeper Scenario.fresh) →
   zk Scenario.fresh !! _topic_path (config Scenario.fresh) = None →
   (∃ s', stop Scenario.fresh = (Raise NoNodeException, s') ∧ _running s' = false ∧
          zk s' = zk Scenario.fresh) ∧
   (∃ s', __del__ Scenario.fresh = (Raise NoNodeException, s') ∧ _running s' = false ∧
          zk s' = zk Scenario.fresh)).
Proof.
  apply (stop_before_start Scenario.fresh); reflexivity.
Defined.

(** ** The check of the checker thread *)

(** X26. [_check_held_partitions] answers [True] exactly when the set
    that [_get_held_partitions] reads from the registry is the set the
    inner consumer consumes; it logs, and changes neither the coordinator
    nor the inner consumer; a failure of the read is passed on. *)
Theorem check_held_partitions_spec (s : State) :
  ((_check_held_partitions s).1 = Return true ↔
   (_get_held_partitions s).1 = Return (_partitions s)) ∧
  ((_check_held_partitions s).1 = Return false ↔
   ∃ H, (_get_held_partitions s).1 = Return H ∧ H ≠ _partitions s) ∧
  (∀ e, (_check_held_partitions s).1 = Raise e ↔ (_get_held_partitions s).1 = Raise e) ∧
  zk (_check_held_partitions s).2 = zk s ∧
  _consumer (_check_held_partitions s).2 = _consumer s.
Proof.
  set (s0 := set_trace (trace s ++ [Log INFO "Checking held partitions against ZooKeeper"]) s).
  assert (_get_held_partitions s0 = ((_get_held_partitions s).1, s0)) as Hheld.
  { destruct (_zookeeper s) as [c|] eqn:Hz.
    - by rewrite (get_held_partitions_eq s0 c), (get_held_partitions_eq s c).
    - unfold _get_held_partitions, zk_get_children, bind, gets, zookeeper.
      change (_zookeeper s0) with (_zookeeper s). by rewrite Hz. }
  assert (_check_held_partitions s
          = match (_get_held_partitions s).1 with
            | Return H =>
                if decide (H ≠ _partitions s)
                then (Return false,
                      set_trace (trace s0 ++ [Log WARNING "Internal partition registry doesn't match ZooKeeper!"]) s0)
                else (Return true, s0)
            | Raise e => (Raise e, s0)
            | Blocked => (Blocked, s0)
            | OutOfFuel => (OutOfFuel, s0)
            end) as ->.
  { unfold _check_held_partitions. unfold bind at 1. simpl. fold s0.
    unfold bind at 1. rewrite Hheld.
    destruct (_get_held_partitions s).1 as [H|e| |]; try done.
    unfold bind at 1, gets at 1. change (_partitions s0) with (_partitions s).
    by destruct (decide (H ≠ _partitions s)). }
  destruct (_get_held_partitions s).1 as [H|e| |];
    [destruct (decide (H ≠ _partitions s)) as [Hne|Heq%dec_stable]|..]; simpl;
    repeat split; try done;
    try (by intros [= ->]); try (by intros (? & [= <-] & ?)); try (by intros (? & ? & ?));
    try (by eexists); try (by subst).
Qed.

(** ** Starting a member that has started *)

(** The participants are read from the participants directory and from
    the records in it. *)
Lemma participants_of_local (cfg : Config) (st st' : gmap (list string) ZooKeeper.node) :
  st' !! _consumer_id_path cfg = st !! _consumer_id_path cfg →
  (∀ c, st' !! (_consumer_id_path cfg ++ [c]) = st !! (_consumer_id_path cfg ++ [c])) →
  participants_of cfg st' = participants_of cfg st.
Proof.
  intros Hdir Hrec. unfold participants_of. rewrite Hdir.
  destruct (st !! _consumer_id_path cfg); [|done].
  apply sorted_id_perm, NoDup_Permutation; [apply NoDup_registered..|].
  intros c. by rewrite !elem_of_registered, !is_registered_spec, Hrec.
Qed.

(** Creating the topic path leaves the participants as they are. *)
Lemma participants_of_ensure_topic_path (cfg : Config)
    (st : gmap (list string) ZooKeeper.node) :
  participants_of cfg (ZooKeeper.ensure_path (_topic_path cfg) st) = participants_of cfg st.
Proof.
  apply participants_of_local.
  - apply ensure_path_lookup_other. unfold ZooKeeper.prefixes. simpl.
    rewrite !elem_of_cons, elem_of_nil. by intros [?|[?|[?|[?|?]]]].
  - intros c. apply ensure_path_lookup_other. unfold ZooKeeper.prefixes. simpl.
    rewrite !elem_of_cons, elem_of_nil. by intros [?|[?|[?|[?|?]]]].
Qed.

(** Whatever its outcome, [stop] entered with the lock free leaves the
    member not running. *)
Lemma stop_not_running (s : State) (r : Outcome unit) (s' : State) :
  _rebalancing_lock s = false → stop s = (r, s') → _running s' = false.
Proof.
  intros Hfree. unfold stop. set (tail := (c <- gets _consumer ;; _)).
  unfold bind at 1. simpl. unfold bind at 1, with_lock. simpl. rewrite Hfree. simpl.
  assert (preserves (same _running) tail) as Ht.
  { unfold tail, _remove_partitions. pose proof eq_get_held_partitions.
    frame same_leaf. }
  intros H. apply Ht in H. by rewrite H.
Qed.

(** X27. [start] is not idempotent.  On a member whose participant
    record exists and whose group has room, as after a first [start],
    [_add_self] raises [NodeExistsError]; [start] answers this like any
    failure and calls [stop]: the member is left not running, and when
    [stop] returns for a member that was handed its client, the
    participant record is deleted and [_get_participants] no longer lists
    the member. *)
Theorem start_twice_stops (env : Env) (s : State) (c : KazooClient.t) (P : list string) :
  _zookeeper s = Some c →
  _rebalancing_lock s = false →
  is_Some (zk s !! _path_self (config s)) →
  _get_participants s = (Return P, s) →
  Py.len P < Z.of_nat (size (Topic.partitions (_topic (config s)))) →
  (start_body env s).1 = Raise NodeExistsError ∧
  _running (start env s).2 = false ∧
  (_owns_zookeeper (config s) = false → (start env s).1 = Return tt →
   zk (start env s).2 !! _path_self (config s) = None ∧
   ∀ P' s'', _get_participants (start env s).2 = (Return P', s'') →
             _consumer_id (config s) ∉ P').
Proof.
  intros Hz Hfree [n Hn] HP Hroom.
  apply get_participants_Return in HP as (_ & _ & ->).
  set (s1 := set_zk (ZooKeeper.ensure_path (_topic_path (config s)) (zk s)) s).
  assert (start_body env s = (Raise NodeExistsError, set_zk (zk s1) s1)) as Hbody.
  { unfold start_body. unfold bind at 1, gets at 1. unfold bind at 1, gets at 1.
    rewrite Hz. unfold bind at 1. simpl. unfold bind at 1, zk_ensure_path.
    unfold bind at 1. rewrite (zookeeper_Some _ _ Hz). simpl. fold s1.
    unfold bind at 1, _add_self. unfold bind at 1, gets at 1.
    rewrite (bind_Return_eq _ _ _ _ _ (get_participants_eq s1 c Hz)).
    change (config s1) with (config s). change (zk s1) with
      (ZooKeeper.ensure_path (_topic_path (config s)) (zk s)).
    rewrite participants_of_ensure_topic_path.
    rewrite (proj2 (Z.leb_gt _ _) Hroom).
    rewrite (zk_create_eq s1 c) by done. unfold ZooKeeper.create.
    change (zk s1) with (ZooKeeper.ensure_path (_topic_path (config s)) (zk s)).
    by rewrite (ensure_path_lookup_old _ _ _ _ Hn). }
  assert (start env s
          = stop (set_trace
                    (trace s1 ++ [Log ERROR "Stopping consumer in response to error"])
                    (set_zk (zk s1) s1))) as Hstart.
  { unfold start, try_except. by rewrite Hbody. }
  split; [by rewrite Hbody|]. rewrite Hstart.
  destruct (stop _) as [r s'] eqn:Hstop. simpl. split.
  - by apply stop_not_running in Hstop.
  - intros Hown ->.
    apply stop_Return_record_gone in Hstop as (Hgone & Hcfg & _); [|exact Hown].
    split; [done|].
    intros P' s'' (-> & _ & ->)%get_participants_Return.
    rewrite Hcfg. by apply not_registered_not_participant.
Qed.

Lemma start_twice_stops_witness :
  (start_body Scenario.env Scenario.consuming).1 = Raise NodeExistsError ∧
  _running (start Scenario.env Scenario.consuming).2 = false ∧
  (_owns_zookeeper (config Scenario.consuming) = false →
   (start Scenario.env Scenario.consuming).1 = Return tt →
   zk (start Scenario.env Scenario.consuming).2 !! _path_self (config Scenario.consuming)
   = None ∧
   ∀ P' s'', _get_participants (start Scenario.env Scenario.consuming).2 = (Return P', s'') →
             _consumer_id (config Scenario.consuming) ∉ P').
Proof.
  apply (start_twice_stops Scenario.env Scenario.consuming (KazooClient.mk 7) ["a"%string]).
  - reflexivity.
  - vm_compute. reflexivity.
  - eexists. vm_compute. reflexivity.
  - rewrite (get_participants_eq Scenario.consuming (KazooClient.mk 7)) by reflexivity.
    f_equal; vm_compute; reflexivity.
  - vm_compute. reflexivity.
Defined.

(** ** Errors that are not retried *)

(** X28. Only [PartitionOwnedError] is retried.  On a running member,
    with or without an inner consumer, whose opening commit returned: when
    the first pass of the retry loop raises any other exception, as
    [_add_self] does on a full group or [_get_held_partitions] on a
    missing topic path, [_rebalance] releases the lock and
    raises this exception at once: there is no second pass and no
    sleep. *)
Theorem rebalance_other_errors_not_retried (env : Env) (s sc s' : State) (e : Exn) :
  _running s = true →
  _rebalancing_lock s = false →
  0 < _rebalance_max_retries (config s) →
  (∀ p, e ≠ PartitionOwnedError p) →
  (if _consumer s is Some _ then commit_offsets env else ret tt) s = (Return tt, sc) →
  rebalance_attempt env (entered sc) = (Raise e, s') →
  _rebalance env s = (Raise e, released s') ∧
  (∀ i retries, rebalance_loop env (i :: retries) (entered sc) = (Raise e, s')) ∧
  sleeps (events_since s (released s')) = [].
Proof.
  intros Hr Hfree Hmax He Hc Ha.
  assert (∀ i retries, rebalance_loop env (i :: retries) (entered sc) = (Raise e, s'))
    as Hloop.
  { intros i retries. apply rebalance_loop_attempt_done; [done|].
    intros p [= ->]. by apply (He p). }
  split; [|split; [done|]].
  - rewrite (rebalance_enters env _ _ Hr Hfree Hc).
    destruct (range_split (_rebalance_max_retries (config s)) 0) as [rest Hsplit]; [lia|].
    rewrite Hsplit. change (Py.range 0 ++ 0 :: rest) with (0 :: rest). by rewrite Hloop.
  - destruct (entry_commit env _ _ _ Hc) as (_ & _ & _ & Hec).
    apply extends_events_since in Hec as [Htc Hfc].
    destruct (events_rebalance_attempt env _ _ _ Ha) as (t & Ht & HPt).
    erewrite (events_since_app s (released s')
                (events_since s sc ++ [LockAcquired; Log INFO "Rebalancing consumer"]
                 ++ t ++ [LockReleased])).
    + rewrite !sleeps_app, (sleeps_no_sleep _ Hfc), (sleeps_attempt_events _ HPt). done.
    + simpl. rewrite Ht. simpl. rewrite Htc at 1. by rewrite <- !app_assoc.
Qed.

(** Member [a], consuming, when the coordinator has lost every path: the
    commit of the inner consumer returns, the first pass registers the
    member anew and then fails to read the records of the topic, and the
    caller gets that failure. *)
Lemma rebalance_other_errors_not_retried_witness :
  let s := set_zk ∅ Scenario.consuming in
  let sc := (commit_offsets Scenario.env s).2 in
  _rebalance Scenario.env s
  = (Raise NoNodeException, released (rebalance_attempt Scenario.env (entered sc)).2) ∧
  (∀ i retries,
     rebalance_loop Scenario.env (i :: retries) (entered sc)
     = (Raise NoNodeException, (rebalance_attempt Scenario.env (entered sc)).2)) ∧
  sleeps (events_since s (released (rebalance_attempt Scenario.env (entered sc)).2)) = [].
Proof.
  intros s sc.
  assert ((commit_offsets Scenario.env s).1 = Return tt) as Hcommit
    by (vm_compute; reflexivity).
  assert ((rebalance_attempt Scenario.env (entered sc)).1 = Raise NoNodeException) as Hrun
    by (vm_compute; reflexivity).
  assert (is_Some (_consumer s)) as [c Hcons]
    by (apply (bool_decide_unpack _); vm_compute; exact I).
  apply (rebalance_other_errors_not_retried Scenario.env s sc
           (rebalance_attempt Scenario.env (entered sc)).2 NoNodeException).
  - apply (bool_decide_unpack _). vm_compute. exact I.
  - apply (bool_decide_unpack _). vm_compute. exact I.
  - apply (bool_decide_unpack _). vm_compute. exact I.
  - done.
  - rewrite Hcons, <- Hcommit. apply surjective_pairing.
  - rewrite <- Hrun. apply surjective_pairing.
Defined.

(** ** What the registry operations leave alone *)

(** [keeps_nodes cfg E]: on a member configured by [cfg], every node of
    the coordinator whose path is not in [E] is still there, with the
    same content. *)
Definition keeps_nodes (cfg : Config) (E : list string → Prop) : relation State := λ s s',
  config s = cfg →
  config s' = cfg ∧
  ∀ k n, ¬ E k → zk s !! k = Some n → zk s' !! k = Some n.

Global Instance keeps_nodes_preorder cfg E : PreOrder (keeps_nodes cfg E).
Proof.
  split.
  - intros s Hc. by split.
  - intros s1 s2 s3 H12 H23 Hc. destruct (H12 Hc) as [Hc2 K12].
    destruct (H23 Hc2) as [Hc3 K23]. split; [done|]. intros k n Hk Hn.
    by apply K23, K12.
Qed.

(** The ownership records of the member's topic, and these together
    with the participant record of the member. *)
Definition is_record (cfg : Config) (k : list string) : Prop :=
  ∃ q, k = _path_from_partition cfg q.

Definition is_own_node (cfg : Config) (k : list string) : Prop :=
  is_record cfg k ∨ k = _path_self cfg.

Ltac nodes_leaf := first [reflexivity | by intros ?; split | done].

Section nodes.
Context (env : Env) (cfg : Config) (E : list string → Prop).

Lemma nodes_zk_delete p : E p → preserves (keeps_nodes cfg E) (zk_delete p).
Proof.
  intros Hp.
  apply (preserves_bind (keeps_nodes cfg E)); [apply preserves_zookeeper; apply _|].
  intros c s r s'. unfold ZooKeeper.delete.
  destruct (zk s !! p); intros [= <- <-]; [|by intros ?; split].
  intros Hc. split; [done|]. intros k m Hk Hm. simpl.
  rewrite lookup_delete_ne; [done|]. by intros ->.
Qed.

Lemma nodes_zk_create p v eph mk : preserves (keeps_nodes cfg E) (zk_create p v eph mk).
Proof.
  apply (preserves_bind (keeps_nodes cfg E)); [apply preserves_zookeeper; apply _|].
  intros c s r s'. unfold ZooKeeper.create.
  destruct (zk s !! p) eqn:Hp; intros [= <- <-]; [by intros ?; split|].
  intros Hc. split; [done|]. intros k m Hk Hm. simpl.
  rewrite lookup_insert_ne by (intros ->; congruence).
  destruct mk; [by apply ensure_path_lookup_old|done].
Qed.

Hypothesis records_in_E : ∀ q, E (_path_from_partition cfg q).

Lemma nodes_remove_loop ps :
  preserves (keeps_nodes cfg E)
    (for_ ps tt (λ p _,
       emit (RemovePartition p) ;;; zk_delete (_path_from_partition cfg p))).
Proof.
  apply preserves_for; [apply _|]. intros p [].
  apply preserves_bind; [apply _| |intros _; by apply nodes_zk_delete].
  unfold emit. apply preserves_modify. by intros s ?; split.
Qed.

Lemma nodes_remove_partitions ps : preserves (keeps_nodes cfg E) (_remove_partitions ps).
Proof.
  intros s r s' Hrun Hc. revert Hrun. unfold _remove_partitions.
  unfold bind at 1, gets at 1. rewrite Hc. intros Hrun.
  by apply (nodes_remove_loop ps _ _ _ Hrun).
Qed.

Lemma nodes_add_partitions ps : preserves (keeps_nodes cfg E) (_add_partitions ps).
Proof.
  unfold _add_partitions.
  repeat first [apply nodes_zk_create | frame_step nodes_leaf].
Qed.

Lemma nodes_get_participants : preserves (keeps_nodes cfg E) _get_participants.
Proof. apply preserves_eq_any; [apply _|apply eq_get_participants]. Qed.

Lemma nodes_get_held_partitions : preserves (keeps_nodes cfg E) _get_held_partitions.
Proof. apply preserves_eq_any; [apply _|apply eq_get_held_partitions]. Qed.

Lemma nodes_add_self : preserves (keeps_nodes cfg E) _add_self.
Proof.
  pose proof nodes_get_participants. unfold _add_self.
  repeat first [apply nodes_zk_create | frame_step nodes_leaf].
Qed.

Lemma nodes_setup_internal_consumer ps b :
  preserves (keeps_nodes cfg E) (_setup_internal_consumer env ps b).
Proof. unfold _setup_internal_consumer. frame nodes_leaf. Qed.

Lemma nodes_rebalance_attempt : preserves (keeps_nodes cfg E) (rebalance_attempt env).
Proof.
  pose proof nodes_get_participants. pose proof nodes_get_held_partitions.
  pose proof nodes_add_self. pose proof nodes_remove_partitions.
  pose proof nodes_add_partitions. pose proof nodes_setup_internal_consumer.
  unfold rebalance_attempt. frame nodes_leaf.
Qed.

Hypothesis self_in_E : E (_path_self cfg).
Hypothesis handed_client : _owns_zookeeper cfg = false.

Lemma nodes_stop : preserves (keeps_nodes cfg E) stop.
Proof.
  pose proof nodes_get_held_partitions. pose proof nodes_remove_partitions.
  assert (preserves (keeps_nodes cfg E)
            (held <- _get_held_partitions ;;
             _remove_partitions (elements held) ;;;
             try_except (zk_delete (_path_self cfg))
               (λ e, match e with
                     | NoNodeException => Some (ret tt)
                     | _ => None
                     end))) as Hrecords.
  { repeat first [by apply nodes_zk_delete | frame_step nodes_leaf]. }
  assert (preserves (keeps_nodes cfg E)
            (cfg' <- gets config ;;
             if _owns_zookeeper cfg' then zk_stop
             else
               held <- _get_held_partitions ;;
               _remove_partitions (elements held) ;;;
               try_except (zk_delete (_path_self cfg'))
                 (λ e, match e with
                       | NoNodeException => Some (ret tt)
                       | _ => None
                       end))) as Htail.
  { intros s r s' Hrun Hc. revert Hrun. unfold bind at 1, gets at 1.
    rewrite Hc, handed_client. intros Hrun. by apply (Hrecords _ _ _ Hrun). }
  unfold stop.
  apply preserves_bind; [apply _|frame nodes_leaf|]. intros _.
  apply preserves_bind; [apply _|frame nodes_leaf|]. intros _.
  apply preserves_bind; [apply _|frame nodes_leaf|]. intros c.
  apply preserves_bind; [apply _|frame nodes_leaf|]. intros _.
  exact Htail.
Qed.

End nodes.

(** X29. A pass of the retry loop, however it ends, neither deletes nor
    alters a node of the coordinator other than the ownership records of
    partitions under the topic path of the member: the participant
    records, those of the other members too, and the records of other
    topics and groups stay as they are. *)
Theorem rebalance_attempt_keeps_nodes (env : Env) (s : State) :
  ∀ k n, (∀ q, k ≠ _path_from_partition (config s) q) →
         zk s !! k = Some n → zk (rebalance_attempt env s).2 !! k = Some n.
Proof.
  intros k n Hk Hn. destruct (rebalance_attempt env s) as [r s'] eqn:Hrun.
  destruct (nodes_rebalance_attempt env (config s) (is_record (config s))
              (λ q, ex_intro _ q eq_refl) _ _ _ Hrun eq_refl) as [_ Hkeep].
  apply Hkeep; [|done]. intros [q ->]. by apply (Hk q).
Qed.

(** The record of member [b] outlives the pass in which member [a] gives
    up two partitions. *)
Lemma rebalance_attempt_keeps_nodes_witness :
  zk (rebalance_attempt Scenario.env Scenario.joined).2
    !! (_consumer_id_path (Scenario.cfg "a") ++ ["b"%string])
  = Some (ZooKeeper.mk "t" (Some 8%nat)).
Proof.
  apply (rebalance_attempt_keeps_nodes Scenario.env Scenario.joined).
  - intros q H. by apply (f_equal length) in H.
  - vm_compute. reflexivity.
Defined.

(** X30. [stop] of a member that was handed its client, however it ends,
    neither deletes nor alters a node of the coordinator other than the
    ownership records under the topic path of the member and the
    participant record of the member. *)
Theorem stop_keeps_other_nodes (s : State) :
  _owns_zookeeper (config s) = false →
  ∀ k n, (∀ q, k ≠ _path_from_partition (config s) q) →
         k ≠ _path_self (config s) →
         zk s !! k = Some n → zk (stop s).2 !! k = Some n.
Proof.
  intros Hown k n Hk Hself Hn. destruct (stop s) as [r s'] eqn:Hrun.
  destruct (nodes_stop (config s) (is_own_node (config s))
              (λ q, or_introl (ex_intro _ q eq_refl)) (or_intror eq_refl) Hown
              _ _ _ Hrun eq_refl) as [_ Hkeep].
  apply Hkeep; [|done]. intros [[q ->]| ->]; [by apply (Hk q)|done].
Qed.

Lemma stop_keeps_other_nodes_witness :
  zk (stop Scenario.joined).2 !! (_consumer_id_path (Scenario.cfg "a") ++ ["b"%string])
  = Some (ZooKeeper.mk "t" (Some 8%nat)).
Proof.
  apply (stop_keeps_other_nodes Scenario.joined).
  - reflexivity.
  - intros q H. by apply (f_equal length) in H.
  - apply (bool_decide_unpack _). vm_compute. exact I.
  - vm_compute. reflexivity.
Defined.
